(** * Darija lesson builder: authoring reducer, validator and learner quiz engine

    Shallow embedding of the logic of the teacher dashboard
    ([lessonReducer], [validateActivity]) and of the learner view
    ([parseFillInBlanks] and the handlers of [LearnerLessonView]),
    with the properties of the design document stated over it. *)

From Stdlib Require Import NArith ZArith String Ascii.
From stdpp Require Import base option list gmap.
From Equations.Prop Require Import Equations Logic.

Open Scope N_scope.

(** ** JavaScript strings

    A JavaScript string is a sequence of UTF-16 code units.  A code unit is
    modelled as a number in [N]; the string methods used by the program
    ([split], [trim], [startsWith], [endsWith], [includes], [substring])
    work on code units. *)

Abbreviation char := N (only parsing).
Abbreviation jsstring := (list N) (only parsing).

(** ASCII literals of the source, as code-unit sequences. *)
Definition lit (s : string) : jsstring :=
  map N_of_ascii (list_ascii_of_string s).

Definition LBRACE : char := 123.
Definition RBRACE : char := 125.

(** ECMAScript [LineTerminator]: LF, CR, LS, PS.  The regular-expression
    atom [.] (without the [s] flag) matches every code unit except these. *)
Definition is_line_terminator (c : char) : bool :=
  (c =? 10) || (c =? 13) || (c =? 8232) || (c =? 8233).

(** ECMAScript [WhiteSpace] and [LineTerminator], the code points that
    [String.prototype.trim] removes: TAB, LF, VT, FF, CR, SP, NBSP,
    U+1680, U+2000..U+200A, LS, PS, U+202F, U+205F, U+3000, BOM. *)
Definition is_white_space (c : char) : bool :=
  (c =? 9) || (c =? 10) || (c =? 11) || (c =? 12) || (c =? 13) ||
  (c =? 32) || (c =? 160) || (c =? 5760) ||
  ((8192 <=? c) && (c <=? 8202)) ||
  (c =? 8232) || (c =? 8233) || (c =? 8239) || (c =? 8287) ||
  (c =? 12288) || (c =? 65279).

Fixpoint trim_start (s : jsstring) : jsstring :=
  match s with
  | [] => []
  | c :: r => if is_white_space c then trim_start r else s
  end.

(** [s.trim()] *)
Definition trim (s : jsstring) : jsstring :=
  rev (trim_start (rev (trim_start s))).

(** Truthiness of a string value: the empty string is the only falsy one. *)
Definition truthy (s : jsstring) : bool :=
  match s with [] => false | _ => true end.

(** [s.startsWith(c)] and [s.endsWith(c)] for a one-unit needle. *)
Definition startsWith (c : char) (s : jsstring) : bool :=
  match s with x :: _ => x =? c | [] => false end.

Definition endsWith (c : char) (s : jsstring) : bool :=
  match last s with Some x => x =? c | None => false end.

(** [s.includes(c)] for a one-unit needle. *)
Definition includes (c : char) (s : jsstring) : bool :=
  existsb (N.eqb c) s.

(** [s.substring(i, j)]: both indices are clamped to the string and
    swapped when the first is the larger one. *)
Definition substring (i j : Z) (s : jsstring) : jsstring :=
  let len := Z.of_nat (length s) in
  let i' := Z.max 0 (Z.min i len) in
  let j' := Z.max 0 (Z.min j len) in
  take (Z.to_nat (Z.max i' j' - Z.min i' j'))
       (drop (Z.to_nat (Z.min i' j')) s).

(** [s.substring(1, s.length - 1)] *)
Definition strip_ends (s : jsstring) : jsstring :=
  substring 1 (Z.of_nat (length s) - 1) s.

(** ** The regular expression [/(\{.*?\})/g]

    [exec_lazy_close s] runs the tail [.*?\}] of the pattern on [s]: the
    lazy star first tries the continuation [\}]; when the next unit is not
    a closing brace it lets [.] consume one unit, which fails on a line
    terminator.  The result is the text consumed by [.*?] and what follows
    the closing brace. *)
Fixpoint exec_lazy_close (s : jsstring) : option (jsstring * jsstring) :=
  match s with
  | [] => None
  | c :: r =>
      if c =? RBRACE then Some ([], r)
      else if is_line_terminator c then None
      else match exec_lazy_close r with
           | Some (m, rest) => Some (c :: m, rest)
           | None => None
           end
  end.

(** A sticky match of the whole pattern at the head of [s]: the matched
    text (the capture group) and the rest of the input. *)
Definition exec_brace (s : jsstring) : option (jsstring * jsstring) :=
  match s with
  | c :: r =>
      if c =? LBRACE then
        match exec_lazy_close r with
        | Some (m, rest) => Some (LBRACE :: m ++ [RBRACE], rest)
        | None => None
        end
      else None
  | [] => None
  end.

Lemma exec_lazy_close_length s m rest :
  exec_lazy_close s = Some (m, rest) → (length rest < length s)%nat.
Proof.
  revert m rest. induction s as [|c r IH]; intros m rest; simpl; [done|].
  destruct (c =? RBRACE).
  - intros [= <- <-]. lia.
  - destruct (is_line_terminator c); [done|].
    destruct (exec_lazy_close r) as [[m' rest']|] eqn:E; [|done].
    intros [= <- <-]. specialize (IH _ _ eq_refl). lia.
Qed.

Lemma exec_brace_length s m rest :
  exec_brace s = Some (m, rest) → (length rest < length s)%nat.
Proof.
  destruct s as [|c r]; simpl; [done|].
  destruct (c =? LBRACE); [|done].
  destruct (exec_lazy_close r) as [[m' rest']|] eqn:E; [|done].
  intros [= <- <-]. apply exec_lazy_close_length in E. lia.
Qed.

(** [S.split(re)] for this pattern, following the loop of
    [RegExp.prototype[@@split]]: [pending] is the text between the end [p]
    of the last match and the scan position [q], [s] is the input from [q]
    on.  A failed match at [q] advances [q] by one unit; a match pushes the
    pending text and the capture, and restarts after the match.  (A match of
    this pattern has at least two units, so the guard [e = p] of the loop
    never fires.)  The text left after the last match is pushed at the end. *)
Equations? split_loop (pending s : jsstring) : list jsstring
  by wf (length s) lt :=
  split_loop pending [] := [pending];
  split_loop pending (c :: r) with inspect (exec_brace (c :: r)) := {
    | exist _ (Some (m, rest)) Hm => pending :: m :: split_loop [] rest;
    | exist _ None Hm => split_loop (pending ++ [c]) r }.
Proof.
  apply (exec_brace_length (c :: r)) in Hm. simpl in Hm. lia.
Qed.

Definition split_braces (s : jsstring) : list jsstring := split_loop [] s.

(** ** Fill-in-blank tokenizer ([parseFillInBlanks]) *)

(** A token of [sentenceTemplate]: [{ text: part }] or
    [{ blank: blankIndex, correct: word }]. *)
Inductive Token : Type :=
| Text (text : jsstring)
| Blank (blank : nat) (correct : jsstring).

Record ParseResult : Type := mkParse {
  sentenceTemplate : list Token;
  correctWords : list jsstring
}.

(** The loop variables of [parts.forEach]: the template built so far, the
    counter [blankIndex] and the answers collected so far. *)
Definition ParseAcc : Type := (list Token * nat * list jsstring)%type.

(** [part.startsWith('{') && part.endsWith('}')] *)
Definition is_blank_part (part : jsstring) : bool :=
  startsWith LBRACE part && endsWith RBRACE part.

(** [part.substring(1, part.length - 1).trim()] *)
Definition blank_word (part : jsstring) : jsstring := trim (strip_ends part).

(** The body of the [forEach] callback. *)
Definition parse_part (acc : ParseAcc) (part : jsstring) : ParseAcc :=
  let '(tpl, blankIndex, words) := acc in
  if is_blank_part part then
    let word := blank_word part in
    (tpl ++ [Blank blankIndex word], S blankIndex, words ++ [word])
  else
    (tpl ++ [Text part], blankIndex, words).

(** [template.split(/(\{.*?\})/g).filter(p => p.length > 0)] *)
Definition template_parts (template : jsstring) : list jsstring :=
  filter (λ p : list N, (0 < length p)%nat) (split_braces template).

(** [parseFillInBlanks(template)].  The argument is [None] when the caller
    passes [undefined]; [!template] holds for [undefined] and for the empty
    string. *)
Definition parseFillInBlanks (template : option jsstring) : ParseResult :=
  match template with
  | None | Some [] => mkParse [] []
  | Some t =>
      let '(tpl, _, words) := foldl parse_part ([], 0%nat, []) (template_parts t) in
      mkParse tpl words
  end.
Arguments parseFillInBlanks : simpl never.

(** [sentenceTemplate.filter(p => p.blank !== undefined)] *)
Definition is_blank_token (t : Token) : bool :=
  match t with Blank _ _ => true | Text _ => false end.

Definition blankParts (tpl : list Token) : list Token :=
  List.filter is_blank_token tpl.

(** The literal reconstruction of a template: the [text] of a text token,
    and [{correct}] for a blank. *)
Definition token_source (t : Token) : jsstring :=
  match t with
  | Text s => s
  | Blank _ w => LBRACE :: w ++ [RBRACE]
  end.

Definition reconstruct (tpl : list Token) : jsstring :=
  concat (map token_source tpl).

(** ** The tokenizer as the design document words it

    The template is cut at the boundaries of its [{...}] groups: a group
    opens at the first opening brace and closes at the next closing brace.
    The text before a group is a text token when it is not empty, the
    group is a blank whose word is its content without the surrounding
    white space, and blanks are numbered from [k] in order of appearance.
    What is left when no group remains is one text token. *)

(** [break_at d s] cuts [s] at the first occurrence of [d]. *)
Fixpoint break_at (d : char) (s : jsstring) : option (jsstring * jsstring) :=
  match s with
  | [] => None
  | c :: r =>
      if c =? d then Some ([], r)
      else match break_at d r with
           | Some (a, b) => Some (c :: a, b)
           | None => None
           end
  end.

Lemma break_at_length d s a b :
  break_at d s = Some (a, b) → (length b < length s)%nat.
Proof.
  revert a. induction s as [|c r IH]; intros a; simpl; [done|].
  destruct (c =? d).
  - intros [= <- <-]. lia.
  - destruct (break_at d r) as [[a' b']|] eqn:E; [|done].
    intros [= <- <-]. specialize (IH _ eq_refl). lia.
Qed.

(** A fragment outside the groups: a text token unless it is empty. *)
Definition text_token (s : jsstring) : list Token :=
  match s with [] => [] | _ => [Text s] end.

(** The tokens of [s], the blanks numbered from [k]. *)
Equations? tokenize_spec (k : nat) (s : jsstring) : list Token
  by wf (length s) lt :=
  tokenize_spec k s with inspect (break_at LBRACE s) := {
    | exist _ None _ => text_token s
    | exist _ (Some (pre, after)) Hopen
        with inspect (break_at RBRACE after) := {
        | exist _ None _ => text_token s
        | exist _ (Some (content, rest)) Hclose =>
            text_token pre ++
            Blank k (trim content) :: tokenize_spec (S k) rest } }.
Proof.
  apply break_at_length in Hopen, Hclose. lia.
Qed.

(** A template in one line: no code unit of it ends a line. *)
Definition no_line_terminator (s : jsstring) : Prop :=
  Forall (λ c, is_line_terminator c = false) s.

(** ** The activity document *)

Inductive ActivityType : Type :=
| MultipleChoice | FillInBlanks | Ordering | Dialogue | MatchImage
| OtherType (name : jsstring).

Inductive Difficulty : Type := Beginner | Intermediate | Advanced.

(** The [id] of a media element is a number on the authoring side
    ([Date.now()]) and a string in the demonstration data (['p1']). *)
Inductive Id : Type :=
| NumId (n : Z)
| StrId (s : jsstring).

(** [{ id, text, translation, audioFile, audioUrl }]; [audioFile] is [null]
    or the [{ name, url }] descriptor returned by the upload. *)
Module Media.
Record t : Type := mk {
  id : Id;
  text : jsstring;
  translation : jsstring;
  audioFile : option (jsstring * jsstring);
  audioUrl : jsstring
}.
End Media.

(** An element of [options]: a media element with [isCorrect]. *)
Module Opt.
Record t : Type := mk { media : Media.t; isCorrect : bool }.
Definition text (o : t) : jsstring := Media.text (media o).
End Opt.

(** An element of [pairs]: a media element with [image]. *)
Module Pair.
Record t : Type := mk { media : Media.t; image : jsstring }.
End Pair.

(** The activity object.  [wordBlocks] is the property written by the
    authoring side, [wordPool] the one read by the learner side; a property
    that the object does not carry is [None]. *)
Module Activity.
Record t : Type := mk {
  id : Z;
  type : ActivityType;
  title : jsstring;
  description : jsstring;
  question : Media.t;
  options : list Opt.t;
  items : list Media.t;
  pairs : list Pair.t;
  wordBlocks : option (list jsstring);
  wordPool : option (list jsstring);
  difficulty : Difficulty;
  timeEstimate : Z
}.
End Activity.

(** The initial values are built once, when the module is loaded; [t0] is
    the clock reading at that moment. *)
Definition initialMediaElement (t0 : Z) : Media.t :=
  Media.mk (NumId t0) [] [] None [].

Definition initialActivityData (t0 : Z) : Activity.t :=
  Activity.mk t0 MultipleChoice [] []
    (initialMediaElement t0)
    [Opt.mk (initialMediaElement t0) true;
     Opt.mk (initialMediaElement t0) false;
     Opt.mk (initialMediaElement t0) false]
    [initialMediaElement t0]
    [Pair.mk (initialMediaElement t0) []]
    (Some []) None Beginner 5.

(** ** Activity validator ([validateActivity]) *)

Definition E_TITLE : string := "Activity title is required".
Definition E_QUESTION : string := "Question text is required".
Definition E_OPTIONS : string := "At least 2 options are required".
Definition E_CORRECT : string := "One option must be marked as correct".
Definition E_ITEMS : string := "At least 2 items are required".
Definition E_PAIRS : string := "At least 2 pairs are required".
Definition E_BLANKS : string := "Sentence must contain blanks marked with {word}".

(** [if (cond) errors.push(msg)] *)
Definition push_if (cond : bool) (msg : string) (errors : list string)
  : list string :=
  if cond then errors ++ [msg] else errors.

(** The fields of a draft are always strings (they start from
    [initialActivityData]), so the optional chaining [?.] of the source
    never short-circuits. *)
Definition validateActivity (activity : Activity.t) : list string :=
  let errors := [] in
  let errors :=
    push_if (negb (truthy (trim (Activity.title activity)))) E_TITLE errors in
  let errors :=
    push_if (negb (truthy (trim (Media.text (Activity.question activity)))))
            E_QUESTION errors in
  match Activity.type activity with
  | MultipleChoice =>
      let validOptions :=
        List.filter (λ opt, truthy (trim (Opt.text opt)))
                    (Activity.options activity) in
      let errors :=
        push_if (length validOptions <? 2)%nat E_OPTIONS errors in
      push_if (negb (existsb Opt.isCorrect (Activity.options activity)))
              E_CORRECT errors
  | Ordering | Dialogue =>
      push_if (length (Activity.items activity) <? 2)%nat E_ITEMS errors
  | MatchImage =>
      push_if (length (Activity.pairs activity) <? 2)%nat E_PAIRS errors
  | FillInBlanks =>
      push_if (negb (includes LBRACE (Media.text (Activity.question activity))))
              E_BLANKS errors
  | OtherType _ => errors
  end.

(** ** Lesson authoring reducer ([lessonReducer]) *)

Inductive View : Type := ViewList | ViewSetup | ViewBuilder.
Inductive Level : Type := LevelBeginner | LevelIntermediate | LevelAdvanced.

(** Timestamps ([Date.now()], and the ISO strings of
    [new Date().toISOString()], whose order is the order of the instants
    they denote) are modelled as milliseconds in [Z]. *)
Module Lesson.
Record t : Type := mk {
  id : Z;
  title : jsstring;
  description : jsstring;
  level : Level;
  objectives : list jsstring;
  introParts : list jsstring;
  activities : list Activity.t;
  tags : list jsstring;
  currentView : View;
  isSaved : bool;
  isPublished : bool;
  createdAt : Z;
  updatedAt : Z
}.
End Lesson.

Definition initialLessonState (t0 : Z) : Lesson.t :=
  Lesson.mk t0 [] [] LevelBeginner [[]] [[]] [] [] ViewList false false t0 t0.

(** The pair [field]/[value] of a [SET_FIELD] action: the computed key
    [[action.field]] may name any property of the state. *)
Inductive FieldValue : Type :=
| F_id (v : Z)
| F_title (v : jsstring)
| F_description (v : jsstring)
| F_level (v : Level)
| F_objectives (v : list jsstring)
| F_introParts (v : list jsstring)
| F_activities (v : list Activity.t)
| F_tags (v : list jsstring)
| F_currentView (v : View)
| F_isSaved (v : bool)
| F_isPublished (v : bool)
| F_createdAt (v : Z)
| F_updatedAt (v : Z).

Inductive Action : Type :=
| SET_FIELD (fv : FieldValue)
| ADD_ACTIVITY (activity : Activity.t)
| UPDATE_ACTIVITY (id : Z) (activity : Activity.t)
| DELETE_ACTIVITY (id : Z)
| REORDER_ACTIVITIES (activities : list Activity.t)
| SET_VIEW (view : View)
| RESET_LESSON
| LOAD_LESSON (lesson : Lesson.t)
| UNKNOWN_ACTION.

(** [{ ...state, [field]: value }] *)
Definition set_field (state : Lesson.t) (fv : FieldValue) : Lesson.t :=
  let '(Lesson.mk i ti de le ob ip ac ta cv sa pu cr up) := state in
  match fv with
  | F_id v => Lesson.mk v ti de le ob ip ac ta cv sa pu cr up
  | F_title v => Lesson.mk i v de le ob ip ac ta cv sa pu cr up
  | F_description v => Lesson.mk i ti v le ob ip ac ta cv sa pu cr up
  | F_level v => Lesson.mk i ti de v ob ip ac ta cv sa pu cr up
  | F_objectives v => Lesson.mk i ti de le v ip ac ta cv sa pu cr up
  | F_introParts v => Lesson.mk i ti de le ob v ac ta cv sa pu cr up
  | F_activities v => Lesson.mk i ti de le ob ip v ta cv sa pu cr up
  | F_tags v => Lesson.mk i ti de le ob ip ac v cv sa pu cr up
  | F_currentView v => Lesson.mk i ti de le ob ip ac ta v sa pu cr up
  | F_isSaved v => Lesson.mk i ti de le ob ip ac ta cv v pu cr up
  | F_isPublished v => Lesson.mk i ti de le ob ip ac ta cv sa v cr up
  | F_createdAt v => Lesson.mk i ti de le ob ip ac ta cv sa pu v up
  | F_updatedAt v => Lesson.mk i ti de le ob ip ac ta cv sa pu cr v
  end.

(** [{ ...activity, id }] *)
Definition with_id (activity : Activity.t) (id : Z) : Activity.t :=
  let '(Activity.mk _ ty ti de qu op it pa wb wp di te) := activity in
  Activity.mk id ty ti de qu op it pa wb wp di te.

(** The reducer.  [t0] is the time at which the module was loaded (it
    fixes [initialLessonState]) and [now] the clock reading during the
    dispatch. *)
Definition lessonReducer (t0 now : Z) (state : Lesson.t) (action : Action)
  : Lesson.t :=
  match action with
  | SET_FIELD fv =>
      set_field (set_field state fv) (F_updatedAt now)
  | ADD_ACTIVITY activity =>
      set_field
        (set_field state
           (F_activities (Lesson.activities state ++ [with_id activity now])))
        (F_updatedAt now)
  | UPDATE_ACTIVITY id activity =>
      set_field
        (set_field state
           (F_activities
              (map (λ act, if Z.eqb (Activity.id act) id
                           then with_id activity (Activity.id act) else act)
                   (Lesson.activities state))))
        (F_updatedAt now)
  | DELETE_ACTIVITY id =>
      set_field
        (set_field state
           (F_activities
              (List.filter (λ act, negb (Z.eqb (Activity.id act) id))
                           (Lesson.activities state))))
        (F_updatedAt now)
  | REORDER_ACTIVITIES activities =>
      set_field (set_field state (F_activities activities)) (F_updatedAt now)
  | SET_VIEW view =>
      set_field state (F_currentView view)
  | RESET_LESSON =>
      set_field (set_field (initialLessonState t0) (F_id now))
                (F_currentView ViewSetup)
  | LOAD_LESSON lesson =>
      set_field (set_field lesson (F_currentView ViewSetup)) (F_updatedAt now)
  | UNKNOWN_ACTION => state
  end.

(** A run of the dashboard: the actions dispatched, each with the clock
    reading at its dispatch. *)
Definition dispatch_all (t0 : Z) (state : Lesson.t) (run : list (Z * Action))
  : Lesson.t :=
  foldl (λ st '(now, action), lessonReducer t0 now st action) state run.

(** ** Activity draft editor (the handlers that build a fill-in-blanks draft) *)

Definition COMMA : char := 44.
Definition HYPHEN : char := 45.
Definition SPACE : char := 32.

(** [s.split(",")]: the pieces between the separators, empty ones kept. *)
Fixpoint split_on (d : char) (piece s : jsstring) : list jsstring :=
  match s with
  | [] => [piece]
  | c :: r => if c =? d then piece :: split_on d [] r
              else split_on d (piece ++ [c]) r
  end.

(** [s.replace("-", " ")]: only the first occurrence is replaced. *)
Fixpoint replace_first (d by_ : char) (s : jsstring) : jsstring :=
  match s with
  | [] => []
  | c :: r => if c =? d then by_ :: r else c :: replace_first d by_ r
  end.

(** The value of the [type] property. *)
Definition type_name (ty : ActivityType) : jsstring :=
  match ty with
  | MultipleChoice => lit "multiple-choice"
  | FillInBlanks => lit "fill-in-blanks"
  | Ordering => lit "ordering"
  | Dialogue => lit "dialogue"
  | MatchImage => lit "match-image"
  | OtherType name => name
  end.

(** [handleTypeChange]: the draft restarts from [initialActivityData] and
    keeps its [id] and, when it has one, its title. *)
Definition handleTypeChange (t0 : Z) (tempActivity : Activity.t)
           (newType : ActivityType) : Activity.t :=
  let '(Activity.mk _ _ _ de qu op it pa wb wp di te) := initialActivityData t0 in
  Activity.mk (Activity.id tempActivity) newType
    (if truthy (Activity.title tempActivity) then Activity.title tempActivity
     else lit "New " ++ replace_first HYPHEN SPACE (type_name newType)
                     ++ lit " activity")
    de qu op it pa wb wp di te.

(** [setTempActivity(prev => ({ ...prev, title: value }))] *)
Definition setTitle (prev : Activity.t) (value : jsstring) : Activity.t :=
  let '(Activity.mk i ty _ de qu op it pa wb wp di te) := prev in
  Activity.mk i ty value de qu op it pa wb wp di te.

(** [setTempActivity(prev => ({ ...prev,
      question: { ...prev.question, text: value } }))] *)
Definition setQuestionText (prev : Activity.t) (value : jsstring) : Activity.t :=
  let '(Activity.mk i ty ti de qu op it pa wb wp di te) := prev in
  let '(Media.mk qi _ tr af au) := qu in
  Activity.mk i ty ti de (Media.mk qi value tr af au) op it pa wb wp di te.

(** The distractor input:
    [wordBlocks: value.split(",").map(w => w.trim()).filter(w => w)]. *)
Definition setWordBlocks (prev : Activity.t) (value : jsstring) : Activity.t :=
  let '(Activity.mk i ty ti de qu op it pa _ wp di te) := prev in
  Activity.mk i ty ti de qu op it pa
    (Some (List.filter truthy (map trim (split_on COMMA [] value))))
    wp di te.

(** ** Learner view ([LearnerLessonView]) *)

(** The outcome of code that may throw: dereferencing [undefined] raises a
    [TypeError]. *)
Inductive result (A : Type) : Type :=
| Ok (a : A)
| TypeError.
Arguments Ok {A} a.
Arguments TypeError {A}.

Module LessonData.
Record t : Type := mk {
  title : jsstring;
  objectives : list jsstring;
  introParts : list jsstring;
  activities : list Activity.t
}.
End LessonData.

(** The component state (one [useState] cell per field).  [selectedAnswer]
    is [null] ([None]), an option text or a pair id. *)
Module Quiz.
Record t : Type := mk {
  step : nat;
  isAnswered : bool;
  isCorrect : bool;
  selectedAnswer : option jsstring;
  matchingState : gmap nat jsstring;
  blanksState : gmap nat jsstring;
  availableWords : list jsstring
}.
End Quiz.

Definition initialQuiz : Quiz.t := Quiz.mk 0 false false None ∅ ∅ [].

(** [lessonData.activities.length + 1] *)
Definition totalSteps (lessonData : LessonData.t) : nat :=
  (length (LessonData.activities lessonData) + 1)%nat.

(** [step === 0 ? lessonData : lessonData.activities[step - 1]]; an index
    past the end of the array reads [undefined]. *)
Inductive Content : Type :=
| Intro
| AnActivity (activity : Activity.t)
| Undefined.

Definition currentContent (lessonData : LessonData.t) (step : nat) : Content :=
  match step with
  | O => Intro
  | S i =>
      match LessonData.activities lessonData !! i with
      | Some a => AnActivity a
      | None => Undefined
      end
  end.

(** The derived state
    [isActivity && currentContent.type === 'fill-in-blanks'
       ? parseFillInBlanks(currentContent.question.text) : (empty)]. *)
Definition derivedBlanks (lessonData : LessonData.t) (step : nat)
  : result ParseResult :=
  match currentContent lessonData step with
  | Intro => Ok (mkParse [] [])
  | Undefined => TypeError
  | AnActivity a =>
      match Activity.type a with
      | FillInBlanks =>
          Ok (parseFillInBlanks (Some (Media.text (Activity.question a))))
      | _ => Ok (mkParse [] [])
      end
  end.

Definition blank_index (t : Token) : option nat :=
  match t with Blank i _ => Some i | Text _ => None end.

(** [Object.keys(blanksState).length === blankParts.length] *)
Definition allBlanksFilled (blanksState : gmap nat jsstring)
           (parts : list Token) : bool :=
  (size blanksState =? length parts)%nat.

(** The effect that initialises the word blocks, run after a render in
    which [step] or [isAnswered] changed.  [sort_random] is the outcome of
    [.sort(() => Math.random() - 0.5)] on this call; spreading an absent
    [wordPool] throws. *)
Definition initWordBlocks (sort_random : list jsstring → list jsstring)
           (lessonData : LessonData.t) (st : Quiz.t) : result Quiz.t :=
  match currentContent lessonData (Quiz.step st) with
  | Intro => Ok st
  | Undefined => TypeError
  | AnActivity a =>
      match Activity.type a, Quiz.isAnswered st with
      | FillInBlanks, false =>
          match Activity.wordPool a with
          | None => TypeError
          | Some pool =>
              let '(Quiz.mk s ia ic sel ms _ _) := st in
              Ok (Quiz.mk s ia ic sel ms ∅ (sort_random pool))
          end
      | _, _ => Ok st
      end
  end.

(** [blankParts.find(p => blanksState[p.blank] === undefined)?.blank] *)
Definition nextBlankIndex (blanksState : gmap nat jsstring)
           (parts : list Token) : option nat :=
  match List.find (λ p, match blank_index p with
                        | Some i => bool_decide (blanksState !! i = None)
                        | None => true
                        end) parts with
  | Some p => blank_index p
  | None => None
  end.

Definition handleWordBlockTap (lessonData : LessonData.t) (st : Quiz.t)
           (word : jsstring) : result Quiz.t :=
  if Quiz.isAnswered st then Ok st
  else
    match derivedBlanks lessonData (Quiz.step st) with
    | TypeError => TypeError
    | Ok parsed =>
        match nextBlankIndex (Quiz.blanksState st)
                (blankParts (sentenceTemplate parsed)) with
        | Some i =>
            let '(Quiz.mk s ia ic sel ms bs av) := st in
            Ok (Quiz.mk s ia ic sel ms (<[i := word]> bs)
                        (filter (λ w : list N, w ≠ word) av))
        | None => Ok st
        end
    end.

Definition handleBlankClick (sort_random : list jsstring → list jsstring)
           (st : Quiz.t) (blankIndex : nat) : Quiz.t :=
  if Quiz.isAnswered st then st
  else
    match Quiz.blanksState st !! blankIndex with
    | Some wordToReturn =>
        if truthy wordToReturn then
          let '(Quiz.mk s ia ic sel ms bs av) := st in
          Quiz.mk s ia ic sel ms (delete blankIndex bs)
                  (sort_random (av ++ [wordToReturn]))
        else st
    | None => st
    end.

Definition handleAnswerSelect (st : Quiz.t) (answerId : jsstring) : Quiz.t :=
  if Quiz.isAnswered st then st
  else
    let '(Quiz.mk s ia ic _ ms bs av) := st in
    Quiz.mk s ia ic (Some answerId) ms bs av.

(** [opt.text === selectedAnswer] *)
Definition text_is (selectedAnswer : option jsstring) (opt : Opt.t) : bool :=
  match selectedAnswer with
  | Some s => bool_decide (Opt.text opt = s)
  | None => false
  end.

(** [blanksState[part.blank] === part.correct] *)
Definition blank_is_correct (blanksState : gmap nat jsstring) (part : Token)
  : bool :=
  match part with
  | Blank i correct => bool_decide (blanksState !! i = Some correct)
  | Text _ => false
  end.

Definition set_checked (st : Quiz.t) (correct : bool) : Quiz.t :=
  let '(Quiz.mk s _ _ sel ms bs av) := st in
  Quiz.mk s true correct sel ms bs av.

Definition checkAnswer (lessonData : LessonData.t) (st : Quiz.t)
  : result Quiz.t :=
  match Quiz.step st with
  | O => Ok (set_checked st true)
  | S _ =>
      match currentContent lessonData (Quiz.step st),
            derivedBlanks lessonData (Quiz.step st) with
      | AnActivity a, Ok parsed =>
          let correct :=
            match Activity.type a with
            | MultipleChoice =>
                match List.find (text_is (Quiz.selectedAnswer st))
                                (Activity.options a) with
                | Some opt => Opt.isCorrect opt || false
                | None => false
                end
            | FillInBlanks =>
                forallb (blank_is_correct (Quiz.blanksState st))
                        (blankParts (sentenceTemplate parsed))
            | Dialogue | MatchImage | Ordering => true
            | OtherType _ => false
            end in
          Ok (set_checked st correct)
      | _, _ => TypeError
      end
  end.

Definition handleContinue (lessonData : LessonData.t) (st : Quiz.t) : Quiz.t :=
  if (Quiz.step st <? totalSteps lessonData)%nat then
    Quiz.mk (Quiz.step st + 1) false false None ∅ ∅ (Quiz.availableWords st)
  else st.

(** The controls of a fill-in-blanks step as the view renders them.  There
    is one button per element of [availableWords], disabled when
    [isAnswered || allBlanksFilled], whose click calls
    [handleWordBlockTap(word)] with the word at that position. *)
Definition tapWordBlock (lessonData : LessonData.t) (st : Quiz.t) (k : nat)
  : result Quiz.t :=
  match Quiz.availableWords st !! k,
        derivedBlanks lessonData (Quiz.step st) with
  | _, TypeError => TypeError
  | None, Ok _ => Ok st
  | Some word, Ok parsed =>
      if Quiz.isAnswered st
         || allBlanksFilled (Quiz.blanksState st)
                            (blankParts (sentenceTemplate parsed))
      then Ok st
      else handleWordBlockTap lessonData st word
  end.

(** There is one button per blank, disabled when [isAnswered || !word],
    whose click calls [handleBlankClick(part.blank)]. *)
Definition tapBlank (sort_random : list jsstring → list jsstring)
           (st : Quiz.t) (blankIndex : nat) : Quiz.t :=
  match Quiz.blanksState st !! blankIndex with
  | Some word =>
      if Quiz.isAnswered st || negb (truthy word) then st
      else handleBlankClick sort_random st blankIndex
  | None => st
  end.

(** The states of a fill-in-blanks step that the learner can bring about:
    the step is entered with a shuffled pool and empty slots, and then
    word blocks and blanks are tapped. *)
Inductive blanks_reachable (lessonData : LessonData.t)
          (pool : list jsstring) : Quiz.t → Prop :=
| reach_enter st :
    Quiz.availableWords st ≡ₚ pool →
    Quiz.blanksState st = ∅ →
    blanks_reachable lessonData pool st
| reach_tap_word st k st' :
    blanks_reachable lessonData pool st →
    tapWordBlock lessonData st k = Ok st' →
    blanks_reachable lessonData pool st'
| reach_tap_blank st sort_random blankIndex :
    blanks_reachable lessonData pool st →
    (∀ l, sort_random l ≡ₚ l) →
    blanks_reachable lessonData pool (tapBlank sort_random st blankIndex).

(** ** The demonstration lesson ([DUMMY_LESSON_DATA])

    The objects of the demonstration data carry only the properties the
    learner view reads; the others take the empty value here.  Characters
    outside ASCII (the emoji) are written as their UTF-16 code units. *)
Definition dummy_media (text translation audioUrl : string) : Media.t :=
  Media.mk (StrId []) (lit text) (lit translation) None (lit audioUrl).

Definition dummy_pair (id text translation audioUrl : string)
           (image : jsstring) : Pair.t :=
  Pair.mk (Media.mk (StrId (lit id)) (lit text) (lit translation) None
                    (lit audioUrl)) image.

Definition dummy_activity (id : Z) (type : ActivityType) (question : Media.t)
  : Activity.t :=
  Activity.mk id type [] [] question [] [] [] None None Beginner 0.

Definition dummy_multiple_choice : Activity.t :=
  let a := dummy_activity 1 MultipleChoice
             (dummy_media "" "What is the correct way to say 'Good morning'?"
                          "/audio/q_morning.mp3") in
  let '(Activity.mk i ty ti de qu _ it pa wb wp di te) := a in
  Activity.mk i ty ti de qu
    [Opt.mk (dummy_media "Msa L5eer" "Good evening" "/audio/msa_l5eer.mp3") false;
     Opt.mk (dummy_media "Sba7 L5eer" "Good morning" "/audio/sba7_l5eer.mp3") true;
     Opt.mk (dummy_media "B'slama" "Goodbye" "/audio/bslama.mp3") false]
    it pa wb wp di te.

Definition dummy_fill_in_blanks : Activity.t :=
  let a := dummy_activity 2 FillInBlanks
             (dummy_media "Smeety Alex, o {nty}?"
                          "How about you? (Addressing a female)"
                          "/audio/q_blanks.mp3") in
  let '(Activity.mk i ty ti de qu op it pa wb _ di te) := a in
  Activity.mk i ty ti de qu op it pa wb
    (Some [lit "nta"; lit "nty"; lit "Labass"; lit "Smeetk"]) di te.

Definition dummy_dialogue : Activity.t :=
  let a := dummy_activity 3 Dialogue
             (dummy_media "" "Read and listen to the conversation:" "") in
  let '(Activity.mk i ty ti de qu op _ pa wb wp di te) := a in
  Activity.mk i ty ti de qu op
    [dummy_media "Salam!" "Hello!" "/audio/salam.mp3";
     dummy_media "Wa 3alaykum assalam!" "Hello (response)!" "/audio/wa_salam.mp3";
     dummy_media "Keedayr?" "How are you? (Masc)" "/audio/keedayr.mp3"]
    pa wb wp di te.

Definition dummy_match_image : Activity.t :=
  let a := dummy_activity 4 MatchImage
             (dummy_media "" "Match the phrase with the correct emoji:"
                          "/audio/q_match.mp3") in
  let '(Activity.mk i ty ti de qu op it _ wb wp di te) := a in
  Activity.mk i ty ti de qu op it
    [dummy_pair "p1" "Tsb7 3la 5eer" "Good night" "/audio/tsb7.mp3"
                [55356; 57091];
     dummy_pair "p3" "B'slama" "Goodbye" "/audio/bslama.mp3"
                [55357; 56395];
     dummy_pair "p2" "Msa L5eer" "Good evening" "/audio/msa_l5eer.mp3"
                [55356; 57095]]
    wb wp di te.

Definition DUMMY_LESSON_DATA : LessonData.t :=
  LessonData.mk
    (lit "Lesson 1: Greetings and Goodbyes")
    [lit "Use greeting and goodbye expressions.";
     lit "Correctly use Nta/Nty."]
    [lit "Welcome! This lesson covers basic Moroccan Darija greetings and goodbyes.";
     [55357; 56803; 65039] ++
     lit " GramStop: The pronoun 'you' has two versions: Nta (Masculine) and Nty (Feminine)."]
    [dummy_multiple_choice; dummy_fill_in_blanks; dummy_dialogue;
     dummy_match_image].

(** ** Persistence of the lesson (the effect on [lessonState])

    The store is the array kept under the key [darija-lessons]; an absent
    key reads as the empty array.  [JSON.stringify] and [JSON.parse] carry
    the lessons unchanged. *)

(** [arr.findIndex(f)]; [None] stands for [-1]. *)
Fixpoint findIndex {A : Type} (f : A → bool) (l : list A) : option nat :=
  match l with
  | [] => None
  | x :: r => if f x then Some 0%nat else S <$> findIndex f r
  end.

(** The effect that runs after every change of [lessonState]: a lesson
    with at least one activity replaces the stored lesson of the same
    [id], or is pushed when there is none. *)
Definition persist (store : list Lesson.t) (lessonState : Lesson.t)
  : list Lesson.t :=
  if (0 <? length (Lesson.activities lessonState))%nat then
    match findIndex (λ lesson, Z.eqb (Lesson.id lesson) (Lesson.id lessonState))
                    store with
    | Some existingIndex => <[existingIndex := lessonState]> store
    | None => store ++ [lessonState]
    end
  else store.

(** ** Activity draft editor: options, items and pairs *)

(** [arr.filter((_, i) => keep(i))], the callback receiving the index. *)
Fixpoint filter_index {A : Type} (keep : nat → bool) (i : nat) (l : list A)
  : list A :=
  match l with
  | [] => []
  | x :: r => if keep i then x :: filter_index keep (S i) r
              else filter_index keep (S i) r
  end.

(** [arr.filter((_, i) => i !== index)] *)
Definition remove_at {A : Type} (index : nat) (l : list A) : list A :=
  filter_index (λ i, negb (i =? index)%nat) 0 l.

Definition set_options (prev : Activity.t) (options : list Opt.t) : Activity.t :=
  let '(Activity.mk i ty ti de qu _ it pa wb wp di te) := prev in
  Activity.mk i ty ti de qu options it pa wb wp di te.

Definition set_items (prev : Activity.t) (items : list Media.t) : Activity.t :=
  let '(Activity.mk i ty ti de qu op _ pa wb wp di te) := prev in
  Activity.mk i ty ti de qu op items pa wb wp di te.

Definition set_pairs (prev : Activity.t) (pairs : list Pair.t) : Activity.t :=
  let '(Activity.mk i ty ti de qu op it _ wb wp di te) := prev in
  Activity.mk i ty ti de qu op it pairs wb wp di te.

(** "+ Add Option":
    [options: [...prev.options, { ...initialMediaElement, isCorrect: false }]] *)
Definition addOption (t0 : Z) (prev : Activity.t) : Activity.t :=
  set_options prev
    (Activity.options prev ++ [Opt.mk (initialMediaElement t0) false]).

(** The Delete button of option [index]:
    [if (options.length > 2) options: prev.options.filter((_, i) => i !== index)] *)
Definition removeOption (prev : Activity.t) (index : nat) : Activity.t :=
  if (2 <? length (Activity.options prev))%nat then
    set_options prev (remove_at index (Activity.options prev))
  else prev.

(** The radio button of option [index]:
    [options: prev.options.map((o, i) => ({ ...o, isCorrect: i === index }))] *)
Definition setCorrectOption (prev : Activity.t) (index : nat) : Activity.t :=
  set_options prev
    (imap (λ i o, Opt.mk (Opt.media o) (i =? index)%nat)
          (Activity.options prev)).

(** "+ Add Item" *)
Definition addItem (t0 : Z) (prev : Activity.t) : Activity.t :=
  set_items prev (Activity.items prev ++ [initialMediaElement t0]).

(** The Delete button of item [index], guarded by [items.length > 1]. *)
Definition removeItem (prev : Activity.t) (index : nat) : Activity.t :=
  if (1 <? length (Activity.items prev))%nat then
    set_items prev (remove_at index (Activity.items prev))
  else prev.

(** "+ Add Pair" *)
Definition addPair (t0 : Z) (prev : Activity.t) : Activity.t :=
  set_pairs prev
    (Activity.pairs prev ++ [Pair.mk (initialMediaElement t0) []]).

(** "Delete Pair" of pair [index], guarded by [pairs.length > 1]. *)
Definition removePair (prev : Activity.t) (index : nat) : Activity.t :=
  if (1 <? length (Activity.pairs prev))%nat then
    set_pairs prev (remove_at index (Activity.pairs prev))
  else prev.

(** [arr.join(", ")] *)
Fixpoint join (sep : jsstring) (l : list jsstring) : jsstring :=
  match l with
  | [] => []
  | [x] => x
  | x :: r => x ++ sep ++ join sep r
  end.

(** The value shown by the distractor input:
    [tempActivity.wordBlocks.join(", ")]. *)
Definition wordBlocks_value (words : list jsstring) : jsstring :=
  join [COMMA; SPACE] words.

(** ** The editing session of the dashboard

    The reducer state together with the [useState] cells of
    [TeacherDashboard]. *)
Module Editor.
Record t : Type := mk {
  lessonState : Lesson.t;
  tempActivity : Activity.t;
  isEditingActivity : bool;
  validationErrors : list string
}.
End Editor.

(** [resetTempActivity]; [newId] is the number that [generateId()]
    returns on this call. *)
Definition resetTempActivity (t0 newId : Z) (ed : Editor.t) : Editor.t :=
  Editor.mk (Editor.lessonState ed) (with_id (initialActivityData t0) newId)
            false [].

(** [saveActivity]: a draft with errors is not dispatched, the errors are
    shown; a draft without errors is dispatched as [UPDATE_ACTIVITY] or
    [ADD_ACTIVITY] and the draft is reset. *)
Definition saveActivity (t0 now newId : Z) (ed : Editor.t) : Editor.t :=
  let errors := validateActivity (Editor.tempActivity ed) in
  if (0 <? length errors)%nat then
    Editor.mk (Editor.lessonState ed) (Editor.tempActivity ed)
              (Editor.isEditingActivity ed) errors
  else
    let action :=
      if Editor.isEditingActivity ed
      then UPDATE_ACTIVITY (Activity.id (Editor.tempActivity ed))
                           (Editor.tempActivity ed)
      else ADD_ACTIVITY (Editor.tempActivity ed) in
    resetTempActivity t0 newId
      (Editor.mk (lessonReducer t0 now (Editor.lessonState ed) action)
                 (Editor.tempActivity ed) (Editor.isEditingActivity ed) []).

(** [editActivity(activity)] *)
Definition editActivity (t0 now : Z) (ed : Editor.t) (activity : Activity.t)
  : Editor.t :=
  Editor.mk (lessonReducer t0 now (Editor.lessonState ed) (SET_VIEW ViewBuilder))
            activity true (Editor.validationErrors ed).

(** [deleteActivity(id)]; [confirmed] is the answer to [window.confirm]. *)
Definition deleteActivity (t0 now : Z) (confirmed : bool) (ed : Editor.t)
           (id : Z) : Editor.t :=
  if confirmed then
    Editor.mk (lessonReducer t0 now (Editor.lessonState ed) (DELETE_ACTIVITY id))
              (Editor.tempActivity ed) (Editor.isEditingActivity ed)
              (Editor.validationErrors ed)
  else ed.

(** ** The objectives of the lesson setup view

    The inputs and buttons exist for the objectives that are rendered, so
    an event carries the index of an existing objective; the remove button
    is rendered when [lessonState.objectives.length > 1]. *)

(** "+ Add Objective" *)
Definition addObjective (t0 now : Z) (state : Lesson.t) : Lesson.t :=
  lessonReducer t0 now state
    (SET_FIELD (F_objectives (Lesson.objectives state ++ [[]]))).

(** Typing in the input of objective [index]:
    [newObjs[index] = e.target.value]. *)
Definition editObjective (t0 now : Z) (state : Lesson.t) (index : nat)
           (value : jsstring) : Lesson.t :=
  match Lesson.objectives state !! index with
  | Some _ =>
      lessonReducer t0 now state
        (SET_FIELD (F_objectives (<[index := value]> (Lesson.objectives state))))
  | None => state
  end.

(** The remove button of objective [index]. *)
Definition removeObjective (t0 now : Z) (state : Lesson.t) (index : nat)
  : Lesson.t :=
  match Lesson.objectives state !! index with
  | Some _ =>
      if (1 <? length (Lesson.objectives state))%nat then
        lessonReducer t0 now state
          (SET_FIELD (F_objectives (remove_at index (Lesson.objectives state))))
      else state
  | None => state
  end.

(** ** Vocabulary of the properties *)

(** [opt] at position [k] is the first option whose text is [sel]. *)
Definition first_with_text (sel : jsstring) (options : list Opt.t)
           (k : nat) (opt : Opt.t) : Prop :=
  options !! k = Some opt ∧ Opt.text opt = sel ∧
  ∀ j o, (j < k)%nat → options !! j = Some o → Opt.text o ≠ sel.

(** A string is non-blank when something is left of it after [trim]. *)
Definition non_blank (s : jsstring) : Prop := trim s ≠ [].

(** The errors of the two rules common to all types. *)
Definition common_errors (activity : Activity.t) : list string :=
  push_if (negb (truthy (trim (Media.text (Activity.question activity)))))
    E_QUESTION
    (push_if (negb (truthy (trim (Activity.title activity)))) E_TITLE []).

(** A multiple-choice draft with one filled option and none marked. *)
Definition one_option_draft : Activity.t :=
  Activity.mk 7 MultipleChoice (lit "Greetings") []
    (Media.mk (NumId 7) (lit "Pick one") [] None [])
    [Opt.mk (Media.mk (NumId 7) (lit "Salam") [] None []) false;
     Opt.mk (Media.mk (NumId 7) (lit "  ") [] None []) false;
     Opt.mk (Media.mk (NumId 7) [] [] None []) false]
    [] [] (Some []) None Beginner 5.

(** The text holds a blank when the tokenizer of the learner side finds
    one in it. *)
Definition has_blank (text : jsstring) : Prop :=
  blankParts (sentenceTemplate (parseFillInBlanks (Some text))) ≠ [].

(** A fill-in-blanks draft whose sentence opens a brace and never closes
    it. *)
Definition lone_brace_draft : Activity.t :=
  Activity.mk 7 FillInBlanks (lit "Pronouns") []
    (Media.mk (NumId 7) (lit "Smeety Alex, o { nty?") [] None [])
    [] [] [] (Some []) None Beginner 5.

(** A fill-in-blanks draft whose sentence has no brace at all. *)
Definition no_brace_draft : Activity.t :=
  Activity.mk 7 FillInBlanks (lit "Pronouns") []
    (Media.mk (NumId 7) (lit "Smeety Alex, o nty?") [] None [])
    [] [] [] (Some []) None Beginner 5.

(** The actions whose case in the reducer writes [updatedAt]. *)
Definition stamps (action : Action) : bool :=
  match action with
  | SET_FIELD _ | ADD_ACTIVITY _ | UPDATE_ACTIVITY _ _ | DELETE_ACTIVITY _
  | REORDER_ACTIVITIES _ | LOAD_LESSON _ => true
  | SET_VIEW _ | RESET_LESSON | UNKNOWN_ACTION => false
  end.

(** A run is timed by a clock that never goes back: every dispatch
    happens at or after [from]. *)
Fixpoint clock_ordered (from : Z) (run : list (Z * Action)) : Prop :=
  match run with
  | [] => True
  | (now, _) :: run' => (from ≤ now)%Z ∧ clock_ordered now run'
  end.

(** The draft an author obtains by choosing the fill-in-blanks type and
    filling in the title, the sentence and the distractor words. *)
Definition authored_blanks_draft : Activity.t :=
  setWordBlocks
    (setQuestionText
       (setTitle (handleTypeChange 1000 (initialActivityData 1000) FillInBlanks)
                 (lit "Pronouns"))
       (lit "Smeety Alex, o {nty}?"))
    (lit "nta, Labass ,, Smeetk").

(** The tokens that the [forEach] loop pushes for [parts] when the counter
    starts at [k]. *)
Fixpoint classify (k : nat) (parts : list jsstring) : list Token :=
  match parts with
  | [] => []
  | p :: ps =>
      if is_blank_part p then Blank k (blank_word p) :: classify (S k) ps
      else Text p :: classify k ps
  end.

(** The [correct] word of a blank. *)
Definition token_word (t : Token) : option jsstring :=
  match t with Blank _ w => Some w | Text _ => None end.

(** The [correct] words of the blanks of a template, in order. *)
Definition words_of (tpl : list Token) : list jsstring := omap token_word tpl.

(** The number of copies of [w] among the word blocks [l] on offer. *)
Definition occurrences (w : jsstring) (l : list jsstring) : nat :=
  length (filter (λ x : list N, x = w) l).

(** The number of slots of [bs] that hold [w]. *)
Definition held (w : jsstring) (bs : gmap nat (list N)) : nat :=
  length (filter (λ kv : nat * list N, kv.2 = w) (map_to_list bs)).

(** A fill-in-blanks step whose sentence asks for one word twice and
    whose pool holds two copies of it. *)
Definition repeated_word_activity : Activity.t :=
  let '(Activity.mk i ty ti de qu op it pa wb _ di te) :=
    dummy_activity 5 FillInBlanks
      (dummy_media "{nty} o {nty}" "" "") in
  Activity.mk i ty ti de qu op it pa wb (Some [lit "nty"; lit "nty"]) di te.

Definition repeated_word_lesson : LessonData.t :=
  LessonData.mk [] [] [] [repeated_word_activity].

(** Nothing to remove at the head. *)
Definition clean (s : jsstring) : Prop :=
  match s with [] => True | c :: _ => is_white_space c = false end.

(** The actions that leave the identity of the lesson alone. *)
Definition keeps_identity (action : Action) : bool :=
  match action with
  | SET_FIELD (F_id _) | SET_FIELD (F_createdAt _)
  | RESET_LESSON | LOAD_LESSON _ => false
  | _ => true
  end.

(** The messages in the order of the rules. *)
Definition rule_order : list string :=
  [E_TITLE; E_QUESTION; E_OPTIONS; E_CORRECT; E_ITEMS; E_PAIRS; E_BLANKS].

(** The rule of the activity's type. *)
Definition type_rule (a : Activity.t) : Prop :=
  match Activity.type a with
  | MultipleChoice =>
      (2 ≤ length (filter (λ o, non_blank (Opt.text o)) (Activity.options a)))%nat
      ∧ ∃ o, o ∈ Activity.options a ∧ Opt.isCorrect o = true
  | Ordering | Dialogue => (2 ≤ length (Activity.items a))%nat
  | MatchImage => (2 ≤ length (Activity.pairs a))%nat
  | FillInBlanks => LBRACE ∈ Media.text (Activity.question a)
  | OtherType _ => True
  end.

(** The words that the input handler stores for the typed [value]. *)
Definition wordBlocks_of (value : jsstring) : list jsstring :=
  List.filter truthy (map trim (split_on COMMA [] value)).

(** A word as the input stores it: not empty, without surrounding white
    space, without comma. *)
Definition stored_word (w : jsstring) : Prop :=
  w ≠ [] ∧ trim w = w ∧ COMMA ∉ w.

(** Tapping the words of [ws] one after the other. *)
Fixpoint tapWords (lessonData : LessonData.t) (st : Quiz.t)
         (ws : list jsstring) : result Quiz.t :=
  match ws with
  | [] => Ok st
  | w :: r =>
      match handleWordBlockTap lessonData st w with
      | Ok st' => tapWords lessonData st' r
      | TypeError => TypeError
      end
  end.

(** [s] lies on one line: no code unit of it is a line terminator. *)
Definition one_line (s : jsstring) : bool :=
  forallb (λ c, negb (is_line_terminator c)) s.

(** [s] is what follows an opening brace: the text up to the next closing
    brace lies on one line.  Nothing is asked when no closing brace
    follows. *)
Definition closes_on_line (s : jsstring) : bool :=
  match break_at RBRACE s with
  | Some (content, _) => one_line content
  | None => true
  end.

(** No line terminator stands between an opening brace of [s] and the
    next closing brace after it. *)
Fixpoint groups_on_one_line (s : jsstring) : bool :=
  match s with
  | [] => true
  | c :: r =>
      (if c =? LBRACE then closes_on_line r else true) && groups_on_one_line r
  end.

(** Every fragment of the split of [template] that is taken for a blank
    (it starts with an opening and ends with a closing brace) lies on one
    line. *)
Definition blanks_on_one_line (template : jsstring) : bool :=
  forallb (λ p, implb (is_blank_part p) (one_line p)) (template_parts template).

(** What follows on the same line: [s] up to its first line terminator. *)
Fixpoint rest_of_line (s : jsstring) : jsstring :=
  match s with
  | [] => []
  | c :: r => if is_line_terminator c then [] else c :: rest_of_line r
  end.

(** The closing brace that matches an opening brace by nesting: reading
    [s] at nesting depth [d] below the brace in question, a closing brace
    at depth 0 is its match. *)
Fixpoint closes_at_depth (d : nat) (s : jsstring) : bool :=
  match s with
  | [] => false
  | c :: r =>
      if c =? RBRACE then
        match d with O => true | S d' => closes_at_depth d' r end
      else if c =? LBRACE then closes_at_depth (S d) r
      else closes_at_depth d r
  end.

(** [s] is what follows an opening brace: the brace has a matching
    closing brace. *)
Definition has_matching_close (s : jsstring) : bool := closes_at_depth 0 s.

(** A fragment [u], followed by the text [w], at no opening brace of
    which the pattern matches. *)
Definition inert (u w : jsstring) : Prop :=
  ∀ a b, u = a ++ LBRACE :: b → exec_lazy_close (b ++ w) = None.

(** A match of the pattern: braces around a text on one line that holds
    no closing brace. *)
Definition brace_group (m : jsstring) : Prop :=
  ∃ content, m = LBRACE :: content ++ [RBRACE] ∧
             (RBRACE ∉ content) ∧ no_line_terminator content.

(** The shape of the result of a split: fragments without match
    alternate with matches, each fragment being without match before the
    text that follows it. *)
Inductive split_shape : list jsstring → Prop :=
| shape_last u : inert u [] → split_shape [u]
| shape_group u m parts :
    inert u (m ++ concat parts) → brace_group m → split_shape parts →
    split_shape (u :: m :: parts).

(** Every part is a match of the pattern, or a fragment without match
    before the parts that follow it. *)
Fixpoint parts_ok (parts : list jsstring) : Prop :=
  match parts with
  | [] => True
  | u :: rest =>
      (brace_group u ∨ inert u (concat rest)) ∧ parts_ok rest
  end.

(** The source text of the token that a part becomes: the part itself
    for a text, the braces around the trimmed word for a blank. *)
Definition normal_part (p : jsstring) : jsstring :=
  if is_blank_part p then LBRACE :: blank_word p ++ [RBRACE] else p.

(** The token that the loop pushes for the part [p] when the counter is
    at [k]. *)
Definition part_token (k : nat) (p : jsstring) : Token :=
  if is_blank_part p then Blank k (blank_word p) else Text p.

(** * Properties *)

(** ** Quiz step controller *)

Lemma handleContinue_advance lessonData st :
  (Quiz.step st < totalSteps lessonData)%nat →
  handleContinue lessonData st =
  Quiz.mk (Quiz.step st + 1) false false None ∅ ∅ (Quiz.availableWords st).
Proof.
  intros Hlt. unfold handleContinue.
  destruct (Nat.ltb_spec (Quiz.step st) (totalSteps lessonData)); [done | lia].
Qed.

(** C2, as stated, fails: on the intro step of the demonstration lesson,
    before any check ([isAnswered] is false), [handleContinue] is not
    refused; it moves the learner to step 1. *)
Lemma continue_before_check_is_not_refused :
  Quiz.isAnswered initialQuiz = false ∧
  Quiz.step (handleContinue DUMMY_LESSON_DATA initialQuiz) = 1%nat ∧
  handleContinue DUMMY_LESSON_DATA initialQuiz ≠ initialQuiz.
Proof. split; [done|]. split; [done|]. discriminate. Qed.

(** C2, amended: below the terminal step [handleContinue] advances [step]
    by exactly one and resets [isAnswered], [isCorrect], [selectedAnswer]
    and [blanksState], whatever [isAnswered] was (the handler has no guard
    on it; only the footer, which renders the Continue button once the
    step is answered, keeps it from running earlier).  Nothing is said of
    the step [step = totalSteps]: the view does not render there. *)
Theorem handleContinue_amended lessonData st :
  (Quiz.step st < totalSteps lessonData)%nat →
  let st' := handleContinue lessonData st in
  Quiz.step st' = (Quiz.step st + 1)%nat ∧
  Quiz.isAnswered st' = false ∧
  Quiz.isCorrect st' = false ∧
  Quiz.selectedAnswer st' = None ∧
  Quiz.blanksState st' = ∅.
Proof.
  intros Hlt. rewrite handleContinue_advance by done. done.
Qed.

Lemma handleContinue_amended_witness :
  let st' := handleContinue DUMMY_LESSON_DATA initialQuiz in
  Quiz.step st' = 1%nat ∧
  Quiz.isAnswered st' = false ∧
  Quiz.isCorrect st' = false ∧
  Quiz.selectedAnswer st' = None ∧
  Quiz.blanksState st' = ∅.
Proof.
  apply (handleContinue_amended DUMMY_LESSON_DATA initialQuiz).
  vm_compute. lia.
Defined.



(** Four continues from the intro of the demonstration lesson, which has
    four activities, reach the last activity; the fifth gives the step at
    which the derived state throws. *)
Example five_continues :
  let go := handleContinue DUMMY_LESSON_DATA in
  totalSteps DUMMY_LESSON_DATA = 5%nat ∧
  Quiz.step (go (go (go (go initialQuiz)))) = 4%nat ∧
  Quiz.step (go (go (go (go (go initialQuiz))))) = 5%nat ∧
  derivedBlanks DUMMY_LESSON_DATA
    (Quiz.step (go (go (go (go (go initialQuiz)))))) = TypeError.
Proof. done. Qed.

(** [find] returns the first element that satisfies the test. *)
Lemma find_first {A} (f : A → bool) (l : list A) (x : A) :
  List.find f l = Some x ↔
  ∃ k, l !! k = Some x ∧ f x = true ∧
       ∀ j y, (j < k)%nat → l !! j = Some y → f y = false.
Proof.
  induction l as [|a l IH]; simpl.
  - split; [done|]. intros (k & Hk & _). done.
  - destruct (f a) eqn:Ha.
    + split.
      * intros [= <-]. exists 0%nat. repeat split; [done|]. intros; lia.
      * intros (k & Hk & Hx & Hmin). destruct k as [|k]; [simpl in Hk; congruence|].
        specialize (Hmin 0%nat a). simpl in Hmin.
        rewrite Hmin in Ha; [done | lia | done].
    + rewrite IH. split.
      * intros (k & Hk & Hx & Hmin). exists (S k). repeat split; [done..|].
        intros [|j] y Hj Hy; simpl in Hy; [congruence|].
        apply (Hmin j); [lia | done].
      * intros (k & Hk & Hx & Hmin). destruct k as [|k].
        { simpl in Hk. injection Hk as ->. congruence. }
        exists k. repeat split; [done..|].
        intros j y Hj Hy. apply (Hmin (S j)); [lia | done].
Qed.

Lemma find_none {A} (f : A → bool) (l : list A) :
  List.find f l = None ↔ ∀ x, x ∈ l → f x = false.
Proof.
  induction l as [|a l IH]; simpl.
  - split; [|done]. intros _ x Hx. by apply elem_of_nil in Hx.
  - destruct (f a) eqn:Ha.
    + split; [done|]. intros H. rewrite H in Ha; [done | left].
    + rewrite IH. split.
      * intros H x [->|Hx]%elem_of_cons; auto.
      * intros H x Hx. apply H. by right.
Qed.

(** C10: on a multiple-choice step [checkAnswer] completes, sets
    [isAnswered] and leaves the rest of the state alone; [isCorrect] is the
    flag of the first option whose text equals [selectedAnswer] (so of two
    options with the same text the first decides), and it is false when no
    option has that text, in particular when [selectedAnswer] is still
    [null]. *)
Theorem checkAnswer_multiple_choice lessonData st i a :
  Quiz.step st = S i →
  LessonData.activities lessonData !! i = Some a →
  Activity.type a = MultipleChoice →
  ∃ correct,
    checkAnswer lessonData st =
      Ok (Quiz.mk (Quiz.step st) true correct (Quiz.selectedAnswer st)
            (Quiz.matchingState st) (Quiz.blanksState st)
            (Quiz.availableWords st)) ∧
    (correct = true ↔
       ∃ sel k opt, Quiz.selectedAnswer st = Some sel ∧
                    first_with_text sel (Activity.options a) k opt ∧
                    Opt.isCorrect opt = true) ∧
    (Quiz.selectedAnswer st = None → correct = false) ∧
    (∀ sel, Quiz.selectedAnswer st = Some sel →
            (∀ o, o ∈ Activity.options a → Opt.text o ≠ sel) →
            correct = false).
Proof.
  intros Hstep Hact Hty.
  destruct st as [s ia ic sel ms bs av]; simpl in *. subst s.
  unfold checkAnswer, derivedBlanks, currentContent; simpl.
  rewrite Hact, Hty; simpl.
  destruct (List.find (text_is sel) (Activity.options a)) as [opt|] eqn:Hfind.
  - exists (Opt.isCorrect opt). rewrite orb_false_r.
    apply find_first in Hfind as (k & Hk & Hx & Hmin).
    destruct sel as [sel|]; simpl in Hx; [|done].
    apply bool_decide_eq_true in Hx.
    assert (Hfirst : first_with_text sel (Activity.options a) k opt).
    { repeat split; [done..|]. intros j o Hj Ho Heq.
      specialize (Hmin j o Hj Ho). simpl in Hmin.
      by apply bool_decide_eq_false in Hmin. }
    split; [done|]. split; [|split].
    + split; [by eauto 6|].
      intros (sel' & k' & opt' & [= <-] & (Hk' & Ht' & Hmin') & Hc).
      destruct (Nat.lt_trichotomy k k') as [Hlt|[->|Hlt]].
      * by destruct (Hmin' k opt Hlt Hk).
      * congruence.
      * destruct Hfirst as (_ & _ & Hm). by destruct (Hm k' opt' Hlt Hk').
    + done.
    + intros sel' [= <-] Hno. destruct (Hno opt); [|done].
      by eapply list_elem_of_lookup_2.
  - exists false. split; [done|].
    pose proof (proj1 (find_none _ _) Hfind) as Hnone.
    split; [|done]. split; [done|].
    intros (sel' & k & opt & -> & (Hk & Ht & _) & _).
    apply list_elem_of_lookup_2 in Hk. specialize (Hnone _ Hk). simpl in Hnone.
    by apply bool_decide_eq_false in Hnone.
Qed.

Lemma checkAnswer_multiple_choice_witness :
  ∃ correct,
    checkAnswer DUMMY_LESSON_DATA (Quiz.mk 1 false false None ∅ ∅ []) =
      Ok (Quiz.mk 1 true correct None ∅ ∅ []) ∧
    correct = false.
Proof.
  destruct (checkAnswer_multiple_choice DUMMY_LESSON_DATA
              (Quiz.mk 1 false false None ∅ ∅ []) 0 dummy_multiple_choice)
    as (correct & Heq & _ & Hnull & _); [reflexivity..|].
  exists correct. split; [exact Heq | exact (Hnull eq_refl)].
Defined.

(** On a step that is not fill-in-blanks there are no blanks, so
    [allBlanksFilled] holds from the start and the Check button is enabled
    while [selectedAnswer] is still [null]. *)
Example check_enabled_without_selection :
  derivedBlanks DUMMY_LESSON_DATA 1 = Ok (mkParse [] []) ∧
  allBlanksFilled (Quiz.blanksState (handleContinue DUMMY_LESSON_DATA initialQuiz))
                  (blankParts []) = true ∧
  Quiz.selectedAnswer (handleContinue DUMMY_LESSON_DATA initialQuiz) = None.
Proof. done. Qed.

(** Two options with one text: the flag of the first is the verdict. *)
Example duplicate_option_texts :
  let opts := [Opt.mk (dummy_media "Salam" "" "") false;
               Opt.mk (dummy_media "Salam" "" "") true] in
  let '(Activity.mk i ty ti de qu _ it pa wb wp di te) := dummy_multiple_choice in
  let a := Activity.mk i ty ti de qu opts it pa wb wp di te in
  checkAnswer (LessonData.mk [] [] [] [a])
              (Quiz.mk 1 false false (Some (lit "Salam")) ∅ ∅ []) =
  Ok (Quiz.mk 1 true false (Some (lit "Salam")) ∅ ∅ []).
Proof. reflexivity. Qed.

(** ** Activity validator *)

Lemma truthy_non_blank s : truthy (trim s) = true ↔ non_blank s.
Proof. unfold non_blank. destruct (trim s); simpl; split; done. Qed.

Lemma truthy_blank s : truthy (trim s) = false ↔ ¬ non_blank s.
Proof.
  unfold non_blank. destruct (trim s); simpl; split; try done.
  - intros _ H. by apply H.
  - intros H. by destruct H.
Qed.

Lemma includes_elem_of c s : includes c s = true ↔ c ∈ s.
Proof.
  unfold includes. rewrite existsb_exists. split.
  - intros (x & Hx & ->%N.eqb_eq). by apply list_elem_of_In.
  - intros H. exists c. split; [by apply list_elem_of_In | apply N.eqb_refl].
Qed.

Lemma filter_unique {A} (f : A → bool) (l : list A) (k : nat) (x : A) :
  l !! k = Some x → f x = true →
  (∀ j y, j ≠ k → l !! j = Some y → f y = false) →
  List.filter f l = [x].
Proof.
  revert k. induction l as [|a l IH]; intros k Hk Hx Hothers; [done|].
  destruct k as [|k]; simpl in *.
  - injection Hk as ->. rewrite Hx. f_equal.
    assert (Hall : ∀ y, y ∈ l → f y = false).
    { intros y [j Hj]%list_elem_of_lookup_1. by apply (Hothers (S j)). }
    clear -Hall. induction l as [|b l IH]; [done|]. simpl.
    rewrite (Hall b) by left. apply IH. intros y Hy. apply Hall. by right.
  - rewrite (Hothers 0%nat a) by done.
    apply (IH k); [done..|]. intros j y Hj Hy.
    apply (Hothers (S j)); [lia | done].
Qed.

Lemma common_errors_valid a :
  non_blank (Activity.title a) →
  non_blank (Media.text (Activity.question a)) →
  common_errors a = [].
Proof.
  intros Ht%truthy_non_blank Hq%truthy_non_blank.
  unfold common_errors. by rewrite Ht, Hq.
Qed.

(** C4: a multiple-choice activity whose title and question text are
    non-blank, with exactly one option of non-blank text and no option
    marked correct, gets exactly the two errors of the multiple-choice
    rules, in the order of the rules: the failure of the first rule does
    not stop the second from being applied. *)
Theorem validate_multiple_choice_two_errors a k o :
  Activity.type a = MultipleChoice →
  non_blank (Activity.title a) →
  non_blank (Media.text (Activity.question a)) →
  Activity.options a !! k = Some o →
  non_blank (Opt.text o) →
  (∀ j o', j ≠ k → Activity.options a !! j = Some o' →
           ¬ non_blank (Opt.text o')) →
  (∀ o', o' ∈ Activity.options a → Opt.isCorrect o' = false) →
  validateActivity a = [E_OPTIONS; E_CORRECT].
Proof.
  intros Hty Ht Hq Hk Ho Hothers Hnone.
  unfold validateActivity. fold (common_errors a).
  rewrite Hty, (common_errors_valid a Ht Hq).
  rewrite (filter_unique _ _ k o Hk).
  - assert (Hex : existsb Opt.isCorrect (Activity.options a) = false).
    { apply not_true_is_false. rewrite existsb_exists.
      intros (x & Hx%list_elem_of_In & Hc). rewrite (Hnone x Hx) in Hc. done. }
    by rewrite Hex.
  - by apply truthy_non_blank.
  - intros j y Hj Hy. apply truthy_blank. by apply (Hothers j).
Qed.

Lemma validate_multiple_choice_two_errors_witness :
  validateActivity one_option_draft = [E_OPTIONS; E_CORRECT].
Proof.
  apply (validate_multiple_choice_two_errors one_option_draft 0
           (Opt.mk (Media.mk (NumId 7) (lit "Salam") [] None []) false)).
  - reflexivity.
  - vm_compute. discriminate.
  - vm_compute. discriminate.
  - reflexivity.
  - vm_compute. discriminate.
  - intros [|[|[|j]]] o' Hj Ho'; [done| | |done].
    + injection Ho' as <-. intros H. apply H. reflexivity.
    + injection Ho' as <-. intros H. apply H. reflexivity.
  - intros o' Ho'. cbn in Ho'.
    repeat (apply elem_of_cons in Ho' as [->|Ho']; [reflexivity|]).
    by apply elem_of_nil in Ho'.
Defined.

(** C3, as stated, fails: the question text of this draft has an opening
    brace that is never closed, so it holds no blank (the tokenizer yields
    one text token), and yet the validator does not report the
    blanks-required error. *)
Lemma lone_brace_passes_validation :
  ¬ has_blank (Media.text (Activity.question lone_brace_draft)) ∧
  validateActivity lone_brace_draft = [] ∧
  ¬ (E_BLANKS ∈ validateActivity lone_brace_draft ↔
     ¬ has_blank (Media.text (Activity.question lone_brace_draft))).
Proof.
  assert (H1 : ¬ has_blank (Media.text (Activity.question lone_brace_draft))).
  { intros H. apply H. reflexivity. }
  assert (H2 : validateActivity lone_brace_draft = []) by reflexivity.
  split; [done|]. split; [done|].
  intros [_ Hback]. specialize (Hback H1). rewrite H2 in Hback.
  by apply elem_of_nil in Hback.
Qed.

(** C3, amended: for a fill-in-blanks activity the validator reports the
    blanks-required error exactly when the question text has no opening
    brace in it (a text with an opening brace passes, whether or not a
    closing brace completes a blank); and when the title and the question
    text are non-blank and the text has no opening brace, that error is
    the only one. *)
Theorem validate_fill_in_blanks_amended a :
  Activity.type a = FillInBlanks →
  (E_BLANKS ∈ validateActivity a ↔
   LBRACE ∉ Media.text (Activity.question a)) ∧
  (non_blank (Activity.title a) →
   non_blank (Media.text (Activity.question a)) →
   LBRACE ∉ Media.text (Activity.question a) →
   validateActivity a = [E_BLANKS]).
Proof.
  intros Hty. unfold validateActivity. fold (common_errors a). rewrite Hty.
  split.
  - destruct (includes LBRACE (Media.text (Activity.question a))) eqn:Hinc;
      simpl.
    + apply includes_elem_of in Hinc. split; [|done].
      unfold common_errors, push_if.
      destruct (negb _), (negb _); simpl; intros H;
        repeat (apply elem_of_cons in H as [H|H]; [discriminate H|]);
        by apply elem_of_nil in H.
    + split; [|intros _; apply elem_of_app; right; left].
      intros _ Hin. apply includes_elem_of in Hin. congruence.
  - intros Ht Hq Hno. rewrite (common_errors_valid a Ht Hq).
    destruct (includes LBRACE (Media.text (Activity.question a))) eqn:Hinc;
      [|done].
    by apply includes_elem_of in Hinc.
Qed.

Lemma validate_fill_in_blanks_amended_witness :
  (E_BLANKS ∈ validateActivity no_brace_draft ↔
   LBRACE ∉ Media.text (Activity.question no_brace_draft)) ∧
  validateActivity no_brace_draft = [E_BLANKS].
Proof.
  destruct (validate_fill_in_blanks_amended no_brace_draft eq_refl)
    as [Hiff Honly].
  split; [exact Hiff|]. apply Honly.
  - vm_compute. discriminate.
  - vm_compute. discriminate.
  - intros H%includes_elem_of. vm_compute in H. discriminate.
Defined.

(** ** Lesson authoring reducer *)

Lemma updatedAt_set_field state fv :
  Lesson.updatedAt (set_field state fv) =
  match fv with F_updatedAt v => v | _ => Lesson.updatedAt state end.
Proof. by destruct state, fv. Qed.

Lemma stamping_actions_stamp t0 now state action :
  stamps action = true →
  Lesson.updatedAt (lessonReducer t0 now state action) = now.
Proof.
  destruct action; simpl; try done; intros _; by rewrite updatedAt_set_field.
Qed.

Lemma view_change_keeps_updatedAt t0 now state view :
  Lesson.updatedAt (lessonReducer t0 now state (SET_VIEW view)) =
  Lesson.updatedAt state.
Proof. simpl. by rewrite updatedAt_set_field. Qed.

Lemma reset_takes_load_time t0 now state :
  Lesson.updatedAt (lessonReducer t0 now state RESET_LESSON) = t0.
Proof. reflexivity. Qed.

(** Along a run without [RESET_LESSON], [updatedAt] never decreases and
    never runs ahead of the clock. *)
Lemma updatedAt_monotone_without_reset t0 run : ∀ state from,
  (Lesson.updatedAt state ≤ from)%Z →
  clock_ordered from run →
  Forall (λ '(_, action), action ≠ RESET_LESSON) run →
  (Lesson.updatedAt state ≤ Lesson.updatedAt (dispatch_all t0 state run))%Z.
Proof.
  induction run as [|[now action] run IH]; intros state from Hle Hclock Hno;
    [simpl; lia|].
  destruct Hclock as [Hnow Hclock]. apply Forall_cons in Hno as [Hne Hno].
  unfold dispatch_all in *. simpl.
  assert (Hstep :
    (Lesson.updatedAt state ≤ Lesson.updatedAt (lessonReducer t0 now state action)
     ≤ now)%Z).
  { destruct (stamps action) eqn:Hs.
    - rewrite stamping_actions_stamp by done. lia.
    - destruct action; try done; simpl; rewrite ?updatedAt_set_field; lia. }
  etrans; [apply Hstep|]. apply (IH _ now); [lia | done | done].
Qed.

(** C8 fails on the code at [RESET_LESSON]: the page is loaded at time
    1000, the title is edited at 2000 (which stamps 2000), and "Create New
    Lesson" is pressed at 3000.  The reset copies [initialLessonState],
    whose [updatedAt] was computed when the page was loaded, so the new
    state carries 1000: not the current time, and less than before. *)
Theorem reset_lesson_rewinds_updatedAt :
  let s0 := initialLessonState 1000 in
  let s1 := lessonReducer 1000 2000 s0 (SET_FIELD (F_title (lit "Lesson 1"))) in
  let s2 := lessonReducer 1000 3000 s1 RESET_LESSON in
  Lesson.updatedAt s1 = 2000%Z ∧
  Lesson.updatedAt s2 = 1000%Z ∧
  Lesson.updatedAt s2 ≠ 3000%Z ∧
  (Lesson.updatedAt s2 < Lesson.updatedAt s1)%Z ∧
  Lesson.id s2 = 3000%Z.
Proof. repeat split; done. Qed.

(** ** Word blocks on entering a fill-in-blanks step *)

(** With a [wordPool] on the activity the effect installs a permutation of
    it and empties the slots. *)
Lemma initWordBlocks_wordPool sort_random lessonData st i a pool :
  (∀ l, sort_random l ≡ₚ l) →
  Quiz.step st = S i →
  LessonData.activities lessonData !! i = Some a →
  Activity.type a = FillInBlanks →
  Quiz.isAnswered st = false →
  Activity.wordPool a = Some pool →
  ∃ st', initWordBlocks sort_random lessonData st = Ok st' ∧
         Quiz.availableWords st' ≡ₚ pool ∧
         Quiz.blanksState st' = ∅ ∧
         Quiz.step st' = Quiz.step st ∧
         Quiz.isAnswered st' = false.
Proof.
  intros Hperm Hstep Hact Hty Hans Hpool.
  destruct st as [s ia ic sel ms bs av]; simpl in *. subst s ia.
  unfold initWordBlocks, currentContent; simpl.
  rewrite Hact, Hty, Hpool. eexists. split; [done|]. simpl.
  split; [apply Hperm | done].
Qed.

(** Without a [wordPool] the effect throws, whatever [wordBlocks] holds:
    that property is never read. *)
Lemma initWordBlocks_without_wordPool sort_random lessonData st i a :
  Quiz.step st = S i →
  LessonData.activities lessonData !! i = Some a →
  Activity.type a = FillInBlanks →
  Quiz.isAnswered st = false →
  Activity.wordPool a = None →
  initWordBlocks sort_random lessonData st = TypeError.
Proof.
  intros Hstep Hact Hty Hans Hpool.
  destruct st as [s ia ic sel ms bs av]; simpl in *. subst s ia.
  unfold initWordBlocks, currentContent; simpl.
  by rewrite Hact, Hty, Hpool.
Qed.

(** C1 fails on the code: the authored draft passes the validator and is
    stored by [ADD_ACTIVITY] with its distractors in [wordBlocks]; the
    learner view reads [wordPool] instead, which the authored document
    does not have, and the effect that runs on entering the step throws
    for every outcome of the shuffle. *)
Theorem authored_activity_crashes_learner_view :
  let lesson :=
    lessonReducer 1000 2000 (initialLessonState 1000)
                  (ADD_ACTIVITY authored_blanks_draft) in
  let lessonData :=
    LessonData.mk (Lesson.title lesson) (Lesson.objectives lesson)
                  (Lesson.introParts lesson) (Lesson.activities lesson) in
  validateActivity authored_blanks_draft = [] ∧
  (∃ a, Lesson.activities lesson = [a] ∧
        Activity.type a = FillInBlanks ∧
        Activity.wordBlocks a = Some [lit "nta"; lit "Labass"; lit "Smeetk"] ∧
        Activity.wordPool a = None) ∧
  Quiz.step (handleContinue lessonData initialQuiz) = 1%nat ∧
  ∀ sort_random,
    initWordBlocks sort_random lessonData (handleContinue lessonData initialQuiz)
    = TypeError.
Proof.
  split; [reflexivity|]. split; [|split; [reflexivity|]].
  - eexists. split; [reflexivity|]. repeat split; reflexivity.
  - intros sort_random. reflexivity.
Qed.

(** ** Tokenizer: the loop over the parts *)

Lemma foldl_parse_part parts : ∀ tpl k ws,
  ∃ k', foldl parse_part (tpl, k, ws) parts =
        (tpl ++ classify k parts, k', ws ++ words_of (classify k parts)).
Proof.
  induction parts as [|p ps IH]; intros tpl k ws; simpl.
  - exists k. by rewrite !app_nil_r.
  - destruct (is_blank_part p).
    + destruct (IH (tpl ++ [Blank k (blank_word p)]) (S k)
                   (ws ++ [blank_word p])) as [k' ->].
      exists k'. unfold words_of. simpl. by rewrite <- !app_assoc.
    + destruct (IH (tpl ++ [Text p]) k ws) as [k' ->].
      exists k'. unfold words_of. simpl. by rewrite <- !app_assoc.
Qed.

Lemma template_parts_nil : template_parts [] = [].
Proof. reflexivity. Qed.

Lemma parseFillInBlanks_classify t :
  parseFillInBlanks (Some t) =
  mkParse (classify 0 (template_parts t))
          (words_of (classify 0 (template_parts t))).
Proof.
  destruct t as [|c r]; [done|]. unfold parseFillInBlanks.
  destruct (foldl_parse_part (template_parts (c :: r)) [] 0%nat []) as [k' ->].
  done.
Qed.

(** The blanks of a template are numbered in order of appearance. *)
Lemma classify_blank_indices parts : ∀ k,
  map blank_index (blankParts (classify k parts)) =
  map Some (seq k (length (blankParts (classify k parts)))).
Proof.
  induction parts as [|p ps IH]; intros k; simpl; [done|].
  destruct (is_blank_part p); simpl; [|apply IH].
  f_equal. apply IH.
Qed.

Lemma blankParts_all_blank tpl t : t ∈ blankParts tpl → is_blank_token t = true.
Proof.
  unfold blankParts. rewrite list_elem_of_In, filter_In. by intros [_ ?].
Qed.

(** ** Blank-slot assignment *)

Lemma nextBlankIndex_unfilled bs parts i :
  nextBlankIndex bs (blankParts parts) = Some i → bs !! i = None.
Proof.
  unfold nextBlankIndex.
  destruct (List.find _ _) as [p|] eqn:Hfind; [|done].
  apply find_first in Hfind as (k & Hk & Hp & _).
  destruct p as [?|j w]; simpl; [done|]. intros [= ->].
  simpl in Hp. by apply bool_decide_eq_true in Hp.
Qed.

(** On a template whose blanks are numbered [0 .. n-1], the scan returns
    the least unfilled index. *)
Lemma nextBlankIndex_least bs parts n :
  map blank_index parts = map Some (seq 0 n) →
  match nextBlankIndex bs parts with
  | Some i => (i < n)%nat ∧ bs !! i = None ∧
              ∀ j, (j < i)%nat → is_Some (bs !! j)
  | None => ∀ j, (j < n)%nat → is_Some (bs !! j)
  end.
Proof.
  intros Hidx.
  assert (Hat : ∀ j p, parts !! j = Some p → blank_index p = Some j).
  { intros j p Hj.
    assert (H : map blank_index parts !! j = Some (blank_index p))
      by (by rewrite list_lookup_fmap, Hj).
    rewrite Hidx, list_lookup_fmap in H.
    destruct (seq 0 n !! j) as [x|] eqn:Hx; [|done].
    apply lookup_seq in Hx as [-> _]. simpl in H. congruence. }
  assert (Hlen : length parts = n).
  { apply (f_equal length) in Hidx.
    by rewrite !length_map, length_seq in Hidx. }
  unfold nextBlankIndex.
  destruct (List.find _ _) as [p|] eqn:Hfind.
  - apply find_first in Hfind as (k & Hk & Hp & Hmin).
    rewrite (Hat _ _ Hk) in Hp |- *. apply bool_decide_eq_true in Hp.
    split; [apply lookup_lt_Some in Hk; lia|]. split; [done|].
    intros j Hj.
    destruct (lookup_lt_is_Some_2 parts j) as [q Hq];
      [apply lookup_lt_Some in Hk; lia|].
    specialize (Hmin j q Hj Hq). rewrite (Hat _ _ Hq) in Hmin.
    apply bool_decide_eq_false in Hmin.
    by apply not_eq_None_Some.
  - intros j Hj.
    destruct (lookup_lt_is_Some_2 parts j) as [q Hq]; [lia|].
    pose proof (proj1 (find_none _ _) Hfind q
                      (list_elem_of_lookup_2 _ _ _ Hq)) as Hq'.
    simpl in Hq'. rewrite (Hat _ _ Hq) in Hq'.
    apply bool_decide_eq_false in Hq'.
    by apply not_eq_None_Some.
Qed.

Lemma occurrences_removed w l :
  occurrences w (filter (λ x : list N, x ≠ w) l) = 0%nat.
Proof.
  unfold occurrences. induction l as [|x l IH]; [done|].
  rewrite filter_cons. case_decide; [|done].
  rewrite filter_cons. case_decide; [done|]. apply IH.
Qed.

Lemma occurrences_kept w w0 l :
  w ≠ w0 →
  occurrences w (filter (λ x : list N, x ≠ w0) l) = occurrences w l.
Proof.
  intros Hne. unfold occurrences. induction l as [|x l IH]; [done|].
  rewrite !filter_cons. case_decide.
  - rewrite filter_cons. case_decide; simpl; by rewrite IH.
  - case_decide; [congruence|]. apply IH.
Qed.

Lemma occurrences_elem_of w l : w ∈ l → (0 < occurrences w l)%nat.
Proof.
  unfold occurrences. induction l as [|x l IH]; intros Hin.
  - by apply elem_of_nil in Hin.
  - rewrite filter_cons. case_decide; simpl; [lia|].
    apply elem_of_cons in Hin as [->|Hin]; [done | by apply IH].
Qed.

Lemma occurrences_not_elem_of w l : occurrences w l = 0%nat → w ∉ l.
Proof.
  intros H0 Hin%occurrences_elem_of. lia.
Qed.

Lemma occurrences_perm w l l' : l ≡ₚ l' → occurrences w l = occurrences w l'.
Proof. intros H. unfold occurrences. by rewrite H. Qed.

Lemma occurrences_snoc w l x :
  occurrences w (l ++ [x]) =
  (occurrences w l + if decide (x = w) then 1 else 0)%nat.
Proof.
  unfold occurrences. rewrite filter_app, length_app. f_equal.
  rewrite filter_cons. by case_decide.
Qed.

Lemma held_empty w : held w ∅ = 0%nat.
Proof. unfold held. by rewrite map_to_list_empty. Qed.

Lemma held_insert w i x (bs : gmap nat (list N)) :
  bs !! i = None →
  held w (<[i := x]> bs) = ((if decide (x = w) then 1 else 0) + held w bs)%nat.
Proof.
  intros Hi. unfold held. rewrite (map_to_list_insert bs i x Hi).
  rewrite filter_cons. simpl. by case_decide.
Qed.

Lemma held_delete w i x (bs : gmap nat (list N)) :
  bs !! i = Some x →
  held w bs = ((if decide (x = w) then 1 else 0) + held w (delete i bs))%nat.
Proof.
  intros Hi. unfold held. rewrite <- (map_to_list_delete bs i x Hi).
  rewrite filter_cons. simpl. by case_decide.
Qed.

(** What one call of the handler does on an unanswered fill-in-blanks
    step with [n] blanks. *)
Lemma handleWordBlockTap_step lessonData st i a word :
  Quiz.step st = S i →
  LessonData.activities lessonData !! i = Some a →
  Activity.type a = FillInBlanks →
  Quiz.isAnswered st = false →
  let n := length (blankParts (sentenceTemplate
             (parseFillInBlanks (Some (Media.text (Activity.question a)))))) in
  let bs := Quiz.blanksState st in
  (∃ m, (m < n)%nat ∧ bs !! m = None ∧
        (∀ j, (j < m)%nat → is_Some (bs !! j)) ∧
        handleWordBlockTap lessonData st word =
          Ok (Quiz.mk (Quiz.step st) false (Quiz.isCorrect st)
                (Quiz.selectedAnswer st) (Quiz.matchingState st)
                (<[m := word]> bs)
                (filter (λ w : list N, w ≠ word) (Quiz.availableWords st))))
  ∨ ((∀ j, (j < n)%nat → is_Some (bs !! j)) ∧
     handleWordBlockTap lessonData st word = Ok st).
Proof.
  intros Hstep Hact Hty Hans.
  destruct st as [s ia ic sel ms bs av]; simpl in *. subst s ia.
  unfold handleWordBlockTap, derivedBlanks, currentContent; simpl.
  rewrite Hact, Hty.
  set (parsed := parseFillInBlanks (Some (Media.text (Activity.question a)))).
  pose proof (nextBlankIndex_least bs (blankParts (sentenceTemplate parsed))
                (length (blankParts (sentenceTemplate parsed)))) as Hleast.
  destruct (nextBlankIndex bs (blankParts (sentenceTemplate parsed)))
    as [m|] eqn:Hnext.
  - left. exists m.
    destruct Hleast as (Hm & Hnone & Hbelow); [|done].
    subst parsed. rewrite parseFillInBlanks_classify.
    apply classify_blank_indices.
  - right. split; [|done]. apply Hleast.
    subst parsed. rewrite parseFillInBlanks_classify.
    apply classify_blank_indices.
Qed.

(** Copies on offer plus copies in the slots never exceed the copies in
    the pool. *)
Lemma blanks_reachable_budget lessonData pool st :
  blanks_reachable lessonData pool st →
  ∀ w, (occurrences w (Quiz.availableWords st) + held w (Quiz.blanksState st)
        ≤ occurrences w pool)%nat.
Proof.
  induction 1 as [st Hperm Hempty | st k st' Hreach IH Htap
                 | st sort_random blankIndex Hreach IH Hsort]; intros w.
  - rewrite Hempty, held_empty, (occurrences_perm _ _ _ Hperm). lia.
  - specialize (IH w). unfold tapWordBlock in Htap.
    destruct (derivedBlanks lessonData (Quiz.step st)) as [parsed|] eqn:Hd;
      [|by destruct (Quiz.availableWords st !! k)].
    destruct (Quiz.availableWords st !! k) as [word|] eqn:Hk;
      [|by injection Htap as <-].
    destruct (Quiz.isAnswered st || _); [by injection Htap as <-|].
    unfold handleWordBlockTap in Htap. rewrite Hd in Htap.
    destruct (Quiz.isAnswered st); [by injection Htap as <-|].
    destruct (nextBlankIndex _ _) as [m|] eqn:Hnext;
      [|by injection Htap as <-].
    apply nextBlankIndex_unfilled in Hnext.
    destruct st as [s ia ic sel ms bs av]; simpl in *.
    injection Htap as <-. simpl.
    rewrite held_insert by done.
    apply list_elem_of_lookup_2, occurrences_elem_of in Hk.
    case_decide as Hw.
    + subst word. rewrite occurrences_removed. lia.
    + rewrite occurrences_kept by done. lia.
  - specialize (IH w). unfold tapBlank.
    destruct (Quiz.blanksState st !! blankIndex) as [word|] eqn:Hb; [|done].
    destruct (Quiz.isAnswered st || negb (truthy word)); [done|].
    unfold handleBlankClick. destruct (Quiz.isAnswered st); [done|].
    rewrite Hb. destruct (truthy word); [|done].
    destruct st as [s ia ic sel ms bs av]; simpl in *.
    rewrite (occurrences_perm _ _ _ (Hsort _)), occurrences_snoc.
    rewrite (held_delete w blankIndex word bs Hb) in IH. lia.
Qed.

(** C9 fails on the code when the pool repeats a word.  The sentence has
    two blanks and the pool two copies of the word; tapping one copy fills
    blank 0 and removes both copies from [availableWords]
    ([prev.filter(w => w !== word)] removes by value), so the second copy,
    which the claim says remains available, is not on offer any more; and
    when blank 0 is then cleared, [handleBlankClick] gives back the one
    copy that the slot held. *)
Lemma repeated_word_copies_do_not_remain :
  let st0 := Quiz.mk 1 false false None ∅ ∅ [lit "nty"; lit "nty"] in
  ∃ st1,
    tapWordBlock repeated_word_lesson st0 0 = Ok st1 ∧
    Quiz.blanksState st1 = {[ 0%nat := lit "nty" ]} ∧
    Quiz.availableWords st1 = [] ∧
    (lit "nty" ∉ Quiz.availableWords st1) ∧
    Quiz.availableWords (tapBlank (λ l, l) st1 0) = [lit "nty"].
Proof.
  eexists. split; [reflexivity|]. simpl.
  split; [reflexivity|]. split; [reflexivity|]. split; [|reflexivity].
  apply not_elem_of_nil.
Qed.

(** What the handler does: on an unanswered step, tapping a word assigns
    it to the lowest-indexed unfilled blank (and does nothing when every
    blank is filled) and removes every copy of the word from
    [availableWords]; and in every state the learner can reach, a word is
    on offer at most as often as the pool contains it. *)
Lemma handleWordBlockTap_fills_lowest :
  (∀ lessonData st i a word,
     Quiz.step st = S i →
     LessonData.activities lessonData !! i = Some a →
     Activity.type a = FillInBlanks →
     Quiz.isAnswered st = false →
     let n := length (blankParts (sentenceTemplate
                (parseFillInBlanks (Some (Media.text (Activity.question a)))))) in
     ∃ st', handleWordBlockTap lessonData st word = Ok st' ∧
       ((∃ m, (m < n)%nat ∧ Quiz.blanksState st !! m = None ∧
              (∀ j, (j < m)%nat → is_Some (Quiz.blanksState st !! j)) ∧
              Quiz.blanksState st' = <[m := word]> (Quiz.blanksState st) ∧
              size (Quiz.blanksState st') = S (size (Quiz.blanksState st)) ∧
              Quiz.availableWords st' =
                filter (λ w : list N, w ≠ word) (Quiz.availableWords st) ∧
              (word ∉ Quiz.availableWords st') ∧
              Quiz.step st' = Quiz.step st ∧ Quiz.isAnswered st' = false)
        ∨ ((∀ j, (j < n)%nat → is_Some (Quiz.blanksState st !! j)) ∧
           st' = st))) ∧
  (∀ lessonData pool st,
     blanks_reachable lessonData pool st →
     ∀ w, (occurrences w (Quiz.availableWords st) ≤ occurrences w pool)%nat).
Proof.
  split.
  - intros lessonData st i a word Hstep Hact Hty Hans n.
    destruct (handleWordBlockTap_step lessonData st i a word Hstep Hact Hty Hans)
      as [(m & Hm & Hnone & Hbelow & ->) | [Hall ->]].
    + eexists. split; [done|]. left. exists m. simpl.
      repeat split; try done.
      * by apply map_size_insert_None.
      * apply occurrences_not_elem_of, occurrences_removed.
    + eexists. split; [done|]. by right.
  - intros lessonData pool st Hreach w.
    pose proof (blanks_reachable_budget lessonData pool st Hreach w). lia.
Qed.

(** ** Tokenizer: agreement with the description *)

Lemma break_at_app d a b : d ∉ a → break_at d (a ++ d :: b) = Some (a, b).
Proof.
  induction a as [|x a IH]; simpl; intros Hn.
  - by rewrite N.eqb_refl.
  - apply not_elem_of_cons in Hn as [Hx Hn].
    destruct (N.eqb_spec x d) as [->|_]; [done|]. by rewrite IH.
Qed.

Lemma break_at_Some d s a b :
  break_at d s = Some (a, b) ↔ s = a ++ d :: b ∧ d ∉ a.
Proof.
  split; [|intros [-> Hn]; by apply break_at_app].
  revert a. induction s as [|c r IH]; intros a; simpl; [done|].
  destruct (N.eqb_spec c d) as [->|Hne].
  - intros [= <- <-]. split; [done | apply not_elem_of_nil].
  - destruct (break_at d r) as [[a' b']|] eqn:E; [|done].
    intros [= <- <-]. destruct (IH a' eq_refl) as [-> Hn].
    split; [done|]. apply not_elem_of_cons. split; [congruence | done].
Qed.

Lemma break_at_None d s : break_at d s = None ↔ d ∉ s.
Proof.
  induction s as [|c r IH]; simpl.
  - split; [intros _; apply not_elem_of_nil | done].
  - rewrite not_elem_of_cons.
    destruct (N.eqb_spec c d) as [->|Hne]; [split; [done | by intros [? _]]|].
    destruct (break_at d r) as [[a' b']|] eqn:E.
    + split; [done|]. intros [_ H]. by apply IH in H.
    + split; [|done]. intros _. split; [congruence | by apply IH].
Qed.

Lemma tokenize_spec_eq k s :
  tokenize_spec k s =
  match break_at LBRACE s with
  | None => text_token s
  | Some (pre, after) =>
      match break_at RBRACE after with
      | None => text_token s
      | Some (content, rest) =>
          text_token pre ++ Blank k (trim content) :: tokenize_spec (S k) rest
      end
  end.
Proof.
  simp tokenize_spec.
  generalize (inspect (break_at LBRACE s)). intros [[[pre after]|] Hopen];
    cbn -[break_at tokenize_spec]; rewrite Hopen; [|done].
  generalize (inspect (break_at RBRACE after)).
  intros [[[content rest]|] Hclose];
    cbn -[break_at tokenize_spec]; rewrite Hclose; done.
Qed.

(** *** The regular expression and the split loop *)

Lemma braces_distinct : RBRACE ≠ LBRACE.
Proof. done. Qed.

Lemma exec_lazy_close_Some s m rest :
  exec_lazy_close s = Some (m, rest) → s = m ++ RBRACE :: rest ∧ RBRACE ∉ m.
Proof.
  revert m. induction s as [|c r IH]; intros m; simpl; [done|].
  destruct (N.eqb_spec c RBRACE) as [->|Hne].
  - intros [= <- <-]. split; [done | apply not_elem_of_nil].
  - destruct (is_line_terminator c); [done|].
    destruct (exec_lazy_close r) as [[m' rest']|] eqn:E; [|done].
    intros [= <- <-]. destruct (IH m' eq_refl) as [-> Hn].
    split; [done|]. apply not_elem_of_cons. split; [congruence | done].
Qed.

Lemma exec_lazy_close_no_rbrace s : RBRACE ∉ s → exec_lazy_close s = None.
Proof.
  intros Hn. destruct (exec_lazy_close s) as [[m rest]|] eqn:E; [|done].
  apply exec_lazy_close_Some in E as [-> _].
  destruct Hn. apply elem_of_app. right. left.
Qed.

Lemma exec_brace_no_lbrace c r : c ≠ LBRACE → exec_brace (c :: r) = None.
Proof. intros Hne. simpl. by destruct (N.eqb_spec c LBRACE). Qed.

Lemma exec_brace_no_rbrace s : RBRACE ∉ s → exec_brace s = None.
Proof.
  destruct s as [|c r]; [done|]. intros [_ Hr]%not_elem_of_cons. simpl.
  destruct (c =? LBRACE); [|done]. by rewrite exec_lazy_close_no_rbrace.
Qed.

Lemma split_loop_cons pending c r :
  split_loop pending (c :: r) =
  match exec_brace (c :: r) with
  | Some (m, rest) => pending :: m :: split_loop [] rest
  | None => split_loop (pending ++ [c]) r
  end.
Proof.
  simp split_loop.
  generalize (inspect (exec_brace (c :: r))). intros [o E].
  destruct o as [[m rest]|]; cbn -[exec_brace split_loop]; by rewrite E.
Qed.

Lemma split_loop_nil pending : split_loop pending [] = [pending].
Proof. by simp split_loop. Qed.

(** Nothing matches in a text without closing brace. *)
Lemma split_loop_no_rbrace s : ∀ pending,
  RBRACE ∉ s → split_loop pending s = [pending ++ s].
Proof.
  induction s as [|c r IH]; intros pending Hn.
  - by rewrite split_loop_nil, app_nil_r.
  - rewrite split_loop_cons, exec_brace_no_rbrace by done.
    apply not_elem_of_cons in Hn as [_ Hn].
    rewrite IH by done. by rewrite <- app_assoc.
Qed.

(** The scan passes over a text without opening brace. *)
Lemma split_loop_skip pre : ∀ pending s,
  LBRACE ∉ pre → split_loop pending (pre ++ s) = split_loop (pending ++ pre) s.
Proof.
  induction pre as [|c pre IH]; intros pending s Hn; simpl.
  - by rewrite app_nil_r.
  - apply not_elem_of_cons in Hn as [Hc Hn].
    rewrite split_loop_cons, exec_brace_no_lbrace by done.
    rewrite IH by done. by rewrite <- app_assoc.
Qed.

Lemma exec_brace_Some s m rest :
  exec_brace s = Some (m, rest) → s = m ++ rest.
Proof.
  destruct s as [|c r]; simpl; [done|].
  destruct (N.eqb_spec c LBRACE) as [->|]; [|done].
  destruct (exec_lazy_close r) as [[content rest']|] eqn:E; [|done].
  intros [= <- <-]. apply exec_lazy_close_Some in E as [-> _].
  simpl. by rewrite <- app_assoc.
Qed.

Lemma split_loop_concat s : ∀ pending,
  concat (split_loop pending s) = pending ++ s.
Proof.
  induction (Nat.lt_wf_0_projected length s) as [s _ IH]. intros pending.
  destruct s as [|c r]; [by rewrite split_loop_nil; simpl; rewrite app_nil_r|].
  rewrite split_loop_cons.
  destruct (exec_brace (c :: r)) as [[m rest]|] eqn:E.
  - pose proof (exec_brace_length _ _ _ E) as Hlen.
    apply exec_brace_Some in E. simpl. rewrite (IH rest Hlen). simpl.
    by rewrite E.
  - rewrite IH by (simpl; lia). by rewrite <- app_assoc.
Qed.

Lemma concat_filter_nonempty (l : list (list N)) :
  concat (filter (λ p : list N, (0 < length p)%nat) l) = concat l.
Proof.
  induction l as [|p l IH]; [done|].
  rewrite filter_cons. case_decide as Hp; simpl; [by rewrite IH|].
  destruct p; [by rewrite IH | simpl in Hp; lia].
Qed.

Lemma concat_template_parts template :
  concat (template_parts template) = template.
Proof.
  unfold template_parts, split_braces.
  by rewrite concat_filter_nonempty, split_loop_concat.
Qed.

(** *** Classification of the parts *)

Lemma endsWith_snoc c s x : endsWith c (s ++ [x]) = (x =? c).
Proof. unfold endsWith. by rewrite last_snoc. Qed.

Lemma endsWith_not_elem c s : c ∉ s → endsWith c s = false.
Proof.
  unfold endsWith. destruct (last s) as [x|] eqn:Hl; [|done].
  intros Hn. apply last_Some in Hl as [s' ->].
  destruct (N.eqb_spec x c) as [->|]; [|done].
  destruct Hn. apply elem_of_app. right. left.
Qed.

Lemma endsWith_app_not_elem c s1 x s2 :
  c ∉ x :: s2 → endsWith c (s1 ++ x :: s2) = false.
Proof.
  intros Hn. unfold endsWith.
  rewrite last_app. destruct (last (x :: s2)) as [y|] eqn:Hl.
  - apply last_Some in Hl as [s' Hs'].
    destruct (N.eqb_spec y c) as [->|]; [|done].
    destruct Hn. rewrite Hs'. apply elem_of_app. right. left.
  - by apply last_None in Hl.
Qed.

Lemma startsWith_not_elem c s : c ∉ s → startsWith c s = false.
Proof.
  destruct s as [|x s]; [done|]. intros [Hx _]%not_elem_of_cons. simpl.
  destruct (N.eqb_spec x c); congruence.
Qed.

Lemma is_blank_part_group content :
  is_blank_part (LBRACE :: content ++ [RBRACE]) = true.
Proof.
  unfold is_blank_part. by rewrite app_comm_cons, endsWith_snoc.
Qed.

Lemma blank_word_group content :
  blank_word (LBRACE :: content ++ [RBRACE]) = trim content.
Proof.
  unfold blank_word, strip_ends, substring. f_equal.
  set (n := length content).
  assert (Hlen : length (LBRACE :: content ++ [RBRACE]) = S (S n))
    by (simpl; rewrite length_app; simpl; lia).
  rewrite Hlen.
  replace (Z.max 0 (Z.min 1 (Z.of_nat (S (S n))))) with 1%Z by lia.
  replace (Z.max 0 (Z.min (Z.of_nat (S (S n)) - 1) (Z.of_nat (S (S n)))))
    with (Z.of_nat (S n)) by lia.
  replace (Z.to_nat (Z.min 1 (Z.of_nat (S n)))) with 1%nat by lia.
  replace (Z.to_nat (Z.max 1 (Z.of_nat (S n)) - Z.min 1 (Z.of_nat (S n))))
    with n by lia.
  subst n.
  change (drop 1 (LBRACE :: content ++ [RBRACE])) with (content ++ [RBRACE]).
  apply take_app_length.
Qed.

Lemma classify_text_token k s ps :
  is_blank_part s = false →
  classify k (filter (λ p : list N, (0 < length p)%nat) (s :: ps)) =
  text_token s ++ classify k (filter (λ p : list N, (0 < length p)%nat) ps).
Proof.
  intros Hb. rewrite filter_cons. destruct s as [|c s]; simpl; [done|].
  by rewrite Hb.
Qed.

Lemma classify_group k content ps :
  classify k (filter (λ p : list N, (0 < length p)%nat)
                     ((LBRACE :: content ++ [RBRACE]) :: ps)) =
  Blank k (trim content) ::
  classify (S k) (filter (λ p : list N, (0 < length p)%nat) ps).
Proof.
  rewrite filter_cons. simpl.
  by rewrite is_blank_part_group, blank_word_group.
Qed.

(** *** Groups on one line *)

Lemma one_line_spec s : one_line s = true ↔ no_line_terminator s.
Proof.
  unfold one_line, no_line_terminator.
  induction s as [|c r IH]; simpl.
  - split; [constructor | done].
  - rewrite andb_true_iff, negb_true_iff, IH, Forall_cons. done.
Qed.

(** When the text up to the next closing brace lies on one line, the lazy
    star reaches that brace. *)
Lemma exec_lazy_close_on_line s : ∀ content rest,
  break_at RBRACE s = Some (content, rest) →
  one_line content = true →
  exec_lazy_close s = Some (content, rest).
Proof.
  induction s as [|c r IH]; intros content rest; simpl; [done|].
  destruct (c =? RBRACE); [done|].
  destruct (break_at RBRACE r) as [[a b]|] eqn:E; [|done].
  intros [= <- <-]. simpl. intros [Hc Hr]%andb_true_iff.
  apply negb_true_iff in Hc. by rewrite Hc, (IH a b eq_refl Hr).
Qed.

Lemma groups_on_one_line_app a b :
  groups_on_one_line (a ++ b) = true → groups_on_one_line b = true.
Proof.
  induction a as [|c a IH]; simpl; [done|].
  intros [_ H]%andb_true_iff. by apply IH.
Qed.

Lemma groups_on_one_line_open pre after :
  groups_on_one_line (pre ++ LBRACE :: after) = true →
  closes_on_line after = true ∧ groups_on_one_line after = true.
Proof.
  intros H%groups_on_one_line_app. simpl in H.
  by apply andb_true_iff in H.
Qed.

(** The test reads as the words say. *)
Lemma groups_on_one_line_spec s :
  groups_on_one_line s = true ↔
  ∀ pre content rest,
    s = pre ++ LBRACE :: content ++ RBRACE :: rest →
    RBRACE ∉ content → no_line_terminator content.
Proof.
  split.
  - intros H pre content rest -> Hcontent.
    apply groups_on_one_line_open in H as [H _].
    unfold closes_on_line in H. rewrite break_at_app in H by done.
    by apply one_line_spec.
  - induction s as [|c r IH]; intros H; simpl; [done|].
    apply andb_true_iff. split.
    + destruct (N.eqb_spec c LBRACE) as [->|_]; [|done].
      unfold closes_on_line.
      destruct (break_at RBRACE r) as [[content rest]|] eqn:E; [|done].
      apply break_at_Some in E as [-> Hcontent].
      apply one_line_spec. by apply (H [] content rest).
    + apply IH. intros pre content rest -> Hcontent.
      by apply (H (c :: pre) content rest).
Qed.

Lemma no_line_terminator_groups s :
  no_line_terminator s → groups_on_one_line s = true.
Proof.
  intros Hs. apply groups_on_one_line_spec.
  intros pre content rest -> _.
  apply Forall_app in Hs as [_ Hs]. apply Forall_cons in Hs as [_ Hs].
  by apply Forall_app in Hs as [Hs _].
Qed.

(** *** The tokenizer and the description agree *)

Lemma classify_tokenize_spec s : ∀ k,
  groups_on_one_line s = true →
  classify k (template_parts s) = tokenize_spec k s.
Proof.
  induction (Nat.lt_wf_0_projected length s) as [s _ IH]. intros k Hg.
  rewrite tokenize_spec_eq. unfold template_parts, split_braces.
  destruct (break_at LBRACE s) as [[pre after]|] eqn:Hopen.
  - apply break_at_Some in Hopen as [-> Hpre].
    rewrite split_loop_skip by done. simpl.
    apply groups_on_one_line_open in Hg as [Hline Hg].
    destruct (break_at RBRACE after) as [[content rest]|] eqn:Hclose.
    + unfold closes_on_line in Hline. rewrite Hclose in Hline.
      pose proof (exec_lazy_close_on_line _ _ _ Hclose Hline) as Hex.
      apply break_at_Some in Hclose as [-> Hcontent].
      rewrite split_loop_cons. simpl. rewrite Hex.
      rewrite classify_text_token
        by (unfold is_blank_part; by rewrite startsWith_not_elem).
      rewrite classify_group. do 2 f_equal.
      apply IH.
      * rewrite !length_app. simpl. rewrite length_app. simpl. lia.
      * apply (groups_on_one_line_app (content ++ [RBRACE])).
        by rewrite <- app_assoc.
    + apply break_at_None in Hclose.
      rewrite split_loop_no_rbrace
        by (apply not_elem_of_cons; split; [apply braces_distinct | done]).
      rewrite classify_text_token.
      * simpl. by rewrite app_nil_r.
      * unfold is_blank_part. rewrite endsWith_app_not_elem; [by rewrite andb_false_r|].
        apply not_elem_of_cons; split; [apply braces_distinct | done].
  - apply break_at_None in Hopen.
    rewrite <- (app_nil_r s) at 1. rewrite split_loop_skip by done.
    rewrite split_loop_nil. simpl.
    rewrite classify_text_token
      by (unfold is_blank_part; by rewrite startsWith_not_elem).
    simpl. by rewrite app_nil_r.
Qed.

(** *** Facts about [trim] *)

Lemma trim_start_clean s : clean (trim_start s).
Proof.
  induction s as [|c r IH]; simpl; [done|].
  destruct (is_white_space c) eqn:Hc; [done | by simpl].
Qed.

Lemma trim_start_fixed s : clean s → trim_start s = s.
Proof. destruct s as [|c r]; simpl; [done|]. by intros ->. Qed.

Lemma trim_start_suffix s : ∃ ws, s = ws ++ trim_start s.
Proof.
  induction s as [|c r [ws IH]]; simpl; [by exists []|].
  destruct (is_white_space c); [|by exists []].
  exists (c :: ws). simpl. by f_equal.
Qed.

(** [trim s] is a segment of [s]. *)
Lemma trim_segment s : ∃ a b, s = a ++ trim s ++ b.
Proof.
  unfold trim. destruct (trim_start_suffix s) as [a Ha].
  destruct (trim_start_suffix (rev (trim_start s))) as [b Hb].
  exists a, (rev b). rewrite <- rev_app_distr, <- Hb, rev_involutive. done.
Qed.

Lemma trim_idemp s : trim (trim s) = trim s.
Proof.
  unfold trim at 2. set (u := trim_start s).
  set (v := trim_start (rev u)).
  assert (Hu : clean u) by apply trim_start_clean.
  assert (Hv : clean v) by apply trim_start_clean.
  destruct (trim_start_suffix (rev u)) as [ws Hws]. fold v in Hws.
  assert (Hu' : u = rev v ++ rev ws).
  { by rewrite <- rev_app_distr, <- Hws, rev_involutive. }
  assert (Hrv : clean (rev v)).
  { destruct (rev v) as [|x xs] eqn:E; [done|]. rewrite Hu' in Hu. done. }
  unfold trim. rewrite (trim_start_fixed _ Hrv), rev_involutive.
  by rewrite (trim_start_fixed _ Hv).
Qed.

Lemma trim_not_elem c s : c ∉ s → c ∉ trim s.
Proof.
  destruct (trim_segment s) as (a & b & Hs). rewrite Hs at 1.
  rewrite !not_elem_of_app. tauto.
Qed.

Lemma trim_Forall (P : char → Prop) s : Forall P s → Forall P (trim s).
Proof.
  destruct (trim_segment s) as (a & b & Hs). rewrite Hs at 1.
  rewrite !Forall_app. tauto.
Qed.

(** *** Re-tokenizing the reconstruction *)

Lemma reconstruct_app a b : reconstruct (a ++ b) = reconstruct a ++ reconstruct b.
Proof. unfold reconstruct. by rewrite map_app, concat_app. Qed.

Lemma reconstruct_text_token s : reconstruct (text_token s) = s.
Proof. destruct s; [done|]. unfold reconstruct. simpl. by rewrite app_nil_r. Qed.

Lemma reconstruct_group pre k w T :
  reconstruct (text_token pre ++ Blank k w :: T) =
  pre ++ LBRACE :: w ++ RBRACE :: reconstruct T.
Proof.
  rewrite reconstruct_app, reconstruct_text_token. f_equal.
  unfold reconstruct. simpl. by rewrite <- app_assoc.
Qed.

(** The description is idempotent on every string. *)
Lemma tokenize_spec_idemp s : ∀ k,
  tokenize_spec k (reconstruct (tokenize_spec k s)) = tokenize_spec k s.
Proof.
  induction (Nat.lt_wf_0_projected length s) as [s _ IH]. intros k.
  rewrite (tokenize_spec_eq k s).
  destruct (break_at LBRACE s) as [[pre after]|] eqn:Hopen.
  - destruct (break_at RBRACE after) as [[content rest]|] eqn:Hclose.
    + apply break_at_Some in Hopen as [-> Hpre].
      apply break_at_Some in Hclose as [-> Hcontent].
      rewrite reconstruct_group, tokenize_spec_eq.
      rewrite break_at_app by done.
      rewrite break_at_app by by apply trim_not_elem.
      rewrite trim_idemp, IH; [done|].
      rewrite !length_app. simpl. rewrite length_app. simpl. lia.
    + rewrite reconstruct_text_token, tokenize_spec_eq. by rewrite Hopen, Hclose.
  - rewrite reconstruct_text_token, tokenize_spec_eq. by rewrite Hopen.
Qed.

(** *** An opening brace that is never closed *)

Lemma app_eq_close (a b content rest : jsstring) :
  a ++ b = content ++ RBRACE :: rest → RBRACE ∉ content → RBRACE ∉ b →
  ∃ a', a = content ++ RBRACE :: a' ∧ rest = a' ++ b.
Proof.
  revert a. induction content as [|x content IH]; intros a Heq Hc Hb.
  - destruct a as [|y a]; simpl in *.
    + subst b. destruct Hb. left.
    + injection Heq as -> Heq. by exists a.
  - apply not_elem_of_cons in Hc as [Hx Hc].
    destruct a as [|y a]; simpl in *.
    + subst b. destruct Hb. right. apply elem_of_app. right. left.
    + injection Heq as -> Heq. destruct (IH a Heq Hc Hb) as (a' & -> & ->).
      by exists a'.
Qed.

(** Whatever was matched before it, the last part of the split holds the
    unclosed brace and all that follows. *)
Lemma split_loop_unterminated post pre : ∀ pending,
  RBRACE ∉ post →
  ∃ parts v u,
    pending ++ pre = v ++ u ∧
    split_loop pending (pre ++ LBRACE :: post) =
    parts ++ [u ++ LBRACE :: post].
Proof.
  induction (Nat.lt_wf_0_projected length pre) as [pre _ IH].
  intros pending Hpost.
  assert (Htail : RBRACE ∉ LBRACE :: post)
    by (apply not_elem_of_cons; split; [apply braces_distinct | done]).
  destruct pre as [|c pre]; simpl.
  - exists [], [], pending. split; [by rewrite app_nil_r|].
    by rewrite split_loop_no_rbrace.
  - rewrite split_loop_cons.
    destruct (exec_brace (c :: pre ++ LBRACE :: post)) as [[m rest]|] eqn:E.
    + simpl in E. destruct (c =? LBRACE); [|done].
      destruct (exec_lazy_close (pre ++ LBRACE :: post))
        as [[content rest']|] eqn:E'; [|done].
      injection E as <- <-.
      apply exec_lazy_close_Some in E' as [Heq Hcontent].
      destruct (app_eq_close _ _ _ _ Heq Hcontent Htail) as (pre' & -> & ->).
      destruct (IH pre') with (pending := @nil N) as (parts & v & u & Hvu & ->);
        [simpl; rewrite length_app; simpl; lia | done |].
      exists (pending :: (LBRACE :: content ++ [RBRACE]) :: parts),
             (pending ++ c :: content ++ [RBRACE] ++ v), u.
      split; [|done]. simpl in Hvu. rewrite Hvu.
      rewrite <- !app_assoc. simpl. by rewrite <- !app_assoc.
    + destruct (IH pre) with (pending := pending ++ [c])
        as (parts & v & u & Hvu & ->); [simpl; lia | done |].
      exists parts, v, u. split; [|done]. rewrite <- Hvu.
      by rewrite <- app_assoc.
Qed.

Lemma classify_app a : ∀ k b,
  ∃ k', classify k (a ++ b) = classify k a ++ classify k' b.
Proof.
  induction a as [|p a IH]; intros k b; simpl; [by exists k|].
  destruct (is_blank_part p).
  - destruct (IH (S k) b) as [k' ->]. by exists k'.
  - destruct (IH k b) as [k' ->]. by exists k'.
Qed.

(** *** The shape of a split *)

Lemma exec_lazy_close_one_line s : ∀ m rest,
  exec_lazy_close s = Some (m, rest) → no_line_terminator m.
Proof.
  induction s as [|c r IH]; intros m rest; simpl; [done|].
  destruct (c =? RBRACE); [intros [= <- <-]; constructor|].
  destruct (is_line_terminator c) eqn:Hc; [done|].
  destruct (exec_lazy_close r) as [[m' rest']|] eqn:E; [|done].
  intros [= <- <-]. constructor; [done | by apply (IH m' rest')].
Qed.

Lemma exec_brace_group s m rest :
  exec_brace s = Some (m, rest) → brace_group m.
Proof.
  destruct s as [|c r]; simpl; [done|].
  destruct (c =? LBRACE); [|done].
  destruct (exec_lazy_close r) as [[content rest']|] eqn:E; [|done].
  intros [= <- <-]. exists content. split; [done|].
  split; [by apply exec_lazy_close_Some in E as [_ ?]
         | by apply exec_lazy_close_one_line in E].
Qed.

Lemma exec_lazy_close_content content w :
  RBRACE ∉ content → no_line_terminator content →
  exec_lazy_close (content ++ RBRACE :: w) = Some (content, w).
Proof.
  intros Hn Hl. apply exec_lazy_close_on_line.
  - by apply break_at_app.
  - by apply one_line_spec.
Qed.

Lemma exec_brace_of_group m w :
  brace_group m → exec_brace (m ++ w) = Some (m, w).
Proof.
  intros (content & -> & Hn & Hl). simpl. rewrite <- app_assoc. simpl.
  by rewrite exec_lazy_close_content.
Qed.

(** On one line the lazy star reaches a closing brace when there is one. *)
Lemma exec_lazy_close_reaches s w :
  no_line_terminator s → is_Some (exec_lazy_close (s ++ RBRACE :: w)).
Proof.
  induction 1 as [|c r Hc Hr IH]; simpl; [done|].
  destruct (c =? RBRACE); [done|]. rewrite Hc.
  destruct IH as [[m rest] ->]. done.
Qed.

(** A scan that fails although a match of the pattern lies ahead fails
    before it reaches that match, and so whatever lies ahead. *)
Lemma exec_lazy_close_fails_before b m w :
  brace_group m → exec_lazy_close (b ++ m ++ w) = None →
  ∀ y, exec_lazy_close (b ++ y) = None.
Proof.
  intros (content & -> & Hn & Hl). induction b as [|c b IH]; simpl.
  - rewrite <- app_assoc. simpl. by rewrite exec_lazy_close_content.
  - destruct (c =? RBRACE); [done|].
    destruct (is_line_terminator c); [done|].
    destruct (exec_lazy_close (b ++ _)) eqn:E; [by destruct p|].
    intros _ y. by rewrite IH.
Qed.

Lemma inert_nil w : inert [] w.
Proof. intros a b H. by destruct a. Qed.

Lemma inert_tail c u w : inert (c :: u) w → inert u w.
Proof. intros H a b ->. by apply (H (c :: a) b). Qed.

Lemma inert_before_group u m w y :
  brace_group m → inert u (m ++ w) → inert u y.
Proof.
  intros Hm H a b ->. by apply (exec_lazy_close_fails_before b m w), (H a b).
Qed.

Lemma inert_snoc pending c r :
  inert pending (c :: r) → exec_brace (c :: r) = None →
  inert (pending ++ [c]) r.
Proof.
  intros Hp Hex a b Heq.
  destruct b as [|x b _] using rev_ind.
  - apply app_inj_tail in Heq as [-> ->]. simpl in *.
    by destruct (exec_lazy_close r) as [[? ?]|].
  - rewrite app_comm_cons, app_assoc in Heq.
    apply app_inj_tail in Heq as [-> ->].
    rewrite <- app_assoc. simpl. by apply (Hp a b).
Qed.

(** The scan passes over a fragment without match. *)
Lemma split_loop_inert u : ∀ pending w,
  inert u w → split_loop pending (u ++ w) = split_loop (pending ++ u) w.
Proof.
  induction u as [|c u IH]; intros pending w Hu; simpl.
  - by rewrite app_nil_r.
  - rewrite split_loop_cons.
    assert (Hex : exec_brace (c :: u ++ w) = None).
    { simpl. destruct (c =? LBRACE) eqn:Hc; [|done].
      apply N.eqb_eq in Hc as ->. by rewrite (Hu [] u). }
    rewrite Hex, IH by by apply inert_tail in Hu.
    by rewrite <- app_assoc.
Qed.

(** The result of a split has the shape of a split. *)
Lemma split_loop_shape s : ∀ pending,
  inert pending s → split_shape (split_loop pending s).
Proof.
  induction (Nat.lt_wf_0_projected length s) as [s _ IH]. intros pending Hp.
  destruct s as [|c r].
  - rewrite split_loop_nil. by constructor.
  - rewrite split_loop_cons.
    destruct (exec_brace (c :: r)) as [[m rest]|] eqn:E.
    + pose proof (exec_brace_length _ _ _ E) as Hlen.
      pose proof (exec_brace_group _ _ _ E) as Hm.
      apply exec_brace_Some in E.
      constructor; [|done|].
      * rewrite split_loop_concat. simpl. by rewrite <- E.
      * apply IH; [done | apply inert_nil].
    + apply IH; [simpl; lia | by apply inert_snoc].
Qed.

(** Splitting the concatenation of parts of that shape gives the parts
    back. *)
Lemma split_of_shape parts :
  split_shape parts →
  ∀ pending,
    split_loop pending (concat parts) =
    match parts with
    | [] => [pending]
    | u :: rest => (pending ++ u) :: rest
    end.
Proof.
  induction 1 as [u Hu | u m parts Hu Hm Hparts IH]; intros pending; simpl.
  - rewrite split_loop_inert by done. by rewrite split_loop_nil.
  - rewrite split_loop_inert by done.
    destruct Hm as (content & -> & Hn & Hl). simpl.
    rewrite split_loop_cons. simpl. rewrite <- app_assoc. simpl.
    rewrite exec_lazy_close_content by done.
    rewrite (IH []). by destruct Hparts.
Qed.

Lemma split_shape_parts_ok parts : split_shape parts → parts_ok parts.
Proof.
  induction 1 as [u Hu | u m parts Hu Hm Hparts IH]; simpl.
  - split; [by right | done].
  - split; [by right|]. split; [by left | done].
Qed.

Lemma parts_ok_filter parts :
  parts_ok parts →
  parts_ok (filter (λ p : list N, (0 < length p)%nat) parts).
Proof.
  induction parts as [|u parts IH]; simpl; [done|].
  intros [Hu Hparts]. rewrite filter_cons.
  case_decide; [|by apply IH]. simpl.
  rewrite concat_filter_nonempty. split; [done | by apply IH].
Qed.

Lemma parts_ok_lookup ps1 u ps2 :
  parts_ok (ps1 ++ u :: ps2) → brace_group u ∨ inert u (concat ps2).
Proof.
  induction ps1 as [|p ps1 IH]; simpl; [by intros [? _]|].
  intros [_ H]. by apply IH.
Qed.

Lemma template_parts_ok t : parts_ok (template_parts t).
Proof.
  apply parts_ok_filter, split_shape_parts_ok, split_loop_shape, inert_nil.
Qed.

(** The part that holds a given code unit of a concatenation. *)
Lemma concat_position (c : N) (parts : list (list N)) : ∀ x y,
  concat parts = x ++ c :: y →
  ∃ ps1 ps2 a b,
    parts = ps1 ++ (a ++ c :: b) :: ps2 ∧
    x = concat ps1 ++ a ∧ y = b ++ concat ps2.
Proof.
  induction parts as [|p parts IH]; intros x y; simpl.
  - by destruct x.
  - intros Heq. apply app_eq_app in Heq as [l [[-> Hy]|[-> Hc]]].
    + destruct l as [|c' l]; simpl in Hy.
      * destruct (IH [] y) as (ps1 & ps2 & a & b & -> & Hx & ->); [done|].
        exists ((x ++ []) :: ps1), ps2, a, b.
        split; [done|]. split; [|done].
        simpl. by rewrite <- app_assoc, <- Hx, 2!app_nil_r.
      * injection Hy as <- ->. by exists [], parts, x, l.
    + destruct (IH l y Hc) as (ps1 & ps2 & a & b & -> & -> & ->).
      exists (p :: ps1), ps2, a, b. simpl. by rewrite app_assoc.
Qed.

(** *** The source text of the tokens *)

Lemma reconstruct_classify parts : ∀ k,
  reconstruct (classify k parts) = concat (map normal_part parts).
Proof.
  unfold reconstruct.
  induction parts as [|p parts IH]; intros k; simpl; [done|].
  unfold normal_part at 1.
  destruct (is_blank_part p); simpl; by rewrite IH.
Qed.

Lemma is_blank_part_normal p : is_blank_part (normal_part p) = is_blank_part p.
Proof.
  unfold normal_part. destruct (is_blank_part p) eqn:Hp; [|done].
  apply is_blank_part_group.
Qed.

Lemma blank_word_normal p :
  is_blank_part p = true → blank_word (normal_part p) = blank_word p.
Proof.
  intros Hp. unfold normal_part. rewrite Hp, blank_word_group.
  apply trim_idemp.
Qed.

Lemma classify_normal parts : ∀ k,
  classify k (map normal_part parts) = classify k parts.
Proof.
  induction parts as [|p parts IH]; intros k; simpl; [done|].
  rewrite is_blank_part_normal.
  destruct (is_blank_part p) eqn:Hp; rewrite IH; [|by unfold normal_part; rewrite Hp].
  by rewrite blank_word_normal.
Qed.

Lemma filter_normal parts :
  filter (λ p : list N, (0 < length p)%nat) (map normal_part parts) =
  map normal_part (filter (λ p : list N, (0 < length p)%nat) parts).
Proof.
  induction parts as [|p parts IH]; simpl; [done|].
  rewrite !filter_cons, IH.
  assert (Hlen : (0 < length (normal_part p))%nat ↔ (0 < length p)%nat).
  { unfold normal_part. destruct (is_blank_part p) eqn:Hp; [|done].
    destruct p; [done | simpl; lia]. }
  repeat case_decide; try done; tauto.
Qed.

Lemma concat_normal_filter parts :
  concat (map normal_part (filter (λ p : list N, (0 < length p)%nat) parts)) =
  concat (map normal_part parts).
Proof. by rewrite <- filter_normal, concat_filter_nonempty. Qed.

(** A fragment that is taken for a blank and lies on one line is matched
    by the pattern at its first unit. *)
Lemma inert_blank_spans_lines u w :
  inert u w → is_blank_part u = true → one_line u = false.
Proof.
  intros Hu Hb. destruct (one_line u) eqn:Hl; [|done].
  apply one_line_spec in Hl.
  unfold is_blank_part in Hb. apply andb_true_iff in Hb as [Hs He].
  destruct u as [|x s]; [done|]. simpl in Hs. apply N.eqb_eq in Hs as ->.
  unfold endsWith in He.
  destruct (last (LBRACE :: s)) as [z|] eqn:Hlast; [|done].
  apply N.eqb_eq in He as ->. apply last_Some in Hlast as [s' Hs'].
  destruct s' as [|y s']; [done|]. injection Hs' as <- ->.
  apply Forall_cons in Hl as [_ Hl]. apply Forall_app in Hl as [Hl _].
  specialize (Hu [] (s' ++ [RBRACE]) eq_refl).
  rewrite <- app_assoc in Hu. simpl in Hu.
  destruct (exec_lazy_close_reaches s' w Hl) as [? Hsome]. congruence.
Qed.

Lemma brace_group_blank m :
  brace_group m → is_blank_part m = true ∧ one_line m = true.
Proof.
  intros (content & -> & Hn & Hl). split; [apply is_blank_part_group|].
  apply one_line_spec. constructor; [done|].
  apply Forall_app. split; [done | by constructor].
Qed.

Lemma brace_group_normal m : brace_group m → brace_group (normal_part m).
Proof.
  intros (content & -> & Hn & Hl). unfold normal_part.
  rewrite is_blank_part_group, blank_word_group.
  exists (trim content). split; [done|].
  split; [by apply trim_not_elem | by apply trim_Forall].
Qed.

(** The shape of a split is kept when each blank is replaced by the
    braces around its word, provided that the blanks lie on one line. *)
Lemma split_shape_normal parts :
  split_shape parts →
  (∀ p, p ∈ parts → is_blank_part p = true → one_line p = true) →
  split_shape (map normal_part parts).
Proof.
  induction 1 as [u Hu | u m parts Hu Hm Hparts IH]; intros Hline; simpl.
  - assert (Hb : is_blank_part u = false).
    { destruct (is_blank_part u) eqn:Hb; [|done].
      pose proof (inert_blank_spans_lines u [] Hu Hb).
      rewrite (Hline u) in H; [done | left | done]. }
    unfold normal_part. rewrite Hb. by constructor.
  - assert (Hb : is_blank_part u = false).
    { destruct (is_blank_part u) eqn:Hb; [|done].
      pose proof (inert_blank_spans_lines u _ Hu Hb).
      rewrite (Hline u) in H; [done | left | done]. }
    unfold normal_part at 1. rewrite Hb. constructor.
    + by apply (inert_before_group u m (concat parts)).
    + by apply brace_group_normal.
    + apply IH. intros p Hp. apply Hline. by do 2 right.
Qed.

Lemma blanks_on_one_line_parts t p :
  blanks_on_one_line t = true → p ∈ split_braces t →
  is_blank_part p = true → one_line p = true.
Proof.
  unfold blanks_on_one_line, template_parts. rewrite forallb_forall.
  intros H Hp Hb. specialize (H p). rewrite Hb in H. apply H.
  apply list_elem_of_In, list_elem_of_filter. split; [|done].
  destruct p; [done | simpl; lia].
Qed.

(** The parts of the reconstruction are the source texts of the tokens. *)
Lemma template_parts_reconstruct t :
  blanks_on_one_line t = true →
  template_parts (reconstruct (classify 0 (template_parts t))) =
  map normal_part (template_parts t).
Proof.
  intros Hline. rewrite reconstruct_classify.
  unfold template_parts at 2 3. rewrite concat_normal_filter, <- filter_normal.
  unfold template_parts, split_braces. f_equal.
  assert (Hshape : split_shape (map normal_part (split_loop [] t))).
  { apply split_shape_normal; [apply split_loop_shape, inert_nil|].
    intros p. by apply blanks_on_one_line_parts. }
  rewrite (split_of_shape _ Hshape []). by destruct Hshape.
Qed.

Lemma retokenize_parts t :
  blanks_on_one_line t = true →
  parseFillInBlanks
    (Some (reconstruct (sentenceTemplate (parseFillInBlanks (Some t))))) =
  parseFillInBlanks (Some t).
Proof.
  intros Hline. rewrite (parseFillInBlanks_classify t). simpl.
  rewrite parseFillInBlanks_classify, template_parts_reconstruct by done.
  by rewrite classify_normal.
Qed.

(** When the groups lie on one line, so do the blanks. *)
Lemma groups_blanks_on_one_line t :
  groups_on_one_line t = true → blanks_on_one_line t = true.
Proof.
  intros Hg. unfold blanks_on_one_line. apply forallb_forall.
  intros u Hu%list_elem_of_In.
  destruct (is_blank_part u) eqn:Hb; [simpl|done].
  apply list_elem_of_split in Hu as (ps1 & ps2 & Hparts).
  pose proof (template_parts_ok t) as Hok. rewrite Hparts in Hok.
  apply parts_ok_lookup in Hok as [Hm|Hin];
    [by apply brace_group_blank in Hm as [_ ?]|].
  exfalso.
  pose proof (concat_template_parts t) as Hcat.
  rewrite Hparts, concat_app in Hcat. simpl in Hcat.
  unfold is_blank_part in Hb. apply andb_true_iff in Hb as [Hs He].
  destruct u as [|x s]; [done|]. simpl in Hs. apply N.eqb_eq in Hs as ->.
  specialize (Hin [] s eq_refl).
  rewrite <- Hcat in Hg. simpl in Hg.
  apply groups_on_one_line_open in Hg as [Hline _].
  unfold closes_on_line in Hline.
  destruct (break_at RBRACE (s ++ concat ps2)) as [[content rest]|] eqn:E.
  - by rewrite (exec_lazy_close_on_line _ _ _ E Hline) in Hin.
  - apply break_at_None in E. apply not_elem_of_app in E as [E _].
    change (LBRACE :: s) with ([] ++ LBRACE :: s) in He.
    by rewrite endsWith_app_not_elem in He
      by (apply not_elem_of_cons; split; [apply braces_distinct | done]).
Qed.

(** *** An opening brace and the rest of its line *)

Lemma exec_lazy_close_rest_of_line post :
  exec_lazy_close post = None ↔ includes RBRACE (rest_of_line post) = false.
Proof.
  unfold includes. induction post as [|c r IH]; [done|].
  cbn [exec_lazy_close rest_of_line].
  destruct (N.eqb_spec c RBRACE) as [->|Hne].
  - change (is_line_terminator RBRACE) with false.
    cbn [existsb]. by rewrite N.eqb_refl.
  - destruct (is_line_terminator c); [done|]. cbn [existsb].
    destruct (N.eqb_spec RBRACE c) as [Heq|_]; [congruence|].
    rewrite orb_false_l, <- IH. by destruct (exec_lazy_close r) as [[? ?]|].
Qed.

Lemma classify_at ps1 u ps2 :
  ∃ k toks2,
    classify 0 (ps1 ++ u :: ps2) = classify 0 ps1 ++ part_token k u :: toks2.
Proof.
  destruct (classify_app ps1 0 (u :: ps2)) as [k ->]. simpl.
  exists k, (classify (if is_blank_part u then S k else k) ps2).
  unfold part_token. by destruct (is_blank_part u).
Qed.

(** The fragment that holds an opening brace which no closing brace
    follows on its line. *)
Lemma open_brace_fragment pre post :
  includes RBRACE (rest_of_line post) = false →
  ∃ ps1 ps2 a b k toks2,
    let u := a ++ LBRACE :: b in
    template_parts (pre ++ LBRACE :: post) = ps1 ++ u :: ps2 ∧
    pre = concat ps1 ++ a ∧ post = b ++ concat ps2 ∧
    sentenceTemplate (parseFillInBlanks (Some (pre ++ LBRACE :: post))) =
      classify 0 ps1 ++ part_token k u :: toks2 ∧
    (is_blank_part u = true → one_line u = false).
Proof.
  intros Hopen%exec_lazy_close_rest_of_line.
  destruct (concat_position LBRACE (template_parts (pre ++ LBRACE :: post))
              pre post (concat_template_parts _))
    as (ps1 & ps2 & a & b & Hparts & Hpre & Hpost).
  destruct (classify_at ps1 (a ++ LBRACE :: b) ps2) as (k & toks2 & Hcl).
  exists ps1, ps2, a, b, k, toks2. simpl.
  split; [done|]. split; [done|]. split; [done|]. split.
  - by rewrite parseFillInBlanks_classify, Hparts.
  - intros Hb. destruct (one_line (a ++ LBRACE :: b)) eqn:Hl; [|done].
    apply one_line_spec in Hl. rewrite Hpost in Hopen.
    unfold is_blank_part in Hb. apply andb_true_iff in Hb as [_ He].
    unfold endsWith in He.
    destruct (last (a ++ LBRACE :: b)) as [z|] eqn:Hlast; [|done].
    apply N.eqb_eq in He as ->. rewrite last_app in Hlast. simpl in Hlast.
    destruct b as [|y b _] using rev_ind; [done|].
    rewrite app_comm_cons, last_snoc in Hlast. injection Hlast as ->.
    apply Forall_app in Hl as [_ Hl]. apply Forall_cons in Hl as [_ Hl].
    apply Forall_app in Hl as [Hl _].
    rewrite <- app_assoc in Hopen. simpl in Hopen.
    destruct (exec_lazy_close_reaches b (concat ps2) Hl) as [? Hsome].
    congruence.
Qed.

(** The group that holds an opening brace which a closing brace follows
    on its line. *)
Lemma closed_brace_group pre post :
  includes RBRACE (rest_of_line post) = true →
  ∃ ps1 ps2 a b content k toks2,
    template_parts (pre ++ LBRACE :: post) =
      ps1 ++ (LBRACE :: content ++ [RBRACE]) :: ps2 ∧
    a ++ LBRACE :: b = LBRACE :: content ++ [RBRACE] ∧
    pre = concat ps1 ++ a ∧ post = b ++ concat ps2 ∧
    (RBRACE ∉ content) ∧ no_line_terminator content ∧
    sentenceTemplate (parseFillInBlanks (Some (pre ++ LBRACE :: post))) =
      classify 0 ps1 ++ Blank k (trim content) :: toks2.
Proof.
  intros Hclosed.
  assert (Hex : exec_lazy_close post ≠ None).
  { intros H%exec_lazy_close_rest_of_line. congruence. }
  destruct (concat_position LBRACE (template_parts (pre ++ LBRACE :: post))
              pre post (concat_template_parts _))
    as (ps1 & ps2 & a & b & Hparts & Hpre & Hpost).
  pose proof (template_parts_ok (pre ++ LBRACE :: post)) as Hok.
  rewrite Hparts in Hok. apply parts_ok_lookup in Hok as [Hm|Hin].
  - destruct Hm as (content & Hu & Hn & Hl).
    destruct (classify_at ps1 (a ++ LBRACE :: b) ps2) as (k & toks2 & Hcl).
    exists ps1, ps2, a, b, content, k, toks2.
    split; [by rewrite Hparts, Hu|]. repeat (split; [done|]).
    rewrite parseFillInBlanks_classify, Hparts. simpl. rewrite Hcl.
    unfold part_token. by rewrite Hu, is_blank_part_group, blank_word_group.
  - destruct Hex. rewrite Hpost. by apply (Hin a b).
Qed.

(** ** Tokenizer: the properties of the design document *)

Lemma parse_agrees_with_description t :
  groups_on_one_line t = true →
  parseFillInBlanks (Some t) =
  mkParse (tokenize_spec 0 t) (words_of (tokenize_spec 0 t)).
Proof.
  intros Hg. by rewrite parseFillInBlanks_classify, classify_tokenize_spec.
Qed.

Lemma parse_result_shape template :
  let r := parseFillInBlanks template in
  correctWords r = words_of (sentenceTemplate r) ∧
  map blank_index (blankParts (sentenceTemplate r)) =
  map Some (seq 0 (length (blankParts (sentenceTemplate r)))).
Proof.
  destruct template as [t|]; [|done].
  simpl. rewrite parseFillInBlanks_classify. simpl.
  split; [done | apply classify_blank_indices].
Qed.

(** C5, as stated, fails on a group that spans a line break: in
    [a{<LF>b}] the group [{<LF>b}] is balanced, yet the tokenizer returns
    the whole template as one text token and no blank, where the
    description yields the text [a] and the blank [b]. *)
Lemma group_across_lines_is_not_a_blank :
  let t := lit "a{" ++ [10] ++ lit "b}" in
  tokenize_spec 0 t = [Text (lit "a"); Blank 0 (lit "b")] ∧
  parseFillInBlanks (Some t) = mkParse [Text t] [] ∧
  parseFillInBlanks (Some t) ≠
  mkParse (tokenize_spec 0 t) (words_of (tokenize_spec 0 t)).
Proof. split; [reflexivity|]. split; [reflexivity | discriminate]. Qed.

(** C5, amended: for every template in which no line terminator stands
    between an opening brace and the next closing brace after it (the
    template may well have several lines) the tokenizer returns the token
    sequence of the description: each group from an opening brace to the
    next closing brace is a blank with its trimmed content as the correct
    word, every other non-empty fragment is a text token; for every
    template whatsoever the blanks are numbered 0, 1, 2, ... in order of
    appearance and [correctWords] lists their words in that order; and
    the template of the design document gives the three tokens and the
    one answer stated there. *)
Theorem tokenizer_amended :
  (∀ t, groups_on_one_line t = true →
        parseFillInBlanks (Some t) =
        mkParse (tokenize_spec 0 t) (words_of (tokenize_spec 0 t))) ∧
  (∀ template,
     let r := parseFillInBlanks template in
     correctWords r = words_of (sentenceTemplate r) ∧
     map blank_index (blankParts (sentenceTemplate r)) =
     map Some (seq 0 (length (blankParts (sentenceTemplate r))))) ∧
  parseFillInBlanks (Some (lit "Smeety Alex, o {nty}?")) =
  mkParse [Text (lit "Smeety Alex, o "); Blank 0 (lit "nty"); Text (lit "?")]
          [lit "nty"].
Proof.
  split; [apply parse_agrees_with_description|].
  split; [apply parse_result_shape | reflexivity].
Qed.

Lemma tokenizer_amended_witness :
  parseFillInBlanks
    (Some (lit "Salam!" ++ [10] ++ lit "Smeety Alex, o {nty}?" ++ [10] ++
           lit "{ ana } mzyan.")) =
  mkParse [Text (lit "Salam!" ++ [10] ++ lit "Smeety Alex, o ");
           Blank 0 (lit "nty"); Text (lit "?" ++ [10]);
           Blank 1 (lit "ana"); Text (lit " mzyan.")]
          [lit "nty"; lit "ana"].
Proof.
  rewrite (proj1 tokenizer_amended
             (lit "Salam!" ++ [10] ++ lit "Smeety Alex, o {nty}?" ++ [10] ++
              lit "{ ana } mzyan.")).
  - reflexivity.
  - reflexivity.
Defined.

(** C6, as stated, fails on a template with line breaks inside braces.
    [{<LF>}x{<LF>}] is split into a single part, which begins and ends
    with a brace and so becomes one blank whose word is [}x{]; its
    reconstruction [{}x{}] is tokenized into two empty blanks around a
    text. *)
Lemma retokenize_differs_across_lines :
  let t := lit "{" ++ [10] ++ lit "}x{" ++ [10] ++ lit "}" in
  let r := parseFillInBlanks (Some t) in
  sentenceTemplate r = [Blank 0 (lit "}x{")] ∧
  reconstruct (sentenceTemplate r) = lit "{}x{}" ∧
  sentenceTemplate (parseFillInBlanks (Some (reconstruct (sentenceTemplate r))))
  = [Blank 0 []; Text (lit "x"); Blank 1 []] ∧
  parseFillInBlanks (Some (reconstruct (sentenceTemplate r))) ≠ r.
Proof.
  split; [reflexivity|]. split; [reflexivity|].
  split; [reflexivity | discriminate].
Qed.

(** C6, amended: for every template in which each fragment that the
    tokenizer takes for a blank lies on one line, re-tokenizing the
    literal reconstruction of its template gives the same result again,
    template and answers.  The templates in which no line terminator
    stands between an opening brace and the next closing brace after it
    are of that kind, whether they have one line or several. *)
Theorem retokenize_reconstruction :
  (∀ t, blanks_on_one_line t = true →
        parseFillInBlanks
          (Some (reconstruct (sentenceTemplate (parseFillInBlanks (Some t))))) =
        parseFillInBlanks (Some t)) ∧
  (∀ t, groups_on_one_line t = true → blanks_on_one_line t = true).
Proof.
  split; [apply retokenize_parts | apply groups_blanks_on_one_line].
Qed.

Lemma retokenize_reconstruction_witness :
  parseFillInBlanks
    (Some (reconstruct
             (sentenceTemplate
                (parseFillInBlanks
                   (Some (lit "a{" ++ [10] ++ lit "b} Smeety { Alex }, o {nty}?")))))) =
  mkParse [Text (lit "a{" ++ [10] ++ lit "b} Smeety "); Blank 0 (lit "Alex");
           Text (lit ", o "); Blank 1 (lit "nty"); Text (lit "?")]
          [lit "Alex"; lit "nty"] ∧
  blanks_on_one_line
    (lit "Smeety { Alex }," ++ [10] ++ lit "o {nty}?") = true.
Proof.
  split.
  - rewrite (proj1 retokenize_reconstruction
               (lit "a{" ++ [10] ++ lit "b} Smeety { Alex }, o {nty}?")).
    + reflexivity.
    + reflexivity.
  - apply (proj2 retokenize_reconstruction
             (lit "Smeety { Alex }," ++ [10] ++ lit "o {nty}?")).
    reflexivity.
Defined.

(** C7, as stated, fails on unbalanced braces of which the first is
    followed by a closing brace: in [{a{b}] the first opening brace has no
    matching closing brace (the one closing brace matches the second), yet
    the tokenizer makes it the start of a blank, whose word is [a{b]; the
    template holds no text token at all. *)
Lemma unbalanced_brace_becomes_blank :
  let post := lit "a{b}" in
  has_matching_close post = false ∧
  parseFillInBlanks (Some (LBRACE :: post)) =
    mkParse [Blank 0 (lit "a{b")] [lit "a{b"] ∧
  ¬ ∃ toks s toks',
      sentenceTemplate (parseFillInBlanks (Some (LBRACE :: post))) =
      toks ++ Text s :: toks'.
Proof.
  split; [reflexivity|]. split; [reflexivity|].
  intros (toks & s & toks' & H).
  change (sentenceTemplate _) with [Blank 0 (lit "a{b")] in H.
  destruct toks as [|tok [|tok' toks]]; simpl in H; [done | | done].
  by injection H.
Qed.

(** C7, amended: the tokenizer returns a result for every argument,
    absent, empty or malformed (the answers of the result are the words
    of its blanks).  An opening brace that no closing brace follows on its
    line lies in a fragment of the split that is carried through unchanged
    as a text token, unless that fragment itself starts with an opening
    and ends with a closing brace, which it can do only across a line
    terminator, and is then taken for a blank.  In particular an opening
    brace after which no closing brace comes at all ends up, with all the
    text that follows it, inside the last token of the template, which is
    a text token.  An opening brace that a closing brace follows on its
    line is never literal text: it lies in a group on one line, which is a
    blank, whether or not the braces are balanced. *)
Theorem unterminated_brace_is_text :
  (∀ template, ∃ tpl, parseFillInBlanks template = mkParse tpl (words_of tpl)) ∧
  (∀ pre post,
     includes RBRACE (rest_of_line post) = false →
     ∃ ps1 ps2 a b toks2 tok,
       let u := a ++ LBRACE :: b in
       template_parts (pre ++ LBRACE :: post) = ps1 ++ u :: ps2 ∧
       pre = concat ps1 ++ a ∧ post = b ++ concat ps2 ∧
       sentenceTemplate (parseFillInBlanks (Some (pre ++ LBRACE :: post))) =
         classify 0 ps1 ++ tok :: toks2 ∧
       (tok = Text u ∨
        (is_blank_part u = true ∧ one_line u = false ∧
         ∃ k, tok = Blank k (blank_word u)))) ∧
  (∀ pre post,
     RBRACE ∉ post →
     ∃ toks v u,
       pre = v ++ u ∧
       sentenceTemplate (parseFillInBlanks (Some (pre ++ LBRACE :: post))) =
       toks ++ [Text (u ++ LBRACE :: post)]) ∧
  (∀ pre post,
     includes RBRACE (rest_of_line post) = true →
     ∃ ps1 ps2 a b content k toks2,
       template_parts (pre ++ LBRACE :: post) =
         ps1 ++ (LBRACE :: content ++ [RBRACE]) :: ps2 ∧
       a ++ LBRACE :: b = LBRACE :: content ++ [RBRACE] ∧
       pre = concat ps1 ++ a ∧ post = b ++ concat ps2 ∧
       (RBRACE ∉ content) ∧ no_line_terminator content ∧
       sentenceTemplate (parseFillInBlanks (Some (pre ++ LBRACE :: post))) =
         classify 0 ps1 ++ Blank k (trim content) :: toks2).
Proof.
  split; [|split; [|split]].
  - intros [t|]; [|by exists []]. eexists. apply parseFillInBlanks_classify.
  - intros pre post Hopen.
    destruct (open_brace_fragment pre post Hopen)
      as (ps1 & ps2 & a & b & k & toks2 & Hparts & Hpre & Hpost & Htpl & Hb).
    exists ps1, ps2, a, b, toks2, (part_token k (a ++ LBRACE :: b)).
    simpl. repeat (split; [done|]). unfold part_token.
    destruct (is_blank_part (a ++ LBRACE :: b)); [right | by left].
    split; [done|]. split; [by apply Hb | by exists k].
  - intros pre post Hpost.
    destruct (split_loop_unterminated post pre [] Hpost)
      as (parts & v & u & Hvu & Hsplit).
    rewrite parseFillInBlanks_classify. simpl.
    unfold template_parts, split_braces. rewrite Hsplit, filter_app.
    rewrite (filter_cons _ (u ++ LBRACE :: post)).
    case_decide as Hlen; [|rewrite length_app in Hlen; simpl in Hlen; lia].
    rewrite filter_nil.
    destruct (classify_app
                (filter (λ p : list N, (0 < length p)%nat) parts) 0
                [u ++ LBRACE :: post]) as [k' ->].
    exists (classify 0 (filter (λ p : list N, (0 < length p)%nat) parts)), v, u.
    split; [done|]. f_equal. simpl.
    unfold is_blank_part. rewrite endsWith_app_not_elem.
    + by rewrite andb_false_r.
    + apply not_elem_of_cons. split; [apply braces_distinct | done].
  - apply closed_brace_group.
Qed.

Lemma unterminated_brace_is_text_witness :
  (∃ ps1 ps2 a b toks2 tok,
     let u := a ++ LBRACE :: b in
     template_parts (lit "o " ++ LBRACE :: lit " nty" ++ [10] ++ lit "{nta}?") =
       ps1 ++ u :: ps2 ∧
     lit "o " = concat ps1 ++ a ∧
     lit " nty" ++ [10] ++ lit "{nta}?" = b ++ concat ps2 ∧
     sentenceTemplate
       (parseFillInBlanks
          (Some (lit "o " ++ LBRACE :: lit " nty" ++ [10] ++ lit "{nta}?"))) =
       classify 0 ps1 ++ tok :: toks2 ∧
     (tok = Text u ∨
      (is_blank_part u = true ∧ one_line u = false ∧
       ∃ k, tok = Blank k (blank_word u)))) ∧
  (∃ toks v u,
     lit "{nta} o " = v ++ u ∧
     sentenceTemplate
       (parseFillInBlanks (Some (lit "{nta} o " ++ LBRACE :: lit "nty?"))) =
     toks ++ [Text (u ++ LBRACE :: lit "nty?")]).
Proof.
  split.
  - apply (proj1 (proj2 unterminated_brace_is_text)
             (lit "o ") (lit " nty" ++ [10] ++ lit "{nta}?")).
    reflexivity.
  - apply (proj1 (proj2 (proj2 unterminated_brace_is_text))
             (lit "{nta} o ") (lit "nty?")).
    intros H. apply list_elem_of_In in H. vm_compute in H.
    repeat (destruct H as [H|H]; [discriminate H|]). destruct H.
Defined.

(** * Further properties of the code *)

(** ** Reducer: activities *)

Lemma activities_set_field state fv :
  Lesson.activities (set_field state fv) =
  match fv with F_activities v => v | _ => Lesson.activities state end.
Proof. by destruct state, fv. Qed.

Lemma id_with_id a n : Activity.id (with_id a n) = n.
Proof. by destruct a. Qed.

Lemma with_id_same a : with_id a (Activity.id a) = a.
Proof. by destruct a. Qed.

Lemma activities_update t0 now state id b :
  Lesson.activities (lessonReducer t0 now state (UPDATE_ACTIVITY id b)) =
  map (λ act, if Z.eqb (Activity.id act) id
              then with_id b (Activity.id act) else act)
      (Lesson.activities state).
Proof. simpl. by rewrite !activities_set_field. Qed.

Lemma activities_delete t0 now state id :
  Lesson.activities (lessonReducer t0 now state (DELETE_ACTIVITY id)) =
  List.filter (λ act, negb (Z.eqb (Activity.id act) id))
              (Lesson.activities state).
Proof. simpl. by rewrite !activities_set_field. Qed.

Lemma activities_add t0 now state a :
  Lesson.activities (lessonReducer t0 now state (ADD_ACTIVITY a)) =
  Lesson.activities state ++ [with_id a now].
Proof. simpl. by rewrite !activities_set_field. Qed.

(** [UPDATE_ACTIVITY] never changes which ids the lesson holds, nor their
    order: the payload takes the id of the activity it replaces. *)
Theorem update_activity_keeps_ids t0 now state id b :
  map Activity.id
      (Lesson.activities (lessonReducer t0 now state (UPDATE_ACTIVITY id b))) =
  map Activity.id (Lesson.activities state).
Proof.
  rewrite activities_update, <- list_fmap_compose.
  apply list_fmap_ext. intros _ act _. simpl.
  destruct (Z.eqb _ _); [apply id_with_id | done].
Qed.

(** [DELETE_ACTIVITY] removes every activity that carries the id and keeps
    the others in their order; when no activity carries the id the list is
    unchanged. *)
Theorem delete_activity_removes_id t0 now state id :
  let after :=
    Lesson.activities (lessonReducer t0 now state (DELETE_ACTIVITY id)) in
  (id ∉ map Activity.id after) ∧
  (∀ a, a ∈ after ↔ a ∈ Lesson.activities state ∧ Activity.id a ≠ id) ∧
  after `sublist_of` Lesson.activities state ∧
  (id ∉ map Activity.id (Lesson.activities state) →
   after = Lesson.activities state).
Proof.
  simpl. rewrite !activities_set_field.
  set (acts := Lesson.activities state).
  assert (Hin : ∀ a, a ∈ List.filter
                       (λ act, negb (Z.eqb (Activity.id act) id)) acts
                     ↔ a ∈ acts ∧ Activity.id a ≠ id).
  { intros a. rewrite !list_elem_of_In, filter_In, negb_true_iff, Z.eqb_neq.
    done. }
  split; [|split; [done|split]].
  - intros (a & Ha & Hina)%list_elem_of_fmap. apply Hin in Hina as [_ Hne].
    done.
  - clear. induction acts as [|a acts IH]; simpl; [done|].
    destruct (negb _); by constructor.
  - intros Hno. clear Hin. induction acts as [|a acts IH]; simpl; [done|].
    simpl in Hno. apply not_elem_of_cons in Hno as [Hne Hno].
    destruct (Z.eqb_spec (Activity.id a) id) as [Heq|_]; [congruence|].
    simpl. f_equal. by apply IH.
Qed.

Lemma delete_activity_removes_id_witness :
  Lesson.activities
    (lessonReducer 1000 3000
       (lessonReducer 1000 2000 (initialLessonState 1000)
                      (ADD_ACTIVITY one_option_draft))
       (DELETE_ACTIVITY 7)) =
  [with_id one_option_draft 2000].
Proof.
  apply (proj2 (proj2 (proj2
           (delete_activity_removes_id 1000 3000
              (lessonReducer 1000 2000 (initialLessonState 1000)
                             (ADD_ACTIVITY one_option_draft)) 7)))).
  intros H. apply list_elem_of_In in H. simpl in H.
  destruct H as [H|H]; [discriminate H | destruct H].
Defined.

(** An activity added at time [now], whose id is then new in the lesson,
    and updated under that id: the other activities are as before, and the
    added one has the content of the update and still the id [now]. *)
Theorem add_then_update_activity t0 now later state a b :
  now ∉ map Activity.id (Lesson.activities state) →
  Lesson.activities
    (lessonReducer t0 later
       (lessonReducer t0 now state (ADD_ACTIVITY a))
       (UPDATE_ACTIVITY now b)) =
  Lesson.activities state ++ [with_id b now].
Proof.
  intros Hnew. rewrite activities_update, activities_add, map_app. simpl.
  rewrite id_with_id, Z.eqb_refl. f_equal.
  induction (Lesson.activities state) as [|x acts IH]; [done|].
  simpl in *. apply not_elem_of_cons in Hnew as [Hne Hnew].
  destruct (Z.eqb_spec (Activity.id x) now) as [Heq|_]; [congruence|].
  f_equal. by apply IH.
Qed.

Lemma add_then_update_activity_witness :
  Lesson.activities
    (lessonReducer 1000 3000
       (lessonReducer 1000 2000 (initialLessonState 1000)
                      (ADD_ACTIVITY one_option_draft))
       (UPDATE_ACTIVITY 2000 no_brace_draft)) =
  [with_id no_brace_draft 2000].
Proof.
  apply (add_then_update_activity 1000 2000 3000 (initialLessonState 1000)
           one_option_draft no_brace_draft).
  simpl. apply not_elem_of_nil.
Defined.

(** Opening a stored activity in the editor and saving it unchanged
    leaves the activities as they are, provided no two activities share an
    id. *)
Theorem update_with_itself t0 now state a :
  NoDup (map Activity.id (Lesson.activities state)) →
  a ∈ Lesson.activities state →
  Lesson.activities
    (lessonReducer t0 now state (UPDATE_ACTIVITY (Activity.id a) a)) =
  Lesson.activities state.
Proof.
  intros Hnd Hin. rewrite activities_update.
  induction (Lesson.activities state) as [|x acts IH]; [done|].
  simpl in *. apply NoDup_cons in Hnd as [Hx Hnd].
  destruct (Z.eqb_spec (Activity.id x) (Activity.id a)) as [Heq|Hne].
  - apply elem_of_cons in Hin as [->|Hin].
    + rewrite with_id_same. f_equal.
      clear IH. induction acts as [|y acts IH]; [done|]. simpl in *.
      apply not_elem_of_cons in Hx as [Hy Hx].
      apply NoDup_cons in Hnd as [_ Hnd].
      destruct (Z.eqb_spec (Activity.id y) (Activity.id x)); [congruence|].
      f_equal. by apply IH.
    + destruct Hx. rewrite Heq. by apply list_elem_of_fmap_2.
  - apply elem_of_cons in Hin as [->|Hin]; [done|].
    f_equal. by apply IH.
Qed.

Lemma update_with_itself_witness :
  let state :=
    lessonReducer 1000 2000 (initialLessonState 1000)
                  (ADD_ACTIVITY one_option_draft) in
  Lesson.activities
    (lessonReducer 1000 3000 state
                   (UPDATE_ACTIVITY 2000 (with_id one_option_draft 2000))) =
  Lesson.activities state.
Proof.
  apply (update_with_itself 1000 3000
           (lessonReducer 1000 2000 (initialLessonState 1000)
                          (ADD_ACTIVITY one_option_draft))
           (with_id one_option_draft 2000)).
  - simpl. apply NoDup_singleton.
  - simpl. left.
Defined.

(** Editing fields and activities and changing the view never change the
    [id] of the lesson nor its [createdAt]. *)
Theorem reducer_keeps_identity t0 now state action :
  keeps_identity action = true →
  Lesson.id (lessonReducer t0 now state action) = Lesson.id state ∧
  Lesson.createdAt (lessonReducer t0 now state action) = Lesson.createdAt state.
Proof.
  destruct state, action as [[]| | | | | | | |]; simpl; done.
Qed.

Lemma reducer_keeps_identity_witness :
  Lesson.id (lessonReducer 1000 2000 (initialLessonState 1000)
               (ADD_ACTIVITY one_option_draft)) = 1000%Z ∧
  Lesson.createdAt (lessonReducer 1000 2000 (initialLessonState 1000)
                      (ADD_ACTIVITY one_option_draft)) = 1000%Z.
Proof.
  apply (reducer_keeps_identity 1000 2000 (initialLessonState 1000)
           (ADD_ACTIVITY one_option_draft)).
  reflexivity.
Defined.

(** ** Persistence *)

Lemma findIndex_Some {A} (f : A → bool) (l : list A) (i : nat) :
  findIndex f l = Some i ↔
  ∃ x, l !! i = Some x ∧ f x = true ∧
       ∀ j y, (j < i)%nat → l !! j = Some y → f y = false.
Proof.
  revert i. induction l as [|a l IH]; intros i; simpl.
  - split; [done|]. by intros (x & Hx & _).
  - destruct (f a) eqn:Ha.
    + split.
      * intros [= <-]. exists a. repeat split; [done|]. intros; lia.
      * intros (x & Hx & Hfx & Hmin). destruct i as [|i]; [done|].
        specialize (Hmin 0%nat a). simpl in Hmin.
        rewrite Hmin in Ha; [done | lia | done].
    + destruct (findIndex f l) as [k|] eqn:Hk; simpl.
      * split.
        -- intros [= <-]. destruct (proj1 (IH k) eq_refl) as (x & Hx & Hfx & Hmin).
           exists x. repeat split; [done..|].
           intros [|j] y Hj Hy; simpl in Hy; [congruence|].
           apply (Hmin j); [lia | done].
        -- intros (x & Hx & Hfx & Hmin). destruct i as [|i].
           { simpl in Hx. congruence. }
           f_equal. assert (Hi : Some k = Some i); [|congruence].
           apply IH. exists x. repeat split; [done..|].
           intros j y Hj Hy. apply (Hmin (S j)); [lia | done].
      * split; [done|]. intros (x & Hx & Hfx & Hmin). destruct i as [|i].
        { simpl in Hx. congruence. }
        assert (Hi : None = Some i); [|done].
        apply IH. exists x. repeat split; [done..|].
        intros j y Hj Hy. apply (Hmin (S j)); [lia | done].
Qed.


Lemma findIndex_snoc_new {A} (f : A → bool) (l : list A) (x : A) :
  findIndex f l = None → f x = true →
  findIndex f (l ++ [x]) = Some (length l).
Proof.
  intros Hnone Hx. induction l as [|a l IH]; simpl in *; [by rewrite Hx|].
  destruct (f a); [done|].
  destruct (findIndex f l); [done|]. by rewrite IH.
Qed.

(** Running the effect again on the same state changes nothing more. *)
Theorem persist_idempotent store lessonState :
  persist (persist store lessonState) lessonState = persist store lessonState.
Proof.
  unfold persist.
  destruct (0 <? length (Lesson.activities lessonState))%nat eqn:Hact; [|done].
  set (f := λ lesson, Z.eqb (Lesson.id lesson) (Lesson.id lessonState)).
  assert (Hself : f lessonState = true) by apply Z.eqb_refl.
  destruct (findIndex f store) as [i|] eqn:Hfind.
  - pose proof Hfind as (x & Hx & Hfx & Hmin)%findIndex_Some.
    assert (Hi : (i < length store)%nat) by by eapply lookup_lt_Some.
    assert (Hfind' : findIndex f (<[i := lessonState]> store) = Some i).
    { apply findIndex_Some. exists lessonState.
      split; [by apply list_lookup_insert_eq|]. split; [done|].
      intros j y Hj Hy. rewrite list_lookup_insert_ne in Hy by lia.
      by apply (Hmin j). }
    rewrite Hfind'. by rewrite list_insert_insert_eq.
  - rewrite (findIndex_snoc_new f store lessonState Hfind Hself).
    rewrite insert_app_r_alt by lia. by rewrite Nat.sub_diag.
Qed.

(** A lesson without activities is never written.  So when the only
    activity of a stored lesson is deleted, the store keeps the copy that
    still has the activity. *)
Theorem deleting_last_activity_is_not_persisted t0 now store state a :
  Lesson.activities state = [a] →
  let stored := persist store state in
  let state' := lessonReducer t0 now state (DELETE_ACTIVITY (Activity.id a)) in
  Lesson.activities state' = [] ∧
  persist stored state' = stored ∧
  state ∈ stored.
Proof.
  intros Hact. simpl. split; [|split].
  - rewrite !activities_set_field, Hact. simpl. by rewrite Z.eqb_refl.
  - unfold persist at 1. rewrite !activities_set_field, Hact. simpl.
    by rewrite Z.eqb_refl.
  - unfold persist. rewrite Hact. simpl.
    destruct (findIndex _ store) as [i|] eqn:Hfind.
    + apply findIndex_Some in Hfind as (x & Hx & _).
      apply list_elem_of_lookup. exists i. apply list_lookup_insert_eq.
      by eapply lookup_lt_Some.
    + apply elem_of_app. right. left.
Qed.

Lemma deleting_last_activity_is_not_persisted_witness :
  let state := lessonReducer 1000 2000 (initialLessonState 1000)
                             (ADD_ACTIVITY one_option_draft) in
  let stored := persist [] state in
  let state' := lessonReducer 1000 3000 state (DELETE_ACTIVITY 2000) in
  Lesson.activities state' = [] ∧
  persist stored state' = stored ∧
  state ∈ stored.
Proof.
  apply (deleting_last_activity_is_not_persisted 1000 3000 []
           (lessonReducer 1000 2000 (initialLessonState 1000)
                          (ADD_ACTIVITY one_option_draft))
           (with_id one_option_draft 2000)).
  reflexivity.
Defined.



(** ** Validator: the shape of the result *)

(** Whatever the draft, the errors come in the order of the rules, each
    at most once, and there are never more than four of them. *)
Theorem validateActivity_ordered a :
  validateActivity a `sublist_of` rule_order ∧
  NoDup (validateActivity a) ∧
  (length (validateActivity a) ≤ 4)%nat.
Proof.
  assert (Hsub : validateActivity a `sublist_of` rule_order).
  { unfold validateActivity, push_if, rule_order.
    destruct (negb (truthy (trim (Activity.title a))));
      destruct (negb (truthy (trim (Media.text (Activity.question a)))));
      destruct (Activity.type a); simpl;
      repeat match goal with
             | |- context [if ?b then _ else _] => destruct b; simpl
             end;
      repeat first [ apply sublist_nil | apply sublist_skip
                   | apply sublist_cons ]. }
  split; [done|]. split.
  - eapply sublist_NoDup; [|done]. unfold rule_order.
    apply NoDup_ListNoDup. repeat constructor; simpl; intuition discriminate.
  - unfold validateActivity, push_if.
    destruct (negb (truthy (trim (Activity.title a))));
      destruct (negb (truthy (trim (Media.text (Activity.question a)))));
      destruct (Activity.type a); simpl;
      repeat match goal with
             | |- context [if ?b then _ else _] => destruct b; simpl
             end; lia.
Qed.

Lemma filter_truthy_non_blank (options : list Opt.t) :
  length (List.filter (λ opt, truthy (trim (Opt.text opt))) options) =
  length (filter (λ o, non_blank (Opt.text o)) options).
Proof.
  induction options as [|o options IH]; [done|].
  simpl. rewrite filter_cons.
  destruct (truthy (trim (Opt.text o))) eqn:Ht.
  - apply truthy_non_blank in Ht. case_decide; [|done]. simpl. by rewrite IH.
  - apply truthy_blank in Ht. case_decide; [done|]. apply IH.
Qed.

Lemma push_if_nil cond msg errors :
  push_if cond msg errors = [] ↔ cond = false ∧ errors = [].
Proof.
  unfold push_if. destruct cond.
  - split; [|by intros [? _]]. intros H. by destruct errors.
  - split; [done | by intros [_ ?]].
Qed.

(** A draft is accepted exactly when its title and its question text are
    non-blank and the rule of its type holds; a type outside the five has
    no rule of its own. *)
Theorem validateActivity_accepts a :
  validateActivity a = [] ↔
  non_blank (Activity.title a) ∧
  non_blank (Media.text (Activity.question a)) ∧
  type_rule a.
Proof.
  unfold validateActivity, type_rule. fold (common_errors a).
  assert (Hcommon : common_errors a = [] ↔
                    non_blank (Activity.title a) ∧
                    non_blank (Media.text (Activity.question a))).
  { unfold common_errors. rewrite !push_if_nil, !negb_false_iff.
    rewrite !truthy_non_blank. tauto. }
  destruct (Activity.type a).
  - rewrite !push_if_nil, Hcommon, negb_false_iff, Nat.ltb_ge,
      filter_truthy_non_blank.
    assert (Hex : existsb Opt.isCorrect (Activity.options a) = true ↔
                  ∃ o, o ∈ Activity.options a ∧ Opt.isCorrect o = true).
    { rewrite existsb_exists. by setoid_rewrite list_elem_of_In. }
    rewrite Hex. tauto.
  - rewrite push_if_nil, Hcommon, negb_false_iff, includes_elem_of. tauto.
  - rewrite push_if_nil, Hcommon, Nat.ltb_ge. tauto.
  - rewrite push_if_nil, Hcommon, Nat.ltb_ge. tauto.
  - rewrite push_if_nil, Hcommon, Nat.ltb_ge. tauto.
  - rewrite Hcommon. tauto.
Qed.

(** The verdict of the validator does not depend on the [id]. *)
Lemma validateActivity_with_id a n :
  validateActivity (with_id a n) = validateActivity a.
Proof. by destruct a. Qed.

(** ** Saving a draft *)

(** [saveActivity] stores nothing when the draft has errors: the lesson
    and the draft stay as they are and the errors are shown.  And it never
    brings an activity that the validator rejects into a lesson whose
    activities it accepts. *)
Theorem saveActivity_keeps_lesson_valid t0 now newId ed :
  let ed' := saveActivity t0 now newId ed in
  (validateActivity (Editor.tempActivity ed) ≠ [] →
   Editor.lessonState ed' = Editor.lessonState ed ∧
   Editor.tempActivity ed' = Editor.tempActivity ed ∧
   Editor.validationErrors ed' = validateActivity (Editor.tempActivity ed)) ∧
  (Forall (λ a, validateActivity a = [])
          (Lesson.activities (Editor.lessonState ed)) →
   Forall (λ a, validateActivity a = [])
          (Lesson.activities (Editor.lessonState ed'))).
Proof.
  simpl. unfold saveActivity.
  destruct (validateActivity (Editor.tempActivity ed)) as [|e errors] eqn:Hv;
    simpl.
  - split; [done|]. intros Hall.
    destruct (Editor.isEditingActivity ed).
    + rewrite activities_update. apply Forall_fmap.
      eapply Forall_impl; [apply Hall|]. intros act Hact. simpl.
      destruct (Z.eqb _ _); [by rewrite validateActivity_with_id | done].
    + rewrite activities_add. apply Forall_app. split; [done|].
      apply Forall_singleton. by rewrite validateActivity_with_id.
  - split; [done|]. done.
Qed.

Lemma saveActivity_keeps_lesson_valid_witness :
  let ed := Editor.mk (initialLessonState 1000) one_option_draft false [] in
  let ed' := saveActivity 1000 2000 2001 ed in
  Editor.lessonState ed' = Editor.lessonState ed ∧
  Editor.tempActivity ed' = one_option_draft ∧
  Editor.validationErrors ed' = validateActivity one_option_draft.
Proof.
  apply (proj1 (saveActivity_keeps_lesson_valid 1000 2000 2001
                  (Editor.mk (initialLessonState 1000) one_option_draft
                             false []))).
  vm_compute. discriminate.
Defined.

(** ** Editor: options, items and pairs *)

Lemma filter_index_delete {A} (l : list A) : ∀ k index,
  filter_index (λ i, negb (i =? k + index)%nat) k l = delete index l.
Proof.
  induction l as [|x l IH]; intros k index; simpl; [done|].
  destruct index as [|index].
  - rewrite Nat.add_0_r, Nat.eqb_refl. simpl.
    clear IH. assert (H : ∀ m, (k < m)%nat →
      filter_index (λ i, negb (i =? k)%nat) m l = l); [|apply H; lia].
    induction l as [|y l IHl]; intros m Hm; simpl; [done|].
    destruct (Nat.eqb_spec m k); [lia|]. simpl. f_equal. apply IHl. lia.
  - destruct (Nat.eqb_spec k (k + S index)); [lia|]. simpl. f_equal.
    replace (k + S index)%nat with (S k + index)%nat by lia. apply IH.
Qed.

(** Filtering out one index is deleting the element at that index. *)
Lemma remove_at_delete {A} (index : nat) (l : list A) :
  remove_at index l = delete index l.
Proof. apply (filter_index_delete l 0 index). Qed.

Lemma length_remove_at {A} (index : nat) (l : list A) :
  (index < length l)%nat → length (remove_at index l) = (length l - 1)%nat.
Proof.
  intros Hi. rewrite remove_at_delete, length_delete; [done|].
  by apply lookup_lt_is_Some_2.
Qed.

Lemma length_remove_at_ge {A} (index : nat) (l : list A) :
  (length l - 1 ≤ length (remove_at index l))%nat.
Proof.
  rewrite remove_at_delete. revert index.
  induction l as [|x l IH]; intros [|index]; simpl; try lia.
  specialize (IH index). lia.
Qed.

Lemma options_set_options prev options :
  Activity.options (set_options prev options) = options.
Proof. by destruct prev. Qed.

Lemma items_set_items prev items :
  Activity.items (set_items prev items) = items.
Proof. by destruct prev. Qed.

Lemma pairs_set_pairs prev pairs :
  Activity.pairs (set_pairs prev pairs) = pairs.
Proof. by destruct prev. Qed.

(** The Delete buttons never take a draft below two options, one item or
    one pair; above that bound they delete exactly the element at the
    index, and at the bound they leave the draft as it is. *)
Theorem remove_handlers_keep_minimum prev index :
  ((2 ≤ length (Activity.options prev))%nat →
   (2 ≤ length (Activity.options (removeOption prev index)))%nat) ∧
  ((1 ≤ length (Activity.items prev))%nat →
   (1 ≤ length (Activity.items (removeItem prev index)))%nat) ∧
  ((1 ≤ length (Activity.pairs prev))%nat →
   (1 ≤ length (Activity.pairs (removePair prev index)))%nat) ∧
  ((2 < length (Activity.options prev))%nat →
   Activity.options (removeOption prev index) =
   delete index (Activity.options prev)) ∧
  ((1 < length (Activity.items prev))%nat →
   Activity.items (removeItem prev index) =
   delete index (Activity.items prev)) ∧
  ((1 < length (Activity.pairs prev))%nat →
   Activity.pairs (removePair prev index) =
   delete index (Activity.pairs prev)) ∧
  ((length (Activity.options prev) ≤ 2)%nat → removeOption prev index = prev) ∧
  ((length (Activity.items prev) ≤ 1)%nat → removeItem prev index = prev) ∧
  ((length (Activity.pairs prev) ≤ 1)%nat → removePair prev index = prev).
Proof.
  unfold removeOption, removeItem, removePair.
  destruct (Nat.ltb_spec 2 (length (Activity.options prev)));
    destruct (Nat.ltb_spec 1 (length (Activity.items prev)));
    destruct (Nat.ltb_spec 1 (length (Activity.pairs prev)));
    rewrite ?options_set_options, ?items_set_items, ?pairs_set_pairs;
    repeat split; intros; try done; try lia;
    try apply remove_at_delete;
    match goal with
    | |- (_ ≤ length (remove_at ?i ?l))%nat =>
        pose proof (length_remove_at_ge i l); lia
    end.
Qed.

Lemma remove_handlers_keep_minimum_witness :
  (2 ≤ length (Activity.options
                 (removeOption (initialActivityData 1000) 0)))%nat ∧
  Activity.options (removeOption (initialActivityData 1000) 0) =
  delete 0%nat (Activity.options (initialActivityData 1000)).
Proof.
  destruct (remove_handlers_keep_minimum (initialActivityData 1000) 0)
    as (Hmin & _ & _ & Hdel & _).
  split; [apply Hmin; simpl; lia | apply Hdel; simpl; lia].
Defined.

(** Choosing the radio button of an existing option leaves exactly that
    option marked correct, changes nothing else in the options, and
    satisfies the rule that one option must be marked. *)
Theorem setCorrectOption_single prev index :
  (index < length (Activity.options prev))%nat →
  let options := Activity.options (setCorrectOption prev index) in
  (∀ j o, options !! j = Some o → (Opt.isCorrect o = true ↔ j = index)) ∧
  map Opt.media options = map Opt.media (Activity.options prev) ∧
  existsb Opt.isCorrect options = true.
Proof.
  intros Hi. simpl. unfold setCorrectOption. rewrite options_set_options.
  assert (Hlook : ∀ j o,
    imap (λ i o, Opt.mk (Opt.media o) (i =? index)%nat)
         (Activity.options prev) !! j = Some o →
    Opt.isCorrect o = (j =? index)%nat).
  { intros j o. rewrite list_lookup_imap.
    destruct (Activity.options prev !! j); simpl; [|done]. by intros [= <-]. }
  split; [|split].
  - intros j o Hj. rewrite (Hlook j o Hj). apply Nat.eqb_eq.
  - apply list_eq. intros j. rewrite !list_lookup_fmap, list_lookup_imap.
    by destruct (Activity.options prev !! j).
  - apply existsb_exists.
    destruct (lookup_lt_is_Some_2 (Activity.options prev) index Hi) as [o Ho].
    exists (Opt.mk (Opt.media o) true). split; [|done].
    apply list_elem_of_In, list_elem_of_lookup. exists index.
    rewrite list_lookup_imap, Ho. simpl. by rewrite Nat.eqb_refl.
Qed.

Lemma setCorrectOption_single_witness :
  let options := Activity.options (setCorrectOption one_option_draft 1) in
  (∀ j o, options !! j = Some o → (Opt.isCorrect o = true ↔ j = 1%nat)) ∧
  map Opt.media options = map Opt.media (Activity.options one_option_draft) ∧
  existsb Opt.isCorrect options = true.
Proof.
  apply (setCorrectOption_single one_option_draft 1). simpl. lia.
Defined.

(** Deleting the one option that is marked correct, which the guard
    allows as soon as there are more than two options, leaves a
    multiple-choice draft without a correct option; the validator then
    reports it. *)
Theorem removing_the_correct_option prev index o :
  Activity.type prev = MultipleChoice →
  (2 < length (Activity.options prev))%nat →
  Activity.options prev !! index = Some o →
  (∀ j o', j ≠ index → Activity.options prev !! j = Some o' →
           Opt.isCorrect o' = false) →
  existsb Opt.isCorrect (Activity.options (removeOption prev index)) = false ∧
  E_CORRECT ∈ validateActivity (removeOption prev index).
Proof.
  intros Hty Hlen Hidx Hothers.
  assert (Hopts : Activity.options (removeOption prev index) =
                  delete index (Activity.options prev)).
  { unfold removeOption. destruct (Nat.ltb_spec 2 (length (Activity.options prev)));
      [|lia]. by rewrite options_set_options, remove_at_delete. }
  assert (Hty' : Activity.type (removeOption prev index) = MultipleChoice).
  { unfold removeOption. destruct (2 <? _)%nat; [|done]. by destruct prev. }
  assert (Hnone : existsb Opt.isCorrect
                    (Activity.options (removeOption prev index)) = false).
  { rewrite Hopts. apply not_true_is_false. rewrite existsb_exists.
    intros (x & Hx%list_elem_of_In & Hc).
    apply list_elem_of_lookup in Hx as [j Hj].
    destruct (decide (j < index)%nat) as [Hlt|Hge].
    - rewrite list_lookup_delete_lt in Hj by done.
      rewrite (Hothers j x) in Hc; [done | lia | done].
    - rewrite list_lookup_delete_ge in Hj by lia.
      rewrite (Hothers (S j) x) in Hc; [done | lia | done]. }
  split; [done|].
  unfold validateActivity. rewrite Hty', Hnone. simpl.
  unfold push_if at 1. apply elem_of_app. right. left.
Qed.

Lemma removing_the_correct_option_witness :
  let draft := addOption 1000 (initialActivityData 1000) in
  existsb Opt.isCorrect (Activity.options (removeOption draft 0)) = false ∧
  E_CORRECT ∈ validateActivity (removeOption draft 0).
Proof.
  apply (removing_the_correct_option
           (addOption 1000 (initialActivityData 1000)) 0
           (Opt.mk (initialMediaElement 1000) true)).
  - reflexivity.
  - simpl. lia.
  - reflexivity.
  - intros [|[|[|[|j]]]] o' Hj Ho'; try done; by injection Ho' as <-.
Defined.

(** ** Editor: the distractor input *)

Lemma wordBlocks_setWordBlocks prev value :
  Activity.wordBlocks (setWordBlocks prev value) = Some (wordBlocks_of value).
Proof. by destruct prev. Qed.

Lemma split_on_no_sep d s : ∀ piece,
  d ∉ piece → Forall (λ p, d ∉ p) (split_on d piece s).
Proof.
  induction s as [|c r IH]; intros piece Hp; simpl.
  - by apply Forall_singleton.
  - destruct (N.eqb_spec c d) as [->|Hne].
    + apply Forall_cons. split; [done|]. apply IH, not_elem_of_nil.
    + apply IH. rewrite not_elem_of_app, not_elem_of_cons.
      split; [done|]. split; [congruence | apply not_elem_of_nil].
Qed.

Lemma split_on_whole d s : ∀ piece,
  d ∉ s → split_on d piece s = [piece ++ s].
Proof.
  induction s as [|c r IH]; intros piece Hs; simpl.
  - by rewrite app_nil_r.
  - apply not_elem_of_cons in Hs as [Hc Hr].
    destruct (N.eqb_spec c d); [congruence|].
    rewrite IH by done. by rewrite <- app_assoc.
Qed.

Lemma split_on_app d a b : ∀ piece,
  d ∉ a →
  split_on d piece (a ++ d :: b) = (piece ++ a) :: split_on d [] b.
Proof.
  induction a as [|c a IH]; intros piece Ha; simpl.
  - by rewrite N.eqb_refl, app_nil_r.
  - apply not_elem_of_cons in Ha as [Hc Ha].
    destruct (N.eqb_spec c d); [congruence|].
    rewrite IH by done. by rewrite <- app_assoc.
Qed.

(** Whatever is typed into the distractor input, every word that reaches
    [wordBlocks] is non-empty, trimmed and free of commas. *)
Theorem wordBlocks_are_clean prev value :
  ∃ words, Activity.wordBlocks (setWordBlocks prev value) = Some words ∧
           Forall stored_word words.
Proof.
  exists (wordBlocks_of value). split; [apply wordBlocks_setWordBlocks|].
  unfold wordBlocks_of. apply Forall_forall. intros w Hw.
  apply list_elem_of_In, filter_In in Hw as [Hin Ht].
  apply list_elem_of_In, list_elem_of_fmap in Hin as (p & -> & Hp).
  pose proof (split_on_no_sep COMMA value [] (not_elem_of_nil _)) as Hall.
  rewrite Forall_forall in Hall. specialize (Hall p Hp).
  split; [by destruct (trim p)|]. split; [apply trim_idemp|].
  by apply trim_not_elem.
Qed.

Lemma split_on_piece d s : ∀ piece,
  split_on d piece s =
  match split_on d [] s with
  | first :: rest => (piece ++ first) :: rest
  | [] => []
  end.
Proof.
  induction s as [|c r IH]; intros piece; simpl.
  - by rewrite app_nil_r.
  - destruct (c =? d); [by rewrite app_nil_r|].
    rewrite (IH (piece ++ [c])), (IH [c]).
    destruct (split_on d [] r); [done|]. by rewrite <- app_assoc.
Qed.

(** The space after a comma is trimmed away. *)
Lemma split_on_after_space s :
  map trim (split_on COMMA [] (SPACE :: s)) = map trim (split_on COMMA [] s).
Proof.
  change (split_on COMMA [] (SPACE :: s)) with (split_on COMMA [SPACE] s).
  rewrite split_on_piece. by destruct (split_on COMMA [] s).
Qed.

Lemma join_cons sep w w' ws :
  join sep (w :: w' :: ws) = w ++ sep ++ join sep (w' :: ws).
Proof. done. Qed.

Lemma wordBlocks_of_join_aux ws :
  Forall stored_word ws →
  ∀ w, stored_word w →
  wordBlocks_of (join [COMMA; SPACE] (w :: ws)) = w :: ws ∧
  wordBlocks_of (join [COMMA; SPACE] (w :: ws) ++ [COMMA]) = w :: ws.
Proof.
  unfold wordBlocks_of.
  induction 1 as [|w' ws Hw' Hws IH]; intros w (Hne & Htrim & Hcomma).
  - simpl join. rewrite split_on_whole by done.
    rewrite (split_on_app COMMA w [] []) by done. simpl.
    rewrite Htrim. by destruct w.
  - destruct (IH w' Hw') as [IH1 IH2].
    rewrite join_cons.
    replace ((w ++ [COMMA; SPACE] ++ join [COMMA; SPACE] (w' :: ws)) ++ [COMMA])
      with (w ++ COMMA :: SPACE :: (join [COMMA; SPACE] (w' :: ws) ++ [COMMA]))
      by (by rewrite <- app_assoc).
    change (w ++ [COMMA; SPACE] ++ join [COMMA; SPACE] (w' :: ws))
      with (w ++ COMMA :: SPACE :: join [COMMA; SPACE] (w' :: ws)).
    rewrite !split_on_app by done.
    rewrite !fmap_cons, !split_on_after_space. simpl app. rewrite Htrim.
    cbn [List.filter]. destruct w as [|c w]; [done|]. cbn [truthy].
    split; f_equal; [apply IH1 | apply IH2].
Qed.

(** The input shows [wordBlocks.join(", ")] and stores what it parses
    from its value.  Showing stored words and parsing them again gives the
    same words; and a comma typed after them is parsed away, so the value
    shown after the next render is the old one. *)
Theorem wordBlocks_input_round_trip words :
  Forall stored_word words →
  wordBlocks_of (wordBlocks_value words) = words ∧
  wordBlocks_of (wordBlocks_value words ++ [COMMA]) = words.
Proof.
  intros Hall. unfold wordBlocks_value.
  destruct Hall as [|w ws Hw Hws]; [done|].
  by apply wordBlocks_of_join_aux.
Qed.

Lemma wordBlocks_input_round_trip_witness :
  wordBlocks_of (wordBlocks_value [lit "nta"; lit "Labass"]) =
    [lit "nta"; lit "Labass"] ∧
  wordBlocks_of (wordBlocks_value [lit "nta"; lit "Labass"] ++ [COMMA]) =
    [lit "nta"; lit "Labass"].
Proof.
  apply (wordBlocks_input_round_trip [lit "nta"; lit "Labass"]).
  repeat constructor; try discriminate;
    intros H; apply list_elem_of_In in H; simpl in H;
    repeat (destruct H as [H|H]; [discriminate H|]); destruct H.
Defined.

(** ** Editor: changing the type *)

Lemma title_handleTypeChange t0 a ty :
  truthy (Activity.title (handleTypeChange t0 a ty)) = true.
Proof.
  unfold handleTypeChange. simpl.
  destruct (truthy (Activity.title a)) eqn:Ht; [done|]. reflexivity.
Qed.

(** A change of type keeps the [id] of the draft and always leaves it
    with a non-empty title; and for a draft that has a title, changing the
    type twice is changing it once to the last type. *)
Theorem handleTypeChange_twice t0 a ty1 ty2 :
  Activity.id (handleTypeChange t0 a ty1) = Activity.id a ∧
  truthy (Activity.title (handleTypeChange t0 a ty1)) = true ∧
  (truthy (Activity.title a) = true →
   handleTypeChange t0 (handleTypeChange t0 a ty1) ty2 =
   handleTypeChange t0 a ty2).
Proof.
  split; [done|]. split; [apply title_handleTypeChange|].
  intros Ht. unfold handleTypeChange. simpl. rewrite Ht. simpl.
  by rewrite Ht.
Qed.

Lemma handleTypeChange_twice_witness :
  handleTypeChange 1000 (handleTypeChange 1000 one_option_draft Dialogue)
                   FillInBlanks =
  handleTypeChange 1000 one_option_draft FillInBlanks.
Proof.
  apply (handleTypeChange_twice 1000 one_option_draft Dialogue FillInBlanks).
  reflexivity.
Defined.

(** ** Setup view: the objectives *)

Lemma objectives_set_field state fv :
  Lesson.objectives (set_field state fv) =
  match fv with F_objectives v => v | _ => Lesson.objectives state end.
Proof. by destruct state, fv. Qed.

(** Adding, editing and removing objectives through the setup view never
    leaves a lesson that has objectives without any: the remove button is
    not there for the last one.  Adding appends an empty objective,
    editing changes the one objective, removing deletes it. *)
Theorem objectives_stay_non_empty t0 now state index value :
  Lesson.objectives state ≠ [] →
  Lesson.objectives (addObjective t0 now state) =
    Lesson.objectives state ++ [[]] ∧
  Lesson.objectives (editObjective t0 now state index value) =
    <[index := value]> (Lesson.objectives state) ∧
  Lesson.objectives (removeObjective t0 now state index) ≠ [] ∧
  ((1 < length (Lesson.objectives state))%nat →
   Lesson.objectives (removeObjective t0 now state index) =
     delete index (Lesson.objectives state)).
Proof.
  intros Hne. split; [|split; [|split]].
  - unfold addObjective. simpl. by rewrite !objectives_set_field.
  - unfold editObjective.
    destruct (Lesson.objectives state !! index) eqn:Hi.
    + simpl. by rewrite !objectives_set_field.
    + apply lookup_ge_None in Hi. by rewrite list_insert_ge.
  - unfold removeObjective.
    destruct (Lesson.objectives state !! index) eqn:Hi; [|done].
    destruct (Nat.ltb_spec 1 (length (Lesson.objectives state))); [|done].
    simpl. rewrite !objectives_set_field.
    pose proof (length_remove_at_ge index (Lesson.objectives state)).
    intros Hnil. rewrite Hnil in *. simpl in *. lia.
  - intros Hlen. unfold removeObjective.
    destruct (Lesson.objectives state !! index) eqn:Hi.
    + destruct (Nat.ltb_spec 1 (length (Lesson.objectives state))); [|lia].
      simpl. rewrite !objectives_set_field. apply remove_at_delete.
    + apply lookup_ge_None in Hi. clear -Hi.
      revert index Hi. induction (Lesson.objectives state) as [|x l IH];
        intros [|index] Hi; simpl in *; try done; try lia.
      f_equal. apply IH. lia.
Qed.

Lemma objectives_stay_non_empty_witness :
  Lesson.objectives (removeObjective 1000 2000 (initialLessonState 1000) 0)
  ≠ [].
Proof.
  apply (objectives_stay_non_empty 1000 2000 (initialLessonState 1000) 0 []).
  discriminate.
Defined.

(** ** Learner view: steps and checking *)




(** [checkAnswer] returns on the intro and on every activity step, and
    throws at the terminal step, where there is no activity.  When it
    returns it has set [isAnswered] and changed nothing but [isCorrect];
    the intro and the dialogue, match-image and ordering activities are
    judged correct whatever the learner did, an activity of any other
    unknown type incorrect. *)
Theorem checkAnswer_returns lessonData st :
  ((Quiz.step st ≤ length (LessonData.activities lessonData))%nat →
   ∃ correct,
     checkAnswer lessonData st =
       Ok (Quiz.mk (Quiz.step st) true correct (Quiz.selectedAnswer st)
             (Quiz.matchingState st) (Quiz.blanksState st)
             (Quiz.availableWords st)) ∧
     match currentContent lessonData (Quiz.step st) with
     | Intro => correct = true
     | AnActivity a =>
         match Activity.type a with
         | Dialogue | MatchImage | Ordering => correct = true
         | OtherType _ => correct = false
         | _ => True
         end
     | Undefined => False
     end) ∧
  ((length (LessonData.activities lessonData) < Quiz.step st)%nat →
   checkAnswer lessonData st = TypeError).
Proof.
  destruct st as [s ia ic sel ms bs av]. simpl.
  unfold checkAnswer, derivedBlanks, currentContent. simpl. split.
  - intros Hle. destruct s as [|i]; [by exists true|].
    destruct (lookup_lt_is_Some_2 (LessonData.activities lessonData) i)
      as [a Ha]; [lia|].
    rewrite Ha. destruct (Activity.type a); eexists; split; try done.
  - intros Hgt. destruct s as [|i]; [lia|].
    rewrite lookup_ge_None_2; [done | lia].
Qed.

Lemma checkAnswer_returns_witness :
  ∃ correct,
    checkAnswer DUMMY_LESSON_DATA (Quiz.mk 3 false false None ∅ ∅ []) =
      Ok (Quiz.mk 3 true correct None ∅ ∅ []) ∧
    correct = true.
Proof.
  destruct (proj1 (checkAnswer_returns DUMMY_LESSON_DATA
                     (Quiz.mk 3 false false None ∅ ∅ [])))
    as (correct & Heq & Hc); [vm_compute; lia|].
  exists correct. split; [exact Heq | exact Hc].
Defined.

(** Once a step is checked, the learner's inputs are frozen: selecting an
    answer, tapping a word, tapping a blank, and the effect that shuffles
    the words all leave the state as it is. *)
Theorem inputs_frozen_after_check lessonData st st' sort_random answerId
        word blankIndex :
  checkAnswer lessonData st = Ok st' →
  handleAnswerSelect st' answerId = st' ∧
  handleWordBlockTap lessonData st' word = Ok st' ∧
  handleBlankClick sort_random st' blankIndex = st' ∧
  initWordBlocks sort_random lessonData st' = Ok st'.
Proof.
  intros Hcheck.
  assert (Hans : Quiz.isAnswered st' = true ∧ Quiz.step st' = Quiz.step st).
  { unfold checkAnswer in Hcheck. destruct (Quiz.step st) eqn:Hs.
    - injection Hcheck as <-. by destruct st.
    - destruct (currentContent _ _); try done.
      destruct (derivedBlanks _ _); try done.
      injection Hcheck as <-. destruct st; simpl in *. done. }
  destruct Hans as [Hans Hstep].
  unfold handleAnswerSelect, handleWordBlockTap, handleBlankClick,
    initWordBlocks.
  rewrite Hans, Hstep. repeat split.
  unfold checkAnswer in Hcheck.
  destruct (Quiz.step st) as [|i] eqn:Hs; [done|].
  destruct (currentContent lessonData (S i)); try done.
  by destruct (Activity.type activity).
Qed.

Lemma inputs_frozen_after_check_witness :
  let st' := Quiz.mk 1 true false (Some (lit "Msa L5eer")) ∅ ∅ [] in
  handleAnswerSelect st' (lit "Sba7 L5eer") = st' ∧
  handleWordBlockTap DUMMY_LESSON_DATA st' (lit "nty") = Ok st' ∧
  handleBlankClick (λ l, l) st' 0 = st' ∧
  initWordBlocks (λ l, l) DUMMY_LESSON_DATA st' = Ok st'.
Proof.
  apply (inputs_frozen_after_check DUMMY_LESSON_DATA
           (Quiz.mk 1 false false (Some (lit "Msa L5eer")) ∅ ∅ [])).
  reflexivity.
Defined.

(** ** Learner view: the blanks *)

(** Tapping a filled blank on an unanswered step empties that slot and
    puts one copy of its word back among the available words; nothing
    happens when the step is answered, when the slot is empty, or when the
    slot holds the empty string. *)
Theorem handleBlankClick_returns_word sort_random st blankIndex :
  (∀ l, sort_random l ≡ₚ l) →
  let st' := handleBlankClick sort_random st blankIndex in
  (∀ word, Quiz.isAnswered st = false →
           Quiz.blanksState st !! blankIndex = Some word →
           word ≠ [] →
           Quiz.blanksState st' = delete blankIndex (Quiz.blanksState st) ∧
           S (size (Quiz.blanksState st')) = size (Quiz.blanksState st) ∧
           Quiz.availableWords st' ≡ₚ word :: Quiz.availableWords st ∧
           Quiz.step st' = Quiz.step st ∧
           Quiz.selectedAnswer st' = Quiz.selectedAnswer st) ∧
  (Quiz.isAnswered st = true ∨
   Quiz.blanksState st !! blankIndex = None ∨
   Quiz.blanksState st !! blankIndex = Some [] →
   st' = st).
Proof.
  intros Hperm. simpl. unfold handleBlankClick. split.
  - intros word Hans Hword Hne. rewrite Hans, Hword.
    destruct word as [|c word]; [done|]. simpl.
    destruct st as [s ia ic sel ms bs av]; simpl in *.
    split; [done|]. split.
    + rewrite map_size_delete, Hword. simpl.
      assert (size bs ≠ 0%nat); [|lia].
      intros Hz%map_size_empty_inv. by rewrite Hz in Hword.
    + split; [|done]. rewrite Hperm. by rewrite Permutation_app_comm.
  - intros [Hans|[Hnone|Hempty]].
    + by rewrite Hans.
    + rewrite Hnone. by destruct (Quiz.isAnswered st).
    + rewrite Hempty. by destruct (Quiz.isAnswered st).
Qed.

Lemma handleBlankClick_returns_word_witness :
  let st := Quiz.mk 2 false false None ∅ {[ 0%nat := lit "nta" ]}
                    [lit "nty"] in
  Quiz.blanksState (handleBlankClick (λ l, l) st 0) =
  delete 0%nat (Quiz.blanksState st).
Proof.
  apply (proj1 (handleBlankClick_returns_word (λ l, l)
                  (Quiz.mk 2 false false None ∅ {[ 0%nat := lit "nta" ]}
                           [lit "nty"]) 0 (λ l, reflexivity l))
           (lit "nta")).
  - reflexivity.
  - reflexivity.
  - discriminate.
Defined.

Lemma filter_eq_single (w : list N) (l : list (list N)) :
  occurrences w l = 1%nat → filter (λ x : list N, x = w) l = [w].
Proof.
  unfold occurrences. intros Hlen.
  destruct (filter (λ x : list N, x = w) l) as [|x [|y r]] eqn:Hf;
    simpl in Hlen; try lia.
  assert (Hx : x ∈ filter (λ x : list N, x = w) l) by (rewrite Hf; left).
  apply list_elem_of_filter in Hx as [-> _]. done.
Qed.

(** Tapping a word that is on offer exactly once and then tapping the
    blank it went to brings the slots back to what they were and the
    available words back to the same words, in some order. *)
Theorem tap_then_untap lessonData st i a word sort_random :
  (∀ l, sort_random l ≡ₚ l) →
  Quiz.step st = S i →
  LessonData.activities lessonData !! i = Some a →
  Activity.type a = FillInBlanks →
  Quiz.isAnswered st = false →
  word ≠ [] →
  occurrences word (Quiz.availableWords st) = 1%nat →
  nextBlankIndex (Quiz.blanksState st)
    (blankParts (sentenceTemplate
       (parseFillInBlanks (Some (Media.text (Activity.question a))))))
  ≠ None →
  ∃ m st1,
    handleWordBlockTap lessonData st word = Ok st1 ∧
    Quiz.blanksState st1 !! m = Some word ∧
    Quiz.blanksState (handleBlankClick sort_random st1 m) =
      Quiz.blanksState st ∧
    Quiz.availableWords (handleBlankClick sort_random st1 m) ≡ₚ
      Quiz.availableWords st.
Proof.
  intros Hperm Hstep Hact Hty Hans Hne Hocc Hnext.
  destruct (nextBlankIndex _ _) as [m|] eqn:Hm; [|done]. clear Hnext.
  pose proof (nextBlankIndex_unfilled _ _ _ Hm) as Hnone.
  destruct st as [s ia ic sel ms bs av]; simpl in *. subst s ia.
  exists m. eexists. split.
  { unfold handleWordBlockTap, derivedBlanks, currentContent. simpl.
    rewrite Hact, Hty, Hm. reflexivity. }
  simpl. split; [apply lookup_insert_eq|].
  unfold handleBlankClick. simpl. rewrite lookup_insert_eq.
  destruct word as [|c word]; [done|]. simpl.
  split; [by apply delete_insert_id|].
  rewrite Hperm.
  rewrite <- (filter_app_complement (λ x : list N, x = c :: word) av) at 2.
  rewrite (filter_eq_single _ _ Hocc). apply Permutation_app_comm.
Qed.

Lemma tap_then_untap_witness :
  ∃ m st1,
    handleWordBlockTap DUMMY_LESSON_DATA
      (Quiz.mk 2 false false None ∅ ∅ [lit "nta"; lit "nty"]) (lit "nty")
    = Ok st1 ∧
    Quiz.blanksState st1 !! m = Some (lit "nty") ∧
    Quiz.blanksState (handleBlankClick (λ l, l) st1 m) = ∅ ∧
    Quiz.availableWords (handleBlankClick (λ l, l) st1 m) ≡ₚ
      [lit "nta"; lit "nty"].
Proof.
  apply (tap_then_untap DUMMY_LESSON_DATA
           (Quiz.mk 2 false false None ∅ ∅ [lit "nta"; lit "nty"])
           1 dummy_fill_in_blanks (lit "nty") (λ l, l)).
  - intros l. reflexivity.
  - reflexivity.
  - reflexivity.
  - reflexivity.
  - reflexivity.
  - discriminate.
  - reflexivity.
  - vm_compute. discriminate.
Defined.

Lemma derivedBlanks_sequential lessonData step parsed :
  derivedBlanks lessonData step = Ok parsed →
  map blank_index (blankParts (sentenceTemplate parsed)) =
  map Some (seq 0 (length (blankParts (sentenceTemplate parsed)))) ∧
  correctWords parsed = words_of (sentenceTemplate parsed).
Proof.
  unfold derivedBlanks. destruct (currentContent lessonData step); try done.
  - by intros [= <-].
  - destruct (Activity.type activity); intros [= <-]; try done.
    pose proof (parse_result_shape
                  (Some (Media.text (Activity.question activity)))) as [H1 H2].
    done.
Qed.

(** In the states the learner can reach, only slots of existing blanks
    are filled. *)
Lemma blanks_reachable_in_range lessonData pool st :
  blanks_reachable lessonData pool st →
  ∀ parsed, derivedBlanks lessonData (Quiz.step st) = Ok parsed →
  ∀ j, is_Some (Quiz.blanksState st !! j) →
       (j < length (blankParts (sentenceTemplate parsed)))%nat.
Proof.
  induction 1 as [st Hperm Hempty | st k st' Hreach IH Htap
                 | st sort_random blankIndex Hreach IH Hsort];
    intros parsed Hd j Hj.
  - rewrite Hempty, lookup_empty in Hj. by destruct Hj.
  - unfold tapWordBlock in Htap.
    destruct (derivedBlanks lessonData (Quiz.step st)) as [parsed0|] eqn:Hd0;
      [|by destruct (Quiz.availableWords st !! k)].
    assert (Hsame : st' = st → (j < length (blankParts (sentenceTemplate parsed)))%nat).
    { intros ->. apply (IH parsed); [congruence | done]. }
    destruct (Quiz.availableWords st !! k) as [word|] eqn:Hk;
      [|injection Htap as <-; by apply Hsame].
    destruct (Quiz.isAnswered st || _);
      [injection Htap as <-; by apply Hsame|].
    unfold handleWordBlockTap in Htap. rewrite Hd0 in Htap.
    destruct (Quiz.isAnswered st); [injection Htap as <-; by apply Hsame|].
    destruct (nextBlankIndex _ _) as [m|] eqn:Hnext;
      [|injection Htap as <-; by apply Hsame].
    destruct (derivedBlanks_sequential _ _ _ Hd0) as [Hseq _].
    pose proof (nextBlankIndex_least (Quiz.blanksState st) _ _ Hseq) as Hleast.
    rewrite Hnext in Hleast. destruct Hleast as (Hm & _ & _).
    destruct st as [s ia ic sel ms bs av]; simpl in *.
    injection Htap as <-. simpl in *. rewrite Hd0 in Hd. injection Hd as <-.
    destruct (decide (j = m)) as [->|Hne]; [done|].
    rewrite lookup_insert_ne in Hj by done. by apply (IH parsed0).
  - assert (Hstep : Quiz.step (tapBlank sort_random st blankIndex) = Quiz.step st
                    ∧ ∀ j, is_Some (Quiz.blanksState
                                      (tapBlank sort_random st blankIndex) !! j) →
                           is_Some (Quiz.blanksState st !! j)).
    { unfold tapBlank, handleBlankClick.
      destruct (Quiz.blanksState st !! blankIndex) as [word|] eqn:Hb; [|done].
      destruct (Quiz.isAnswered st || negb (truthy word)); [done|].
      destruct (Quiz.isAnswered st); [done|].
      destruct (truthy word); [|done].
      destruct st as [s ia ic sel ms bs av]; simpl in *. split; [done|].
      intros j' [x Hx]. apply lookup_delete_Some in Hx as [_ Hx]. by exists x. }
    destruct Hstep as [Hstep Hsub]. rewrite Hstep in Hd.
    apply (IH parsed Hd). by apply Hsub.
Qed.

(** In every state the learner can reach, the test that enables Check on
    a fill-in-blanks step, which compares the number of filled slots with
    the number of blanks, holds exactly when every blank is filled. *)
Theorem allBlanksFilled_reachable lessonData pool st parsed :
  blanks_reachable lessonData pool st →
  derivedBlanks lessonData (Quiz.step st) = Ok parsed →
  let n := length (blankParts (sentenceTemplate parsed)) in
  (∀ j, is_Some (Quiz.blanksState st !! j) → (j < n)%nat) ∧
  (allBlanksFilled (Quiz.blanksState st)
                   (blankParts (sentenceTemplate parsed)) = true ↔
   ∀ j, (j < n)%nat → is_Some (Quiz.blanksState st !! j)).
Proof.
  intros Hreach Hd n.
  pose proof (blanks_reachable_in_range _ _ _ Hreach parsed Hd) as Hrange.
  fold n in Hrange. split; [done|].
  unfold allBlanksFilled. fold n. rewrite Nat.eqb_eq.
  set (bs := Quiz.blanksState st) in *.
  assert (Hsub : dom bs ⊆ (set_seq 0 n : gset nat)).
  { intros j Hj%elem_of_dom. apply elem_of_set_seq. specialize (Hrange j Hj).
    lia. }
  split.
  - intros Hsize j Hj. apply elem_of_dom.
    assert (Heq : dom bs = set_seq 0 n).
    { apply set_subseteq_size_eq; [done|].
      rewrite size_dom, size_set_seq. lia. }
    rewrite Heq. apply elem_of_set_seq. lia.
  - intros Hall.
    assert (Heq : dom bs = set_seq 0 n).
    { apply set_eq. intros j. split; [apply Hsub|].
      intros Hj%elem_of_set_seq. apply elem_of_dom, Hall. lia. }
    by rewrite <- size_dom, Heq, size_set_seq.
Qed.

Lemma allBlanksFilled_reachable_witness :
  let st := Quiz.mk 2 false false None ∅ ∅ [lit "nta"; lit "nty"] in
  let parsed := parseFillInBlanks (Some (lit "Smeety Alex, o {nty}?")) in
  (∀ j, is_Some (Quiz.blanksState st !! j) → (j < 1)%nat) ∧
  (allBlanksFilled (Quiz.blanksState st)
                   (blankParts (sentenceTemplate parsed)) = true ↔
   ∀ j, (j < 1)%nat → is_Some (Quiz.blanksState st !! j)).
Proof.
  apply (allBlanksFilled_reachable DUMMY_LESSON_DATA [lit "nta"; lit "nty"]
           (Quiz.mk 2 false false None ∅ ∅ [lit "nta"; lit "nty"])
           (parseFillInBlanks (Some (lit "Smeety Alex, o {nty}?")))).
  - apply reach_enter; reflexivity.
  - reflexivity.
Defined.

(** When every word of the pool is the same word, the learner never has
    more than one blank filled: the first tap takes every copy off offer,
    and emptying the blank brings one copy back.  A sentence with two or
    more blanks can then never be filled, and Check stays disabled. *)
Theorem one_word_pool_fills_one_blank lessonData pool w st parts :
  Forall (λ x, x = w) pool →
  blanks_reachable lessonData pool st →
  (size (Quiz.blanksState st) ≤ 1)%nat ∧
  ((2 ≤ length parts)%nat → allBlanksFilled (Quiz.blanksState st) parts = false).
Proof.
  intros Hpool Hreach.
  assert (Hinv : Forall (λ x, x = w) (Quiz.availableWords st) ∧
                 (Quiz.blanksState st = ∅ ∨
                  ∃ m, Quiz.blanksState st = {[ m := w ]} ∧
                       Quiz.availableWords st = [])).
  { induction Hreach as [st Hperm Hempty | st k st' Hreach IH Htap
                        | st sort_random blankIndex Hreach IH Hsort].
    - split; [by rewrite Hperm | by left].
    - destruct IH as [Hav Hbs]. unfold tapWordBlock in Htap.
      destruct (derivedBlanks lessonData (Quiz.step st)) as [parsed|] eqn:Hd;
        [|by destruct (Quiz.availableWords st !! k)].
      destruct (Quiz.availableWords st !! k) as [word|] eqn:Hk;
        [|by injection Htap as <-].
      destruct (Quiz.isAnswered st || _); [by injection Htap as <-|].
      unfold handleWordBlockTap in Htap. rewrite Hd in Htap.
      destruct (Quiz.isAnswered st); [by injection Htap as <-|].
      destruct (nextBlankIndex _ _) as [m|]; [|by injection Htap as <-].
      assert (word = w) as ->.
      { apply list_elem_of_lookup_2 in Hk.
        by apply (proj1 (Forall_forall _ _) Hav) in Hk. }
      destruct st as [s ia ic sel ms bs av]; simpl in *.
      injection Htap as <-. simpl.
      assert (Hnone : filter (λ x : list N, x ≠ w) av = []).
      { clear -Hav. induction Hav as [|x av Hx _ IH]; [done|].
        rewrite filter_cons. by case_decide. }
      rewrite Hnone. split; [constructor|]. right.
      destruct Hbs as [->|(m' & -> & ->)]; [|done].
      exists m. split; [by rewrite insert_empty | done].
    - destruct IH as [Hav Hbs]. unfold tapBlank.
      destruct (Quiz.blanksState st !! blankIndex) as [word|] eqn:Hb; [|done].
      destruct (Quiz.isAnswered st || negb (truthy word)); [done|].
      unfold handleBlankClick. destruct (Quiz.isAnswered st); [done|].
      rewrite Hb. destruct (truthy word); [|done].
      destruct st as [s ia ic sel ms bs av]; simpl in *.
      destruct Hbs as [->|(m & -> & ->)]; [by rewrite lookup_empty in Hb|].
      apply lookup_singleton_Some in Hb as [-> ->].
      rewrite delete_singleton, decide_True by done. split; [|by left].
      rewrite (Hsort _). simpl. by constructor. }
  destruct Hinv as [_ Hbs].
  assert (Hsize : (size (Quiz.blanksState st) ≤ 1)%nat).
  { destruct Hbs as [->|(m & -> & _)];
      [rewrite map_size_empty; lia | by rewrite map_size_singleton]. }
  split; [done|]. intros Hparts. unfold allBlanksFilled.
  apply Nat.eqb_neq. lia.
Qed.

Lemma one_word_pool_fills_one_blank_witness :
  let st := Quiz.mk 1 false false None ∅ {[ 0%nat := lit "nty" ]} [] in
  (size (Quiz.blanksState st) ≤ 1)%nat ∧
  allBlanksFilled (Quiz.blanksState st)
    (blankParts (sentenceTemplate
       (parseFillInBlanks (Some (lit "{nty} o {nty}"))))) = false.
Proof.
  assert (Hreach : blanks_reachable repeated_word_lesson
                     [lit "nty"; lit "nty"]
                     (Quiz.mk 1 false false None ∅ {[ 0%nat := lit "nty" ]} [])).
  { apply (reach_tap_word _ _
             (Quiz.mk 1 false false None ∅ ∅ [lit "nty"; lit "nty"]) 0%nat).
    - by apply reach_enter.
    - reflexivity. }
  destruct (one_word_pool_fills_one_blank repeated_word_lesson
              [lit "nty"; lit "nty"] (lit "nty") _
              (blankParts (sentenceTemplate
                 (parseFillInBlanks (Some (lit "{nty} o {nty}")))))
              ltac:(repeat constructor) Hreach) as [Hsize Hfill].
  split; [exact Hsize|]. apply Hfill. vm_compute. lia.
Defined.

(** ** Learner view: judging a fill-in-blanks step *)

Lemma blankParts_words tpl :
  map token_word (blankParts tpl) = map Some (words_of tpl).
Proof.
  induction tpl as [|[s|i w] tpl IH]; simpl; [done|..].
  - apply IH.
  - unfold words_of in *. simpl. by rewrite IH.
Qed.

(** The blank at position [j] of a parsed template is numbered [j] and
    carries the [j]-th answer. *)
Lemma blankParts_lookup parts words n j p :
  map blank_index parts = map Some (seq 0 n) →
  map token_word parts = map Some words →
  parts !! j = Some p →
  ∃ w, p = Blank j w ∧ words !! j = Some w.
Proof.
  intros Hidx Hwords Hj.
  assert (H1 : map blank_index parts !! j = Some (blank_index p))
    by (by rewrite list_lookup_fmap, Hj).
  assert (H2 : map token_word parts !! j = Some (token_word p))
    by (by rewrite list_lookup_fmap, Hj).
  rewrite Hidx, list_lookup_fmap in H1. rewrite Hwords, list_lookup_fmap in H2.
  destruct (seq 0 n !! j) as [x|] eqn:Hx; [|done].
  apply lookup_seq in Hx as [-> _]. simpl in H1.
  destruct (words !! j) as [w|] eqn:Hw; [|done]. simpl in H2.
  destruct p as [s|i' w']; simpl in *; [done|].
  exists w. split; [congruence | done].
Qed.

Lemma forallb_blank_is_correct bs parts words n :
  map blank_index parts = map Some (seq 0 n) →
  map token_word parts = map Some words →
  forallb (blank_is_correct bs) parts = true ↔
  ∀ j w, words !! j = Some w → bs !! j = Some w.
Proof.
  intros Hidx Hwords. rewrite forallb_forall. split.
  - intros Hall j w Hw.
    assert (Hlen : length parts = length words).
    { apply (f_equal length) in Hwords. by rewrite !length_map in Hwords. }
    destruct (lookup_lt_is_Some_2 parts j) as [p Hp].
    { rewrite Hlen. by eapply lookup_lt_Some. }
    destruct (blankParts_lookup _ _ _ _ _ Hidx Hwords Hp) as (w' & -> & Hw').
    specialize (Hall _ (proj1 (list_elem_of_In _ _)
                          (list_elem_of_lookup_2 _ _ _ Hp))).
    simpl in Hall. apply bool_decide_eq_true in Hall. congruence.
  - intros Hall p Hp. apply list_elem_of_In, list_elem_of_lookup in Hp as [j Hj].
    destruct (blankParts_lookup _ _ _ _ _ Hidx Hwords Hj) as (w & -> & Hw).
    simpl. apply bool_decide_eq_true. by apply Hall.
Qed.

Lemma checkAnswer_fill_in_blanks_aux lessonData st i a :
  Quiz.step st = S i →
  LessonData.activities lessonData !! i = Some a →
  Activity.type a = FillInBlanks →
  ∃ correct,
    checkAnswer lessonData st =
      Ok (Quiz.mk (Quiz.step st) true correct (Quiz.selectedAnswer st)
            (Quiz.matchingState st) (Quiz.blanksState st)
            (Quiz.availableWords st)) ∧
    (correct = true ↔
     ∀ j w,
       correctWords (parseFillInBlanks
                       (Some (Media.text (Activity.question a)))) !! j = Some w →
       Quiz.blanksState st !! j = Some w).
Proof.
  intros Hstep Hact Hty.
  destruct st as [s ia ic sel ms bs av]; simpl in *. subst s.
  unfold checkAnswer, derivedBlanks, currentContent; simpl.
  rewrite Hact, Hty. eexists. split; [reflexivity|].
  pose proof (parse_result_shape (Some (Media.text (Activity.question a))))
    as [Hwords Hidx]. simpl in Hwords, Hidx.
  rewrite Hwords. eapply forallb_blank_is_correct; [apply Hidx|].
  apply blankParts_words.
Qed.

(** On a fill-in-blanks step the answer is judged correct exactly when
    every blank holds its correct word, compared as strings; slots beyond
    the blanks do not count, and a sentence without blanks is correct as
    it stands. *)
Theorem checkAnswer_fill_in_blanks lessonData st i a :
  Quiz.step st = S i →
  LessonData.activities lessonData !! i = Some a →
  Activity.type a = FillInBlanks →
  ∃ correct,
    checkAnswer lessonData st =
      Ok (Quiz.mk (Quiz.step st) true correct (Quiz.selectedAnswer st)
            (Quiz.matchingState st) (Quiz.blanksState st)
            (Quiz.availableWords st)) ∧
    (correct = true ↔
     ∀ j w,
       correctWords (parseFillInBlanks
                       (Some (Media.text (Activity.question a)))) !! j = Some w →
       Quiz.blanksState st !! j = Some w).
Proof. apply checkAnswer_fill_in_blanks_aux. Qed.

Lemma checkAnswer_fill_in_blanks_witness :
  ∃ correct,
    checkAnswer DUMMY_LESSON_DATA
      (Quiz.mk 2 false false None ∅ {[ 0%nat := lit "nty" ]} []) =
      Ok (Quiz.mk 2 true correct None ∅ {[ 0%nat := lit "nty" ]} []) ∧
    (correct = true ↔
     ∀ j w,
       correctWords (parseFillInBlanks
                       (Some (lit "Smeety Alex, o {nty}?"))) !! j = Some w →
       ({[ 0%nat := lit "nty" ]} : gmap nat (list N)) !! j = Some w).
Proof.
  exact (checkAnswer_fill_in_blanks DUMMY_LESSON_DATA
           (Quiz.mk 2 false false None ∅ {[ 0%nat := lit "nty" ]} [])
           1 dummy_fill_in_blanks eq_refl eq_refl eq_refl).
Defined.

Lemma tapWords_fills lessonData i a ws : ∀ st filled,
  Quiz.step st = S i →
  LessonData.activities lessonData !! i = Some a →
  Activity.type a = FillInBlanks →
  Quiz.isAnswered st = false →
  Quiz.blanksState st = map_seq 0 filled →
  (length filled + length ws ≤
   length (blankParts (sentenceTemplate
     (parseFillInBlanks (Some (Media.text (Activity.question a)))))))%nat →
  ∃ st', tapWords lessonData st ws = Ok st' ∧
         Quiz.step st' = S i ∧ Quiz.isAnswered st' = false ∧
         Quiz.selectedAnswer st' = Quiz.selectedAnswer st ∧
         Quiz.blanksState st' = map_seq 0 (filled ++ ws).
Proof.
  induction ws as [|w ws IH]; intros st filled Hstep Hact Hty Hans Hbs Hlen.
  - exists st. by rewrite app_nil_r.
  - simpl in Hlen. simpl.
    destruct (handleWordBlockTap_step lessonData st i a w Hstep Hact Hty Hans)
      as [(m & Hm & Hnone & Hbelow & Htap) | [Hall _]].
    + assert (Hmeq : m = length filled).
      { rewrite Hbs in Hnone, Hbelow.
        apply lookup_map_seq_None in Hnone as [Hlt|Hge]; [lia|].
        destruct (decide (m = length filled)) as [|Hne]; [done|].
        destruct (Hbelow (length filled)) as [x Hx]; [lia|].
        rewrite lookup_map_seq_0 in Hx. apply lookup_lt_Some in Hx. lia. }
      subst m. rewrite Htap.
      destruct (IH (Quiz.mk (Quiz.step st) false (Quiz.isCorrect st)
                      (Quiz.selectedAnswer st) (Quiz.matchingState st)
                      (<[length filled := w]> (Quiz.blanksState st))
                      (filter (λ x : list N, x ≠ w) (Quiz.availableWords st)))
                   (filled ++ [w]))
        as (st' & Htaps & Hs' & Ha' & Hsel & Hb'); try done.
      * simpl. rewrite Hbs. by rewrite map_seq_snoc.
      * rewrite length_app. simpl. lia.
      * exists st'. rewrite Htaps. repeat split; try done.
        by rewrite <- app_assoc in Hb'.
    + destruct (Hall (length filled)) as [x Hx]; [lia|].
      rewrite Hbs, lookup_map_seq_0 in Hx. apply lookup_lt_Some in Hx. lia.
Qed.

(** Filling the blanks from the first to the last with the words [ws],
    one word per blank, and checking: the slots hold [ws] in order, and
    the answer is judged correct exactly when [ws] is the list of correct
    words. *)
Theorem fill_in_order_then_check lessonData st i a ws :
  Quiz.step st = S i →
  LessonData.activities lessonData !! i = Some a →
  Activity.type a = FillInBlanks →
  Quiz.isAnswered st = false →
  Quiz.blanksState st = ∅ →
  let parsed := parseFillInBlanks (Some (Media.text (Activity.question a))) in
  length ws = length (blankParts (sentenceTemplate parsed)) →
  ∃ st' correct,
    tapWords lessonData st ws = Ok st' ∧
    Quiz.blanksState st' = map_seq 0 ws ∧
    checkAnswer lessonData st' =
      Ok (Quiz.mk (S i) true correct (Quiz.selectedAnswer st)
            (Quiz.matchingState st') (map_seq 0 ws)
            (Quiz.availableWords st')) ∧
    (correct = true ↔ ws = correctWords parsed).
Proof.
  intros Hstep Hact Hty Hans Hbs parsed Hlen.
  destruct (tapWords_fills lessonData i a ws st [] Hstep Hact Hty Hans)
    as (st' & Htaps & Hs' & Ha' & Hsel & Hb');
    [by rewrite Hbs | unfold parsed in Hlen; simpl; lia |].
  simpl in Hb'.
  destruct (checkAnswer_fill_in_blanks_aux lessonData st' i a Hs' Hact Hty)
    as (correct & Hcheck & Hiff).
  exists st', correct. split; [done|]. split; [done|].
  rewrite Hcheck, Hs', Hsel, Hb'. split; [done|].
  rewrite Hiff, Hb'. fold parsed.
  assert (Hn : length (correctWords parsed) = length ws).
  { pose proof (parse_result_shape (Some (Media.text (Activity.question a))))
      as [Hwords _]. simpl in Hwords. fold parsed in Hwords.
    rewrite Hlen, Hwords.
    pose proof (blankParts_words (sentenceTemplate parsed)) as Hbw.
    apply (f_equal length) in Hbw. by rewrite !length_map in Hbw. }
  split.
  - intros Hall. apply list_eq_same_length with (length ws); [done..|].
    intros j x y Hj Hx Hy. specialize (Hall j y Hy).
    rewrite lookup_map_seq_0 in Hall. congruence.
  - intros -> j w Hw. by rewrite lookup_map_seq_0.
Qed.

Lemma fill_in_order_then_check_witness :
  ∃ st' correct,
    tapWords DUMMY_LESSON_DATA
      (Quiz.mk 2 false false None ∅ ∅ [lit "nta"; lit "nty"]) [lit "nta"]
    = Ok st' ∧
    Quiz.blanksState st' = map_seq 0 [lit "nta"] ∧
    checkAnswer DUMMY_LESSON_DATA st' =
      Ok (Quiz.mk 2 true correct None (Quiz.matchingState st')
            (map_seq 0 [lit "nta"]) (Quiz.availableWords st')) ∧
    (correct = true ↔
     [lit "nta"] =
     correctWords (parseFillInBlanks (Some (lit "Smeety Alex, o {nty}?")))).
Proof.
  exact (fill_in_order_then_check DUMMY_LESSON_DATA
           (Quiz.mk 2 false false None ∅ ∅ [lit "nta"; lit "nty"])
           1 dummy_fill_in_blanks [lit "nta"]
           eq_refl eq_refl eq_refl eq_refl eq_refl eq_refl).
Defined.

(** ** Tokenizer: nothing is lost *)

(** The parts into which a template is split, put together again in
    order, are the template: splitting and dropping the empty parts loses
    and adds nothing, with or without braces, matched or not. *)
Theorem template_parts_concat template :
  concat (template_parts template) = template ∧
  Forall (λ p, p ≠ []) (template_parts template).
Proof.
  split; [apply concat_template_parts|].
  unfold template_parts, split_braces.
  - apply Forall_forall. intros p [Hp _]%list_elem_of_filter.
    destruct p; [simpl in Hp; lia | done].
Qed.

Lemma classify_blank_source parts : ∀ k,
  blankParts (classify k parts) ≠ [] →
  ∃ p, p ∈ parts ∧ is_blank_part p = true.
Proof.
  induction parts as [|p parts IH]; intros k; simpl; [done|].
  destruct (is_blank_part p) eqn:Hp.
  - intros _. exists p. split; [left | done].
  - simpl. intros H. destruct (IH k H) as (q & Hq & Hb).
    exists q. split; [by right | done].
Qed.

Lemma elem_of_concat_part (c : N) (p : list N) (l : list (list N)) :
  p ∈ l → c ∈ p → c ∈ concat l.
Proof.
  intros Hp Hc. apply list_elem_of_In, in_concat.
  exists p. split; by apply list_elem_of_In.
Qed.

(** Whenever the tokenizer of the learner side finds a blank in a
    question text, the text holds an opening and a closing brace; so the
    blanks rule of the validator never rejects a text in which the learner
    side would find a blank. *)
Theorem blank_implies_braces a :
  has_blank (Media.text (Activity.question a)) →
  LBRACE ∈ Media.text (Activity.question a) ∧
  RBRACE ∈ Media.text (Activity.question a) ∧
  E_BLANKS ∉ validateActivity a.
Proof.
  unfold has_blank. rewrite parseFillInBlanks_classify. simpl.
  intros (p & Hp & Hb)%classify_blank_source.
  set (t := Media.text (Activity.question a)) in *.
  pose proof (concat_template_parts t) as Hcat.
  unfold is_blank_part in Hb. apply andb_true_iff in Hb as [Hs He].
  assert (HL : LBRACE ∈ t).
  { rewrite <- Hcat. apply (elem_of_concat_part _ p); [done|].
    destruct p as [|x p]; [done|]. simpl in Hs.
    apply N.eqb_eq in Hs as ->. left. }
  assert (HR : RBRACE ∈ t).
  { rewrite <- Hcat. apply (elem_of_concat_part _ p); [done|].
    unfold endsWith in He. destruct (last p) as [x|] eqn:Hl; [|done].
    apply N.eqb_eq in He as ->. apply last_Some in Hl as [p' ->].
    apply elem_of_app. right. left. }
  split; [done|]. split; [done|].
  unfold validateActivity. fold (common_errors a). fold t.
  apply includes_elem_of in HL.
  assert (Hc : E_BLANKS ∉ common_errors a).
  { unfold common_errors, push_if.
    destruct (negb _), (negb _); simpl; intros H;
      repeat (apply elem_of_cons in H as [H|H]; [discriminate H|]);
      by apply elem_of_nil in H. }
  unfold push_if.
  destruct (Activity.type a); rewrite ?HL; simpl;
    repeat match goal with
           | |- context [if ?b then _ else _] => destruct b
           end;
    rewrite ?not_elem_of_app, ?not_elem_of_cons;
    repeat split; try done; try apply not_elem_of_nil.
Qed.

Lemma blank_implies_braces_witness :
  LBRACE ∈ Media.text (Activity.question dummy_fill_in_blanks) ∧
  RBRACE ∈ Media.text (Activity.question dummy_fill_in_blanks) ∧
  E_BLANKS ∉ validateActivity dummy_fill_in_blanks.
Proof.
  apply (blank_implies_braces dummy_fill_in_blanks).
  vm_compute. discriminate.
Defined.

(** No answer of a template carries white space at its ends: every
    correct word is its own [trim]. *)
Theorem correct_words_are_trimmed template w :
  w ∈ correctWords (parseFillInBlanks template) → trim w = w.
Proof.
  destruct template as [t|]; [|by intros ?%elem_of_nil].
  rewrite parseFillInBlanks_classify. simpl.
  generalize 0%nat. induction (template_parts t) as [|p parts IH];
    intros k; simpl; [by intros ?%elem_of_nil|].
  destruct (is_blank_part p); unfold words_of; simpl.
  - intros [->|Hw]%elem_of_cons; [apply trim_idemp | by apply (IH (S k))].
  - apply IH.
Qed.

Lemma correct_words_are_trimmed_witness :
  trim (lit "nty") = lit "nty".
Proof.
  apply (correct_words_are_trimmed (Some (lit "o {  nty }?")) (lit "nty")).
  vm_compute. left.
Defined.

(** ** Worked examples *)

Example split_demo :
  split_braces (lit "a{b}c") = [lit "a"; lit "{b}"; lit "c"].
Proof. reflexivity. Qed.

Example unterminated_demo :
  parseFillInBlanks (Some (lit "{nta} o {nty?")) =
  mkParse [Blank 0 (lit "nta"); Text (lit " o {nty?")] [lit "nta"].
Proof. reflexivity. Qed.

Example nested_demo :
  parseFillInBlanks (Some (lit "{a{b}}")) =
  mkParse [Blank 0 (lit "a{b"); Text (lit "}")] [lit "a{b"].
Proof. reflexivity. Qed.

Example spec_demo :
  tokenize_spec 0 (lit "Smeety Alex, o {nty}?") =
  [Text (lit "Smeety Alex, o "); Blank 0 (lit "nty"); Text (lit "?")].
Proof. reflexivity. Qed.
